(** * CSV-Data-Processor: the classification and normalization core

    A shallow embedding of [backend/services]: the rule-driven
    [CategoryGrouper] (edit distance, three-tier [GetGroup], [AddRule])
    and the open-vocabulary [TermNormalizer] (trie store, similarity
    scorer, [NormalizeTerm], [GetCanonicalTerms], [MergeSimilarTerms]);
    then the [DataCleaner] and, of the [CSVProcessor], the grouping of
    records and the choice of the category column.

    Modelling conventions.
    - A Go [string] is a sequence of bytes: it is a Rocq [string], whose
      characters are the 256 values of [ascii].  [len(s)] is the number of
      bytes and [s[i]] is a byte.
    - A Go [int] is a [Z].  Every integer computed here is bounded by a
      string length, so the 64-bit wrap-around never happens.
    - A Go [map] is a [gmap].  A [range] loop over a map visits the
      entries in an unspecified order: a loop whose result may depend on
      the order takes the visiting order as an explicit list, which is
      required to be a permutation of the entries of the map.
    - A [float64] score is an exact rational of [Q]: the model leaves
      the rounding of float64 arithmetic out.  A quotient of two string
      lengths compares with 0.2 or 0.6 as the exact quotient does; a
      weighted score can differ from the exact one in its last bits, so
      the concrete runs below stay away from the thresholds 0.80 and
      0.85 by more than 0.02, and a general statement about a threshold
      is given with a tolerance of 0.01. *)

From Stdlib Require Import ZArith QArith Lqa String Ascii List Lia.
From stdpp Require Import gmap strings list fin_maps sorting.

Set Warnings "-register-all".

Local Open Scope string_scope.
Local Open Scope Z_scope.

(** ** Go strings

    The functions of Go's [strings] and [utf8] packages that the services
    call.  [ToLower], [TrimSpace] and [Fields] are Go's on ASCII text: a
    byte above 0x7F is neither a letter with a lower case nor white
    space here.  A statement that depends on how an input is lowercased,
    trimmed or split says that the input is ASCII ([isASCII]). *)

Module GoString.

(** The bytes of a string. *)
Definition bytes (s : string) : list ascii := list_ascii_of_string s.

Definition ofBytes (b : list ascii) : string := string_of_list_ascii b.

(** [len(s)] *)
Definition len (s : string) : Z := Z.of_nat (length (bytes s)).

(** [s[i]], for an index in range (out of range Go panics; no call below
    leaves the range). *)
Definition byteAt (b : list ascii) (i : nat) : ascii := nth i b Ascii.zero.

Definition byte_val (c : ascii) : Z := Z.of_N (N_of_ascii c).

(** [unicode.IsSpace] on a byte: tab, line feed, vertical tab, form feed,
    carriage return, space. *)
Definition isSpace (c : ascii) : bool :=
  let v := byte_val c in ((9 <=? v) && (v <=? 13)) || (v =? 32).

Definition toLowerByte (c : ascii) : ascii :=
  let v := byte_val c in
  if (65 <=? v) && (v <=? 90) then ascii_of_N (Z.to_N (v + 32)) else c.

(** [strings.ToLower] *)
Definition ToLower (s : string) : string := ofBytes (toLowerByte <$> bytes s).

Fixpoint trimLeft (b : list ascii) : list ascii :=
  match b with
  | [] => []
  | c :: b' => if isSpace c then trimLeft b' else b
  end.

Definition trimRight (b : list ascii) : list ascii := rev (trimLeft (rev b)).

(** [strings.TrimSpace] *)
Definition TrimSpace (s : string) : string :=
  ofBytes (trimRight (trimLeft (bytes s))).

(** [strings.Fields]: the maximal runs of bytes that are not white space,
    [cur] being the run under construction, last byte first. *)
Fixpoint fieldsFrom (cur b : list ascii) : list string :=
  match b with
  | [] => match cur with [] => [] | _ => [ofBytes (rev cur)] end
  | c :: b' =>
      if isSpace c
      then match cur with
           | [] => fieldsFrom [] b'
           | _ => ofBytes (rev cur) :: fieldsFrom [] b'
           end
      else fieldsFrom (c :: cur) b'
  end.

Definition Fields (s : string) : list string := fieldsFrom [] (bytes s).

(** [strings.HasPrefix] and [strings.Contains], on bytes. *)
Fixpoint hasPrefix (s p : list ascii) : bool :=
  match p, s with
  | [], _ => true
  | _ :: _, [] => false
  | c :: p', d :: s' => bool_decide (c = d) && hasPrefix s' p'
  end.

Fixpoint containsBytes (s sub : list ascii) : bool :=
  hasPrefix s sub ||
  match s with
  | [] => false
  | _ :: s' => containsBytes s' sub
  end.

Definition Contains (s sub : string) : bool := containsBytes (bytes s) (bytes sub).

(** The runes a [for _, ch := range s] loop visits: UTF-8 decoding as
    [utf8.DecodeRuneInString] does it, an ill-formed byte giving U+FFFD
    and being skipped alone. *)
Definition RuneError : Z := 65533.

Definition isCont (c : ascii) : bool :=
  let v := byte_val c in (128 <=? v) && (v <=? 191).

Definition inRange (lo hi : Z) (c : ascii) : bool :=
  let v := byte_val c in (lo <=? v) && (v <=? hi).

Definition low6 (c : ascii) : Z := Z.land (byte_val c) 63.

Fixpoint decodeRunes (b : list ascii) : list Z :=
  match b with
  | [] => []
  | b0 :: r0 =>
      let v := byte_val b0 in
      if v <? 128 then v :: decodeRunes r0
      else
        match r0 with
        | b1 :: r1 =>
            if (194 <=? v) && (v <=? 223) then
              if isCont b1
              then Z.lor (Z.shiftl (Z.land v 31) 6) (low6 b1) :: decodeRunes r1
              else RuneError :: decodeRunes r0
            else
              match r1 with
              | b2 :: r2 =>
                  let lo1 := if v =? 224 then 160 else if v =? 240 then 144 else 128 in
                  let hi1 := if v =? 237 then 159 else if v =? 244 then 143 else 191 in
                  if (224 <=? v) && (v <=? 239) then
                    if inRange lo1 hi1 b1 && isCont b2
                    then Z.lor (Z.shiftl (Z.land v 15) 12)
                           (Z.lor (Z.shiftl (low6 b1) 6) (low6 b2)) :: decodeRunes r2
                    else RuneError :: decodeRunes r0
                  else
                    match r2 with
                    | b3 :: r3 =>
                        if (240 <=? v) && (v <=? 244) then
                          if inRange lo1 hi1 b1 && isCont b2 && isCont b3
                          then Z.lor (Z.shiftl (Z.land v 7) 18)
                                 (Z.lor (Z.shiftl (low6 b1) 12)
                                    (Z.lor (Z.shiftl (low6 b2) 6) (low6 b3)))
                               :: decodeRunes r3
                          else RuneError :: decodeRunes r0
                        else RuneError :: decodeRunes r0
                    | [] => RuneError :: decodeRunes r0
                    end
              | [] => RuneError :: decodeRunes r0
              end
        | [] => [RuneError]
        end
  end.

Definition runes (s : string) : list Z := decodeRunes (bytes s).

(** A string is ASCII when each of its bytes is below 0x80, that is when
    each of its code points takes one byte. *)
Definition isASCII (s : string) : bool := forallb (λ c, byte_val c <? 128) (bytes s).

(** [s == ""] and [s != ""] *)
Definition isEmpty (s : string) : bool := bool_decide (s = "").

End GoString.

Import GoString.

(** ** Edit distance as a specification

    [lev_rec] is the textbook recursion; [edits n a b] says that [b] is
    obtained from [a] by [n] single-byte insertions, deletions or
    substitutions applied anywhere in the string. *)

Module EditSpec.

Definition cost `{EqDecision A} (x y : A) : nat :=
  if decide (x = y) then 0%nat else 1%nat.

Fixpoint lev_rec `{EqDecision A} (a b : list A) : nat :=
  match a with
  | [] => length b
  | x :: a' =>
      (fix inner (b : list A) : nat :=
         match b with
         | [] => length a
         | y :: b' =>
             Nat.min (lev_rec a' b + 1)
               (Nat.min (inner b' + 1) (lev_rec a' b' + cost x y))
         end) b
  end.

Inductive edit {A : Type} : list A → list A → Prop :=
  | edit_insert (l : list A) c r : edit (l ++ r) (l ++ c :: r)
  | edit_delete (l : list A) c r : edit (l ++ c :: r) (l ++ r)
  | edit_subst (l : list A) c c' r : edit (l ++ c :: r) (l ++ c' :: r).

Inductive edits {A : Type} : nat → list A → list A → Prop :=
  | edits_O a : edits 0 a a
  | edits_S n a b c : edits n a b → edit b c → edits (S n) a c.

(** [n] is the least number of edits that turn [a] into [b]. *)
Definition min_edits {A : Type} (n : nat) (a b : list A) : Prop :=
  edits n a b ∧ ∀ k, edits k a b → (n ≤ k)%nat.

End EditSpec.

Import EditSpec.


(** ** The category grouper *)

Module CategoryGrouper.

(** [categoryDefinitions], category by category in the order of the
    source text.  It is a Go map: [initializeRules] visits it in an
    unspecified order. *)
Definition categoryDefinitions : list (string * list string) :=
  [
   ("doctor",
     [
      "cardiologist"; "neurologist"; "ent"; "orthopedic"; "pediatrician";
      "dermatologist"; "psychiatrist"; "surgeon"; "physician"; "doctor";
      "dentist"; "orthodontist"; "oncologist"; "radiologist";
      "dr"; "doc"; "md"; "medical doctor" ]);
   ("software engineer",
     [
      "developer"; "programmer"; "software engineer"; "coder";
      "frontend developer"; "backend developer"; "full stack developer";
      "web developer"; "mobile developer"; "devops engineer";
      "software engineering"; "software development"; "web development";
      "mobile development"; "application development"; "coding"; "software";
      "dev"; "swe"; "se" ]);
   ("lawyer",
     [
      "lawyer"; "attorney"; "advocate"; "solicitor"; "barrister";
      "legal counsel"; "legal advisor";
      "atty"; "esq"; "legal" ]);
   ("teacher",
     [
      "teacher"; "professor"; "instructor"; "educator"; "tutor";
      "lecturer"; "trainer";
      "prof" ]);
   ("manager",
     [
      "manager"; "director"; "executive"; "ceo"; "cto"; "cfo";
      "president"; "vp"; "vice president"; "team lead";
      "mgr"; "supervisor"; "lead" ]);
   ("designer",
     [
      "designer"; "graphic designer"; "ui designer"; "ux designer";
      "product designer"; "artist"; "illustrator";
      "branding"; "brand"; "visual design"; "creative design";
      "ux"; "ui"; "graphic" ]);
   ("sales professional",
     [
      "sales"; "salesperson"; "sales rep"; "sales representative";
      "account executive"; "business development"; "marketing";
      "marketing manager"; "brand manager";
      "copywriting"; "positioning"; "strategy"; "insight";
      "sales rep"; "ae"; "bdm" ]);
   ("accountant",
     [
      "accountant"; "auditor"; "financial analyst"; "bookkeeper";
      "tax consultant"; "chartered accountant"; "cpa";
      "ca"; "finance" ]);
   ("engineer",
     [
      "engineer"; "mechanical engineer"; "civil engineer"; "electrical engineer";
      "chemical engineer"; "aerospace engineer"; "industrial engineer";
      "environmental engineer"; "biomedical engineer";
      "eng"; "engr" ]);
   ("healthcare professional",
     [
      "nurse"; "pharmacist"; "therapist"; "physiotherapist";
      "paramedic"; "medical assistant"; "lab technician";
      "radiographer"; "dietitian"; "nutritionist";
      "rn"; "lpn"; "medical staff" ]);
   ("construction worker",
     [
      "construction worker"; "contractor"; "builder"; "carpenter";
      "electrician"; "plumber"; "mason"; "welder";
      "tradesman" ]);
   ("hospitality professional",
     [
      "chef"; "cook"; "waiter"; "waitress"; "bartender";
      "hotel manager"; "receptionist"; "concierge";
      "server"; "hospitality" ]);
   ("retail professional",
     [
      "cashier"; "store manager"; "retail assistant"; "sales associate";
      "merchandiser"; "stock clerk" ]);
   ("transportation worker",
     [
      "driver"; "truck driver"; "delivery driver"; "pilot";
      "captain"; "logistics coordinator"; "dispatcher" ]);
   ("manufacturing worker",
     [
      "factory worker"; "production supervisor"; "assembly line worker";
      "quality inspector"; "machine operator"; "foreman" ]);
   ("public servant",
     [
      "police officer"; "firefighter"; "government official";
      "civil servant"; "social worker"; "public administrator" ]);
   ("media professional",
     [
      "journalist"; "reporter"; "editor"; "writer"; "author";
      "photographer"; "videographer"; "content creator" ]);
   ("researcher",
     [
      "scientist"; "researcher"; "analyst"; "data scientist";
      "biologist"; "chemist"; "physicist"; "research assistant";
      "research"; "analysis"; "data analysis"; "scientific research" ]);
   ("hr professional",
     [
      "hr"; "human resources"; "recruiter"; "talent acquisition";
      "hr manager"; "hr specialist"; "hiring manager";
      "recruitment"; "talent" ]);
   ("security professional",
     [
      "security"; "cybersecurity"; "information security"; "network security";
      "security analyst"; "security engineer"; "homeland security";
      "airport security"; "screening"; "explosive detection";
      "cargo screening"; "checkpoint screening"; "baggage screening" ]);
   ("technology specialist",
     [
      "technology"; "advanced technology"; "innovation"; "tech";
      "it specialist"; "systems analyst"; "network administrator";
      "database administrator"; "cloud computing"; "ai"; "machine learning";
      "computed tomography"; "ct scan"; "imaging technology" ]);
   ("internet professional",
     [
      "internet"; "internet marketing"; "digital marketing"; "digital";
      "seo"; "sem"; "search engine optimization"; "search engine marketing";
      "online marketing"; "web marketing"; "ecommerce"; "e-commerce";
      "social media marketing"; "content marketing"; "email marketing";
      "technicalseo"; "technical seo"; "digitaltransformation"; "digital transformation";
      "marketingautomation"; "marketing automation"; "crm" ]);
   ("drawings",
     [
      "drawings"; "sketch"; "blueprint"; "draft"; "illustration";
      "diagram" ]);
   ("design",
     [
      "design" ])
  ].

(** [g.rules], specific term -> group, is a [gmap string string]. *)

(** [initializeRules], visiting the categories in the order [defs]. *)
Definition initializeRules (defs : list (string * list string)) (rules : gmap string string) : gmap string string :=
  foldl (λ rules '(category, keywords),
           foldl (λ rules keyword, <[ToLower keyword := category]> rules)
                 rules keywords)
        rules defs.

Definition NewCategoryGrouper_in (defs : list (string * list string)) : gmap string string :=
  initializeRules defs ∅.

Definition NewCategoryGrouper : gmap string string := NewCategoryGrouper_in categoryDefinitions.

Definition min (a b c : Z) : Z :=
  if a <? b then (if a <? c then a else c)
  else if b <? c then b else c.

Definition abs (x : Z) : Z := if x <? 0 then - x else x.

(** The cost table [matrix], a slice of rows, is a [list (list Z)]. *)

Definition mget (matrix : list (list Z)) (i j : nat) : Z := (matrix !!! i) !!! j.

Definition mset (matrix : list (list Z)) (i j : nat) (v : Z) : list (list Z) :=
  alter (λ row, <[j := v]> row) i matrix.

(** The two initialisation loops of [levenshteinDistance]. *)
Definition initMatrix (m n : nat) : list (list Z) :=
  let matrix := (λ i : nat, <[0%nat := Z.of_nat i]> (replicate (n + 1) 0)) <$> seq 0 (m + 1) in
  foldl (λ matrix j, mset matrix 0 j (Z.of_nat j)) matrix (seq 0 (n + 1)).

(** One cell of the filling loop. *)
Definition fillCell (b1 b2 : list ascii) (i : nat) (matrix : list (list Z)) (j : nat) : list (list Z) :=
  let cost := if decide (byteAt b1 (i - 1) ≠ byteAt b2 (j - 1)) then 1 else 0 in
  mset matrix i j
    (min (mget matrix (i - 1) j + 1)
         (mget matrix i (j - 1) + 1)
         (mget matrix (i - 1) (j - 1) + cost)).

Definition fillMatrix (b1 b2 : list ascii) (matrix : list (list Z)) : list (list Z) :=
  foldl (λ matrix i, foldl (fillCell b1 b2 i) matrix (seq 1 (length b2)))
        matrix (seq 1 (length b1)).

(** [levenshteinDistance] *)
Definition levenshteinDistance (s1 s2 : string) : Z :=
  let b1 := bytes s1 in
  let b2 := bytes s2 in
  if len s1 =? 0 then len s2
  else if len s2 =? 0 then len s1
  else
    let matrix := fillMatrix b1 b2 (initMatrix (length b1) (length b2)) in
    mget matrix (length b1) (length b2).

(** Tier 2 of [GetGroup]: the first rule, in visiting order, whose key is
    a complete word of the category. *)
Definition partialMatch (it : list (string * string)) (cleaned : string) : option string :=
  snd <$> List.find (λ '(key, group), Contains (" " ++ cleaned ++ " ") (" " ++ key ++ " ")) it.

(** Tier 3 of [GetGroup]: the loop state is [(bestMatch, bestDistance)]. *)
Definition maxDistance : Z := 1.

Definition fuzzyStep (cleaned : string) (st : string * Z) (rule : string * string) : string * Z :=
  let '(bestMatch, bestDistance) := st in
  let '(key, group) := rule in
  if (abs (len cleaned - len key) <=? 1) && (5 <=? len cleaned) then
    let distance := levenshteinDistance cleaned key in
    if (distance <? bestDistance) && (distance <=? maxDistance)
    then (group, distance)
    else (bestMatch, bestDistance)
  else (bestMatch, bestDistance).

Definition fuzzyMatch (it : list (string * string)) (cleaned : string) : string * Z :=
  foldl (fuzzyStep cleaned) ("", 999) it.

(** [GetGroup], the second loop over [g.rules] visiting it in the order
    [it2] and the third in the order [it3]. *)
Definition GetGroup_in (it2 it3 : list (string * string)) (rules : gmap string string)
    (category : string) : string :=
  let cleaned := ToLower (TrimSpace category) in
  if isEmpty cleaned then ""
  else
    match rules !! cleaned with
    | Some group => group
    | None =>
        match partialMatch it2 cleaned with
        | Some group => group
        | None =>
            let bestMatch := fst (fuzzyMatch it3 cleaned) in
            if negb (isEmpty bestMatch) then bestMatch else ""
        end
    end.

(** [GetGroup] as the program runs it: each loop over the map visits its
    entries in some order. *)
Definition GetGroup (rules : gmap string string) (category result : string) : Prop :=
  ∃ it2 it3, it2 ≡ₚ map_to_list rules ∧ it3 ≡ₚ map_to_list rules ∧
             result = GetGroup_in it2 it3 rules category.

(** [AddRule] *)
Definition AddRule (rules : gmap string string) (term group : string) : gmap string string :=
  <[ToLower term := group]> rules.

(** The rule maps a grouper can hold: the one built at construction,
    then any number of [AddRule] calls, with terms that satisfy [P]. *)
Inductive reachable_with (P : string → Prop) : gmap string string → Prop :=
  | reach_new defs :
      defs ≡ₚ categoryDefinitions → reachable_with P (NewCategoryGrouper_in defs)
  | reach_add rules term group :
      reachable_with P rules → P term → reachable_with P (AddRule rules term group).

Definition reachable : gmap string string → Prop := reachable_with (λ _, True).

End CategoryGrouper.


(** ** The term normalizer *)

Module TermNormalizer.

Import CategoryGrouper.

(** [TrieNode]; a child that is absent is Go's [nil]. *)
Inductive TrieNode : Type := mkTrieNode {
  children : gmap Z TrieNode;
  isEnd : bool;
  canonicalTerm : string;
  frequency : Z
}.

(** [&TrieNode{children: make(map[rune]*TrieNode)}] *)
Definition newTrieNode : TrieNode := mkTrieNode ∅ false "" 0.

(** [TermNormalizer]; the mutex has no counterpart: the calls of this
    model run one after the other. *)
Record TermNormalizer : Type := mkTermNormalizer {
  root : TrieNode;
  canonicalTerms : gmap string string;
  termVariations : gmap string (list string);
  fuzzyMatchCache : gmap string string
}.

Definition NewTermNormalizer : TermNormalizer :=
  mkTermNormalizer newTrieNode ∅ ∅ ∅.

Definition absTwo (x : Z) : Z := if x <? 0 then - x else x.
Definition maxTwo (a b : Z) : Z := if b <? a then a else b.
Definition minTwo (a b : Z) : Z := if a <? b then a else b.

(** The walk of [insertIntoTrie] from [node] along the runes [rs]. *)
Fixpoint insertAt (rs : list Z) (canonical : string) (node : TrieNode) : TrieNode :=
  match rs with
  | [] => mkTrieNode (children node) true canonical (frequency node + 1)
  | ch :: rest =>
      let child := default newTrieNode (children node !! ch) in
      mkTrieNode (<[ch := insertAt rest canonical child]> (children node))
                 (isEnd node) (canonicalTerm node) (frequency node)
  end.

(** [insertIntoTrie] *)
Definition insertIntoTrie (term canonical : string) (tn : TermNormalizer) : TermNormalizer :=
  mkTermNormalizer (insertAt (runes term) canonical (root tn))
    (canonicalTerms tn) (termVariations tn) (fuzzyMatchCache tn).

(** The walk of [findLongestPrefixMatch]. *)
Fixpoint longestFrom (rs : list Z) (node : TrieNode) (lastValidMatch : string) : string :=
  match rs with
  | [] => lastValidMatch
  | ch :: rest =>
      match children node !! ch with
      | None => lastValidMatch
      | Some child =>
          longestFrom rest child
            (if isEnd child then canonicalTerm child else lastValidMatch)
      end
  end.

(** [findLongestPrefixMatch] *)
Definition findLongestPrefixMatch (tn : TermNormalizer) (term : string) : string :=
  longestFrom (runes term) (root tn) "".

(** The walk of [getFrequency]. *)
Fixpoint frequencyFrom (rs : list Z) (node : TrieNode) : Z :=
  match rs with
  | [] => if isEnd node then frequency node else 0
  | ch :: rest =>
      match children node !! ch with
      | None => 0
      | Some child => frequencyFrom rest child
      end
  end.

(** [getFrequency] *)
Definition getFrequency (tn : TermNormalizer) (term : string) : Z :=
  frequencyFrom (runes term) (root tn).

(** [longestCommonPrefix] *)
Definition longestCommonPrefix (s1 s2 : string) : string :=
  let b1 := bytes s1 in
  let b2 := bytes s2 in
  let minLen := if (length b2 <? length b1)%nat then length b2 else length b1 in
  match List.find (λ i, bool_decide (byteAt b1 i ≠ byteAt b2 i)) (seq 0 minLen) with
  | Some i => ofBytes (take i b1)
  | None => ofBytes (take minLen b1)
  end.

Definition Qlt_bool (x y : Q) : bool := negb (Qle_bool y x).

(** [isSimilarByPrefix] *)
Definition isSimilarByPrefix (term canonical : string) : bool :=
  if len term <? 5 then bool_decide (term = canonical)
  else
    let commonPrefix := longestCommonPrefix term canonical in
    let minLen := if len canonical <? len term then len canonical else len term in
    let threshold := (inject_Z minLen * (8 # 10))%Q in
    Qle_bool threshold (inject_Z (len commonPrefix)).

(** One cell of the table of [longestCommonSubsequence]. *)
Definition lcsCell (b1 b2 : list ascii) (i : nat) (dp : list (list Z)) (j : nat) : list (list Z) :=
  if decide (byteAt b1 (i - 1) = byteAt b2 (j - 1))
  then mset dp i j (mget dp (i - 1) (j - 1) + 1)
  else mset dp i j (maxTwo (mget dp (i - 1) j) (mget dp i (j - 1))).

(** [longestCommonSubsequence] *)
Definition longestCommonSubsequence (s1 s2 : string) : Z :=
  let b1 := bytes s1 in
  let b2 := bytes s2 in
  let m := length b1 in
  let n := length b2 in
  if ((m =? 0) || (n =? 0))%nat then 0
  else
    let dp : list (list Z) := replicate (m + 1) (replicate (n + 1) 0) in
    let dp := foldl (λ dp i, foldl (lcsCell b1 b2 i) dp (seq 1 n)) dp (seq 1 m) in
    mget dp m n.

(** [calculateTokenOverlap]; [set1] is a [map[string]bool], where a
    missing key reads as [false]. *)
Definition calculateTokenOverlap (tokens1 tokens2 : list string) : Q :=
  if (length tokens1 =? 0)%nat && (length tokens2 =? 0)%nat then 1%Q
  else if (length tokens1 =? 0)%nat || (length tokens2 =? 0)%nat then 0%Q
  else
    let set1 : gmap string bool := foldl (λ set1 t, <[t := true]> set1) ∅ tokens1 in
    let overlap := foldl (λ overlap t, if default false (set1 !! t) then overlap + 1 else overlap)
                         0 tokens2 in
    let maxSize := maxTwo (Z.of_nat (length tokens1)) (Z.of_nat (length tokens2)) in
    (inject_Z overlap / inject_Z maxSize)%Q.

(** [calculateSimilarity] *)
Definition calculateSimilarity (s1 s2 : string) : Q :=
  let lenDiff := absTwo (len s1 - len s2) in
  let maxLen := maxTwo (len s1) (len s2) in
  if maxLen =? 0 then 0%Q
  else
    let lengthPenalty :=
      if Qlt_bool (2 # 10) (inject_Z lenDiff / inject_Z maxLen) then (8 # 10)%Q else 1%Q in
    let lcs := longestCommonSubsequence s1 s2 in
    let lcsRatio := (inject_Z lcs / inject_Z maxLen)%Q in
    let distance := levenshteinDistance s1 s2 in
    let levRatio := (1 - inject_Z distance / inject_Z maxLen)%Q in
    let tokens1 := Fields s1 in
    let tokens2 := Fields s2 in
    let tokenOverlap := calculateTokenOverlap tokens1 tokens2 in
    let prefix := longestCommonPrefix s1 s2 in
    let prefixBonus :=
      if (5 <=? len prefix) && Qlt_bool (6 # 10) (inject_Z (len prefix) / inject_Z maxLen)
      then (1 # 10)%Q else 0%Q in
    let similarity :=
      (lcsRatio * (25 # 100) + levRatio * (5 # 10) + tokenOverlap * (25 # 100) + prefixBonus)%Q in
    (similarity * lengthPenalty)%Q.

Definition minSimilarity : Q := 80 # 100.

(** One turn of the loop of [findBestFuzzyMatch]; the loop state is
    [(bestMatch, bestScore)]. *)
Definition fuzzyScan (term : string) (st : string * Q) (entry : string * string) : string * Q :=
  let '(bestMatch, bestScore) := st in
  let '(key, canonical) := entry in
  if negb (bool_decide (key = canonical)) then (bestMatch, bestScore)
  else
    let score := calculateSimilarity term canonical in
    if Qlt_bool bestScore score && Qle_bool minSimilarity score
    then (canonical, score)
    else (bestMatch, bestScore).

(** [findBestFuzzyMatch], visiting [tn.canonicalTerms] in the order [it]. *)
Definition findBestFuzzyMatch_in (it : list (string * string)) (term : string) : string :=
  fst (foldl (fuzzyScan term) ("", 0%Q) it).

(** [registerCanonicalTerm] *)
Definition registerCanonicalTerm (term : string) (tn : TermNormalizer) : TermNormalizer :=
  insertIntoTrie term term
    (mkTermNormalizer (root tn) (<[term := term]> (canonicalTerms tn))
       (<[term := [term]]> (termVariations tn)) (fuzzyMatchCache tn)).

(** The three assignments of an accepted prefix match. *)
Definition recordMatch (cleaned canonical : string) (tn : TermNormalizer) : TermNormalizer :=
  insertIntoTrie cleaned canonical
    (mkTermNormalizer (root tn) (<[cleaned := canonical]> (canonicalTerms tn))
       (termVariations tn) (<[cleaned := canonical]> (fuzzyMatchCache tn))).

(** [tn.termVariations[bestMatch] = append(tn.termVariations[bestMatch], cleaned)] *)
Definition addVariation (bestMatch cleaned : string) (tn : TermNormalizer) : TermNormalizer :=
  mkTermNormalizer (root tn) (canonicalTerms tn)
    (<[bestMatch := (default [] (termVariations tn !! bestMatch) ++ [cleaned])%list]>
       (termVariations tn))
    (fuzzyMatchCache tn).

(** [NormalizeTerm], the loop of [findBestFuzzyMatch] visiting the map in
    the order [it]; the result is the returned string and the normalizer
    after the call. *)
Definition NormalizeTerm_in (it : list (string * string)) (term : string)
    (tn : TermNormalizer) : string * TermNormalizer :=
  let cleaned := ToLower (TrimSpace term) in
  if isEmpty cleaned then (term, tn)
  else
    match fuzzyMatchCache tn !! cleaned with
    | Some canonical => (canonical, insertIntoTrie cleaned canonical tn)
    | None =>
        match canonicalTerms tn !! cleaned with
        | Some canonical => (canonical, insertIntoTrie cleaned canonical tn)
        | None =>
            match fuzzyMatchCache tn !! cleaned with
            | Some canonical => (canonical, insertIntoTrie cleaned canonical tn)
            | None =>
                let prefixMatch := findLongestPrefixMatch tn cleaned in
                if negb (isEmpty prefixMatch) && isSimilarByPrefix cleaned prefixMatch
                then (prefixMatch, recordMatch cleaned prefixMatch tn)
                else
                  let bestMatch := findBestFuzzyMatch_in it cleaned in
                  if negb (isEmpty bestMatch)
                  then (bestMatch, addVariation bestMatch cleaned (recordMatch cleaned bestMatch tn))
                  else (cleaned, registerCanonicalTerm cleaned tn)
            end
        end
    end.

(** [NormalizeTerm] as the program runs it. *)
Definition NormalizeTerm (term : string) (tn : TermNormalizer)
    (result : string) (tn' : TermNormalizer) : Prop :=
  ∃ it, it ≡ₚ map_to_list (canonicalTerms tn) ∧ NormalizeTerm_in it term tn = (result, tn').

(** [GetCanonicalTerms]: the keys of [tn.canonicalTerms], collected in
    some order and sorted by [sort.Slice], which is not stable, with
    [freq_i > freq_j] as the order: any arrangement of the keys in which
    no later term is more frequent than an earlier one can be returned. *)
Definition byFrequency (tn : TermNormalizer) (t1 t2 : string) : Prop :=
  getFrequency tn t2 ≤ getFrequency tn t1.

Definition GetCanonicalTerms (tn : TermNormalizer) (result : list string) : Prop :=
  result ≡ₚ (map_to_list (canonicalTerms tn)).*1 ∧ StronglySorted (byFrequency tn) result.

#[global] Instance byFrequency_dec (tn : TermNormalizer) : RelDecision (byFrequency tn).
Proof. intros t1 t2. unfold byFrequency. apply _. Defined.

(** One run of [GetCanonicalTerms]: the keys collected in the order [it]
    and sorted by a merge sort. *)
Definition GetCanonicalTerms_in (it : list (string * string)) (tn : TermNormalizer)
    : list string :=
  merge_sort (byFrequency tn) it.*1.

(** One turn of the inner loop of [MergeSimilarTerms]; the loop state is
    [(merged, tn.canonicalTerms)]. *)
Definition mergePair (tn : TermNormalizer) (canonicals : list string) (i : nat)
    (st : gmap string string * gmap string string) (j : nat)
    : gmap string string * gmap string string :=
  let '(merged, cts) := st in
  let term1 := canonicals !!! i in
  let term2 := canonicals !!! j in
  if bool_decide (is_Some (merged !! term1)) then (merged, cts)
  else if bool_decide (is_Some (merged !! term2)) then (merged, cts)
  else
    let similarity := calculateSimilarity term1 term2 in
    if Qle_bool (85 # 100) similarity then
      let freq1 := getFrequency tn term1 in
      let freq2 := getFrequency tn term2 in
      let '(keep, merge) :=
        if (freq2 <? freq1) || ((freq1 =? freq2) && (len term2 <=? len term1))
        then (term1, term2) else (term2, term1) in
      (<[merge := keep]> merged, <[merge := keep]> cts)
    else (merged, cts).

Definition mergeLoop (tn : TermNormalizer) (canonicals : list string)
    (st : gmap string string * gmap string string)
    : gmap string string * gmap string string :=
  let n := length canonicals in
  foldl (λ st i, foldl (mergePair tn canonicals i) st (seq (i + 1) (n - (i + 1))))
        st (seq 0 n).

(** [MergeSimilarTerms], [canonicals] being what its call of
    [GetCanonicalTerms] returned. *)
Definition MergeSimilarTerms_in (canonicals : list string) (tn : TermNormalizer)
    : TermNormalizer :=
  mkTermNormalizer (root tn)
    (snd (mergeLoop tn canonicals (∅, canonicalTerms tn)))
    (termVariations tn) (fuzzyMatchCache tn).

(** [MergeSimilarTerms] as the program runs it. *)
Definition MergeSimilarTerms (tn tn' : TermNormalizer) : Prop :=
  ∃ canonicals, GetCanonicalTerms tn canonicals ∧ tn' = MergeSimilarTerms_in canonicals tn.

(** The normalizers a program can hold: a new one, then any number of
    [NormalizeTerm] and [MergeSimilarTerms] calls. *)
Inductive reachable : TermNormalizer → Prop :=
  | reach_new : reachable NewTermNormalizer
  | reach_normalize tn term result tn' :
      reachable tn → NormalizeTerm term tn result tn' → reachable tn'
  | reach_merge tn tn' :
      reachable tn → MergeSimilarTerms tn tn' → reachable tn'.

(** The normalizers reached by [NormalizeTerm] calls alone. *)
Inductive reachable_by_normalize : TermNormalizer → Prop :=
  | reachN_new : reachable_by_normalize NewTermNormalizer
  | reachN_normalize tn term result tn' :
      reachable_by_normalize tn → NormalizeTerm term tn result tn' →
      reachable_by_normalize tn'.


(** [t] is canonical: [CanonicalTerms[t] == t]. *)
Definition isCanonical (cts : gmap string string) (t : string) : Prop :=
  cts !! t = Some t.

(** The number of canonical terms. *)
Definition canonicalCount (cts : gmap string string) : nat :=
  size (filter (λ kv, kv.1 = kv.2) cts).

End TermNormalizer.


(** ** Invariants of the cost table of [levenshteinDistance] *)

Module LevTable.
Import CategoryGrouper.

(** A table of [m+1] rows of [n+1] cells. *)
Definition shape (m n : nat) (matrix : list (list Z)) : Prop :=
  length matrix = (m + 1)%nat ∧ Forall (λ row, length row = (n + 1)%nat) matrix.

(** The cells filled so far with the values [D], when the filling loop
    is at row [i] and has done the columns below [k]. *)
Definition filled (D : nat → nat → Z) (m n i k : nat) (matrix : list (list Z)) : Prop :=
  shape m n matrix ∧
  ∀ i' j', (i' ≤ m)%nat → (j' ≤ n)%nat →
    (i' < i ∨ (i' = i ∧ j' < k) ∨ i' = 0 ∨ j' = 0)%nat →
    mget matrix i' j' = D i' j'.

(** The distance between the first [i] bytes of [b1] and the first [j]
    bytes of [b2]. *)
Definition levD (b1 b2 : list ascii) (i j : nat) : Z :=
  Z.of_nat (lev_rec (rev (take i b1)) (rev (take j b2))).

End LevTable.


(** ** Specification vocabulary for the grouper *)

Module GrouperSpec.
Import CategoryGrouper.

(** Lowercase, and trimmed of surrounding white space. *)
Definition isLower (k : string) : Prop := ToLower k = k.
Definition isTrimmed (k : string) : Prop := TrimSpace k = k.

(** The rules of a table as a list of (key, category) pairs, in the
    order [initializeRules] assigns them. *)
Definition flatRules (defs : list (string * list string)) : list (string * string) :=
  defs ≫= (λ '(category, keywords), (λ keyword, (ToLower keyword, category)) <$> keywords).

Definition insertRule (rules : gmap string string) (kv : string * string) : gmap string string :=
  <[kv.1 := kv.2]> rules.

(** No key of the list has two values. *)
Definition functional (l : list (string * string)) : Prop :=
  ∀ k v v', (k, v) ∈ l → (k, v') ∈ l → v = v'.

Definition functionalb (l : list (string * string)) : bool :=
  forallb (λ '(k, v), forallb (λ '(k', v'),
    implb (bool_decide (k = k')) (bool_decide (v = v'))) l) l.

(** The rule the exact tier gives for every keyword of a table. *)
Definition exactTierOK (rules : gmap string string) (defs : list (string * list string)) : bool :=
  forallb (λ '(category, keywords),
    forallb (λ keyword,
      negb (isEmpty (ToLower (TrimSpace keyword))) &&
      bool_decide (rules !! ToLower (TrimSpace keyword) = Some category)) keywords) defs.


(** The key is a complete word of the category: tier 2's test. *)
Definition wholeWordb (cleaned key : string) : bool :=
  Contains (" " ++ cleaned ++ " ") (" " ++ key ++ " ").

(** [sub] occurs in [s]. *)
Definition occursIn (sub s : list ascii) : Prop := ∃ l r, s = (l ++ sub ++ r)%list.

(** [strings.Split(s, " ")]: the pieces between single spaces. *)
Fixpoint splitSpace (b : list ascii) : list (list ascii) :=
  match b with
  | [] => [[]]
  | c :: b' =>
      if decide (c = " "%char) then [] :: splitSpace b'
      else match splitSpace b' with
           | [] => [[c]]
           | w :: ws => (c :: w) :: ws
           end
  end.

(** The key is a candidate of tier 3. *)
Definition eligible (cleaned key : string) : bool :=
  (abs (len cleaned - len key) <=? 1) && (5 <=? len cleaned).

(** What tier 3 holds after the rules [seen]: nothing, every candidate
    seen being further than [maxDistance]; or the category of a nearest
    candidate, at distance [d]. *)
Definition fuzzyInv (cleaned : string) (seen : list (string * string)) (st : string * Z) : Prop :=
  (st = ("", 999) ∧
   ∀ key group, (key, group) ∈ seen → eligible cleaned key = true →
                maxDistance < levenshteinDistance cleaned key)
  ∨
  (∃ key, (key, st.1) ∈ seen ∧ eligible cleaned key = true ∧
          levenshteinDistance cleaned key = st.2 ∧ 0 ≤ st.2 ≤ maxDistance ∧
          ∀ key' group', (key', group') ∈ seen → eligible cleaned key' = true →
                         st.2 ≤ levenshteinDistance cleaned key').

(** Every rule tier 2 can match has the category [group]; at least one
    matches. *)
Definition partialAll (rules : list (string * string)) (cleaned group : string) : bool :=
  forallb (λ '(key, g), implb (wholeWordb cleaned key) (bool_decide (g = group))) rules &&
  existsb (λ '(key, g), wholeWordb cleaned key) rules.

Definition partialNone (rules : list (string * string)) (cleaned : string) : bool :=
  forallb (λ '(key, g), negb (wholeWordb cleaned key)) rules.

(** Every candidate of tier 3 within [maxDistance] has the category
    [group]; at least one is. *)
Definition nearb (cleaned key : string) : bool :=
  eligible cleaned key && (levenshteinDistance cleaned key <=? maxDistance).

Definition fuzzyAll (rules : list (string * string)) (cleaned group : string) : bool :=
  forallb (λ '(key, g), implb (nearb cleaned key) (bool_decide (g = group))) rules &&
  existsb (λ '(key, g), nearb cleaned key) rules.

Definition fuzzyNone (rules : list (string * string)) (cleaned : string) : bool :=
  forallb (λ '(key, g), negb (nearb cleaned key)) rules.

End GrouperSpec.


(** ** Specification vocabulary for the normalizer *)

Module NormalizerSpec.
Import CategoryGrouper GrouperSpec TermNormalizer.

(** The node reached from [node] along the runes [rs]. *)
Fixpoint walk (rs : list Z) (node : TrieNode) : option TrieNode :=
  match rs with
  | [] => Some node
  | ch :: rest =>
      match children node !! ch with
      | None => None
      | Some child => walk rest child
      end
  end.

(** The label of every terminal node below [node] satisfies [P]. *)
Definition labelsOK (P : string → Prop) (node : TrieNode) : Prop :=
  ∀ rs n, walk rs node = Some n → isEnd n = true → P (canonicalTerm n).

(** Every key of [CanonicalTerms] and of the cache is lowercase, trimmed
    and not empty. *)
Definition cleanKey (k : string) : Prop := isLower k ∧ isTrimmed k ∧ k ≠ "".

Definition keysClean (tn : TermNormalizer) : Prop :=
  ∀ k, is_Some (canonicalTerms tn !! k) ∨ is_Some (fuzzyMatchCache tn !! k) → cleanKey k.

(** The invariant of a normalizer on which only [NormalizeTerm] ran:
    every value of [CanonicalTerms] is canonical, the cache agrees with
    [CanonicalTerms], the keys are clean and the labels of the trie are
    canonical. *)
Definition NormInv (tn : TermNormalizer) : Prop :=
  (∀ k v, canonicalTerms tn !! k = Some v → isCanonical (canonicalTerms tn) v) ∧
  (∀ k v, fuzzyMatchCache tn !! k = Some v → canonicalTerms tn !! k = Some v) ∧
  keysClean tn ∧
  labelsOK (isCanonical (canonicalTerms tn)) (root tn).

(** A step of the merge loop only assigns to [CanonicalTerms], and what
    it assigns does not depend on [CanonicalTerms]: from the state
    [merged] it goes to some [merged'] and performs the assignments [A],
    each of which satisfies [P]. *)
Definition assigns (P : string * string → Prop)
    (f : gmap string string * gmap string string → gmap string string * gmap string string)
    : Prop :=
  ∀ merged, ∃ merged' A, Forall P A ∧
    ∀ cts, f (merged, cts) = (merged', foldl insertRule cts A).

(** An assignment [CanonicalTerms[merge] = keep] of the merge loop:
    [merge] is one of the enumerated terms, and [keep] another one. *)
Definition mergeAssignment (canonicals : list string) (kv : string * string) : Prop :=
  kv.1 ≠ kv.2 ∧ kv.1 ∈ canonicals.

End NormalizerSpec.


(** ** Example runs *)

Module Examples.
Import CategoryGrouper TermNormalizer.

(** [NormalizeTerm(term)], the map loop running in the order of
    [map_to_list]; the normalizer after the call. *)
Definition after (term : string) (tn : TermNormalizer) : TermNormalizer :=
  snd (NormalizeTerm_in (map_to_list (canonicalTerms tn)) term tn).

Definition returned (term : string) (tn : TermNormalizer) : string :=
  fst (NormalizeTerm_in (map_to_list (canonicalTerms tn)) term tn).

(** Two terms of the same length seen once each, the second a variant
    of the first. *)
Definition tnXY : TermNormalizer :=
  after "data scientist y" (after "data scientist x" NewTermNormalizer).

(** A canonical term and an alias of it. *)
Definition tnAlias : TermNormalizer :=
  after "data scientists" (after "data scientist" NewTermNormalizer).

(** Two canonical terms, the first seen twice, then a merge. *)
Definition tnTwo : TermNormalizer :=
  after "abcde abcde" (after "abcde abfgh" (after "abcde abfgh" NewTermNormalizer)).

Definition tnMerged : TermNormalizer :=
  MergeSimilarTerms_in ["abcde abfgh"; "abcde abcde"] tnTwo.

(** [MergeSimilarTerms()], working on the enumeration that sorting the
    order of [map_to_list] gives. *)
Definition merged (tn : TermNormalizer) : TermNormalizer :=
  MergeSimilarTerms_in (GetCanonicalTerms_in (map_to_list (canonicalTerms tn)) tn) tn.

End Examples.


(** ** The similarity score as the specification words it *)

Module SimilaritySpec.
Import CategoryGrouper TermNormalizer.

(** The length of a longest common subsequence. *)
Fixpoint lcs_rec (a b : list ascii) : nat :=
  match a with
  | [] => 0%nat
  | x :: a' =>
      (fix inner (b : list ascii) : nat :=
         match b with
         | [] => 0%nat
         | y :: b' =>
             if decide (x = y) then S (lcs_rec a' b')
             else Nat.max (lcs_rec a' b) (inner b')
         end) b
  end.

(** The longest common prefix. *)
Fixpoint commonPrefix (a b : list ascii) : list ascii :=
  match a, b with
  | x :: a', y :: b' => if decide (x = y) then x :: commonPrefix a' b' else []
  | _, _ => []
  end.

(** The set of the whitespace-delimited tokens of a string. *)
Definition tokenSet (s : string) : gset string := list_to_set (Fields s).

(** Token overlap: the size of the intersection of the token sets over
    the larger token-set size; 1 if both sets are empty, 0 if exactly one
    is. *)
Definition tokenOverlap_spec (a b : string) : Q :=
  let A := tokenSet a in
  let B := tokenSet b in
  if decide (size A = 0%nat ∧ size B = 0%nat) then 1%Q
  else if decide (size A = 0%nat ∨ size B = 0%nat) then 0%Q
  else (inject_Z (Z.of_nat (size (A ∩ B))) /
        inject_Z (Z.of_nat (Nat.max (size A) (size B))))%Q.

Definition maxLen_spec (a b : string) : Z :=
  Z.of_nat (Nat.max (length (bytes a)) (length (bytes b))).

Definition lcsRatio_spec (a b : string) : Q :=
  (inject_Z (Z.of_nat (lcs_rec (bytes a) (bytes b))) / inject_Z (maxLen_spec a b))%Q.

Definition levRatio_spec (a b : string) : Q :=
  (1 - inject_Z (Z.of_nat (lev_rec (bytes a) (bytes b))) / inject_Z (maxLen_spec a b))%Q.

Definition prefixBonus_spec (a b : string) : Q :=
  let p := Z.of_nat (length (commonPrefix (bytes a) (bytes b))) in
  if (5 <=? p) && Qlt_bool (6 # 10) (inject_Z p / inject_Z (maxLen_spec a b))
  then (1 # 10)%Q else 0%Q.

Definition lengthPenalty_spec (a b : string) : Q :=
  if Qlt_bool (2 # 10) (inject_Z (Z.abs (len a - len b)) / inject_Z (maxLen_spec a b))
  then (8 # 10)%Q else 1%Q.

(** [n] is the length of a longest common subsequence of [a] and [b]. *)
Definition is_lcs (n : nat) (a b : list ascii) : Prop :=
  (∃ s, s `sublist_of` a ∧ s `sublist_of` b ∧ length s = n) ∧
  ∀ s, s `sublist_of` a → s `sublist_of` b → (length s ≤ n)%nat.

(** The table of [longestCommonSubsequence]: the value for the first [i]
    bytes of [b1] and the first [j] bytes of [b2]. *)
Definition lcsD (b1 b2 : list ascii) (i j : nat) : Z :=
  Z.of_nat (lcs_rec (rev (take i b1)) (rev (take j b2))).

Definition similarity_spec (a b : string) : Q :=
  (((25 # 100) * lcsRatio_spec a b + (5 # 10) * levRatio_spec a b
    + (25 # 100) * tokenOverlap_spec a b + prefixBonus_spec a b)
   * lengthPenalty_spec a b)%Q.

End SimilaritySpec.


(** ** Further vocabulary: the trie and the runs of a normalizer *)

Module StoreSpec.
Import CategoryGrouper GrouperSpec TermNormalizer NormalizerSpec.

(** The path [rs] ends on a terminal node. *)
Definition terminalAt (rs : list Z) (node : TrieNode) : Prop :=
  ∃ n, walk rs node = Some n ∧ isEnd n = true.

(** A trie as [insertIntoTrie] builds it: a node that is not terminal
    has frequency 0, a terminal node has a frequency of at least 1. *)
Definition wfTrie (node : TrieNode) : Prop :=
  ∀ rs n, walk rs node = Some n →
    (isEnd n = false → frequency n = 0) ∧ (isEnd n = true → 1 ≤ frequency n).

(** One call of [NormalizeTerm] or of [MergeSimilarTerms]. *)
Definition step (tn tn' : TermNormalizer) : Prop :=
  (∃ term result, NormalizeTerm term tn result tn') ∨ MergeSimilarTerms tn tn'.

(** One call of [NormalizeTerm]. *)
Definition normalizeStep (tn tn' : TermNormalizer) : Prop :=
  ∃ term result, NormalizeTerm term tn result tn'.

(** An assignment of the merge loop: both terms are enumerated. *)
Definition mergeAssignment2 (canonicals : list string) (kv : string * string) : Prop :=
  kv.1 ≠ kv.2 ∧ kv.1 ∈ canonicals ∧ kv.2 ∈ canonicals.

(** What every reachable normalizer satisfies: the keys are clean; the
    values of [CanonicalTerms], the values of the cache and the labels
    of the trie are keys of [CanonicalTerms]; the trie is well formed
    and holds every key of [CanonicalTerms] as a terminal path. *)
Definition StoreInv (tn : TermNormalizer) : Prop :=
  keysClean tn ∧
  (∀ k v, canonicalTerms tn !! k = Some v → is_Some (canonicalTerms tn !! v)) ∧
  (∀ k v, fuzzyMatchCache tn !! k = Some v → is_Some (canonicalTerms tn !! v)) ∧
  labelsOK (λ v, is_Some (canonicalTerms tn !! v)) (root tn) ∧
  wfTrie (root tn) ∧
  (∀ k, is_Some (canonicalTerms tn !! k) → terminalAt (runes k) (root tn)).

(** What a normalizer on which only [NormalizeTerm] ran satisfies about
    its variation lists: every canonical term has a list; a list is
    filed under a canonical term, starts with it, repeats no term, and
    every term in it resolves to that canonical term. *)
Definition variationsOK (tn : TermNormalizer) : Prop :=
  (∀ c, isCanonical (canonicalTerms tn) c → is_Some (termVariations tn !! c)) ∧
  ∀ c vs, termVariations tn !! c = Some vs →
    isCanonical (canonicalTerms tn) c ∧ head vs = Some c ∧ NoDup vs ∧
    ∀ v, v ∈ vs → canonicalTerms tn !! v = Some c.

End StoreSpec.


(** ** The data cleaner and the grouping of records

    [CleanText] keeps only runes below 0x80, so every string it handles
    after the filter is ASCII text, on which [TrimSpace], [Fields],
    [ToLower] and [ToUpper] are Go's.  The first [TrimSpace] runs on the
    raw input: what Go trims there beyond ASCII white space the filter
    drops, or leaves as blanks that the second [TrimSpace] removes. *)

Module DataCleaner.

(** The runes [CleanText] keeps: [a-z], [A-Z], [0-9], space, hyphen,
    apostrophe, period, ampersand. *)
Definition keep (ch : Z) : bool :=
  ((97 <=? ch) && (ch <=? 122)) || ((65 <=? ch) && (ch <=? 90)) ||
  ((48 <=? ch) && (ch <=? 57)) ||
  (ch =? 32) || (ch =? 45) || (ch =? 39) || (ch =? 46) || (ch =? 38).

(** [builder.WriteRune(ch)] for a rune below 0x80: one byte. *)
Definition runeByte (ch : Z) : ascii := ascii_of_N (Z.to_N ch).

(** The loop of [CleanText] over the runes of [text]. *)
Definition keepRunes (text : string) : string :=
  ofBytes (runeByte <$> List.filter keep (runes text)).

(** The class [\s] of Go's [regexp]: tab, line feed, form feed, carriage
    return, space. *)
Definition isReSpace (c : ascii) : bool :=
  let v := byte_val c in
  (v =? 9) || (v =? 10) || (v =? 12) || (v =? 13) || (v =? 32).

(** [multiSpaceRegex.ReplaceAllString(text, " ")]: every maximal run of
    [\s] bytes becomes one space; [inRun] says that the byte before was
    in a run. *)
Fixpoint replaceRuns (inRun : bool) (b : list ascii) : list ascii :=
  match b with
  | [] => []
  | c :: b' =>
      if isReSpace c
      then if inRun then replaceRuns true b' else " "%char :: replaceRuns true b'
      else c :: replaceRuns false b'
  end.

Definition ReplaceAllSpaces (text : string) : string :=
  ofBytes (replaceRuns false (bytes text)).

Definition toUpperByte (c : ascii) : ascii :=
  let v := byte_val c in
  if (97 <=? v) && (v <=? 122) then ascii_of_N (Z.to_N (v - 32)) else c.

(** [strings.ToUpper] *)
Definition ToUpper (s : string) : string := ofBytes (toUpperByte <$> bytes s).

(** [strings.Join] *)
Fixpoint Join (elems : list string) (sep : string) : string :=
  match elems with
  | [] => ""
  | [w] => w
  | w :: rest => w ++ sep ++ Join rest sep
  end.

(** The body of the loop of [toTitleCase]. *)
Definition titleWord (word : string) : string :=
  match bytes word with
  | [] => word
  | c :: rest => ToUpper (ofBytes [c]) ++ ToLower (ofBytes rest)
  end.

(** [toTitleCase] *)
Definition toTitleCase (s : string) : string := Join (titleWord <$> Fields s) " ".

(** [CleanText] *)
Definition CleanText (text : string) : string :=
  let text := TrimSpace text in
  let text := keepRunes text in
  let text := ReplaceAllSpaces text in
  let text := TrimSpace text in
  toTitleCase text.

End DataCleaner.

Module CSVProcessor.

(** [models.Record], without the time stamp [CreatedAt], which the
    services below never read. *)
Record Record := mkRecord {
  ID : Z;
  CSVFileID : Z;
  OriginalData : gmap string string;
  CleanedData : gmap string string;
  GroupedCategory : string
}.

(** [buildGroups]: the groups built from [p.records]. *)
Definition buildGroups (records : list Record) : gmap string (list Z) :=
  foldl (λ groups record,
           if negb (isEmpty (GroupedCategory record))
           then <[GroupedCategory record :=
                    (default [] (groups !! GroupedCategory record) ++ [ID record])%list]> groups
           else groups)
        ∅ records.

(** The keywords of [detectCategoryColumn]. *)
Definition categoryFields : list string :=
  ["category"; "type"; "specialty"; "profession"; "occupation";
   "role"; "title"; "job"; "position"; "designation";
   "department"; "field"; "industry"; "sector"; "work"].

(** [detectCategoryColumn]: the first header that equals a keyword in
    lower case; if there is none, the first that contains one; if there
    is none, the empty string. *)
Definition detectCategoryColumn (headers : list string) : string :=
  match List.find (λ header,
          existsb (λ keyword, bool_decide (ToLower header = keyword)) categoryFields)
          headers with
  | Some header => header
  | None =>
      match List.find (λ header,
              existsb (λ keyword, Contains (ToLower header) keyword) categoryFields)
              headers with
      | Some header => header
      | None => ""
      end
  end.

End CSVProcessor.

(** ** The shape of cleaned text *)

Module CleanerSpec.
Import DataCleaner.

(** A byte [CleanText] keeps that is not a blank. *)
Definition wordByte (c : ascii) : bool := keep (byte_val c) && negb (isSpace c).

(** A word in title case: it is not empty, its bytes are kept bytes
    other than blanks, the first is not a lowercase letter and the
    others are not uppercase letters. *)
Definition titleShaped (w : string) : Prop :=
  ∃ c rest, bytes w = (c :: rest)%list ∧
    wordByte c = true ∧ toUpperByte c = c ∧
    Forall (λ d, wordByte d = true ∧ toLowerByte d = d) rest.

End CleanerSpec.

(** ** Category columns *)

Module ColumnSpec.
Import CSVProcessor.

(** The header is a keyword, up to case; the header contains one. *)
Definition isKeyword (header : string) : Prop := ToLower header ∈ categoryFields.

Definition hasKeyword (header : string) : Prop :=
  ∃ keyword, keyword ∈ categoryFields ∧ Contains (ToLower header) keyword = true.

End ColumnSpec.

(* ================================================================== *)

Local Open Scope list_scope.

(** * Proofs *)

(** ** Loops over a range of indices *)

Lemma foldl_seq_inv {S : Type} (P : nat → S → Prop) (f : S → nat → S)
    (start n : nat) (s : S) :
  P start s →
  (∀ k s, (start ≤ k < start + n)%nat → P k s → P (Datatypes.S k) (f s k)) →
  P (start + n)%nat (foldl f s (seq start n)).
Proof.
  revert start s. induction n as [|n IH]; intros start s H0 Hstep; simpl.
  - by rewrite Nat.add_0_r.
  - replace (start + Datatypes.S n)%nat with (Datatypes.S start + n)%nat by lia.
    apply IH.
    + apply Hstep; [lia | done].
    + intros k s' Hk. apply Hstep. lia.
Qed.

(** ** The recursion [lev_rec] computes the least number of edits *)

Section LevRec.
Context {A : Type} `{EqDecision A}.
Implicit Types a b l r : list A.

Lemma lev_rec_nil_r a : lev_rec a [] = length a.
Proof. by destruct a. Qed.

Lemma lev_rec_cons x a y b :
  lev_rec (x :: a) (y :: b) =
  Nat.min (lev_rec a (y :: b) + 1)
    (Nat.min (lev_rec (x :: a) b + 1) (lev_rec a b + cost x y)).
Proof. reflexivity. Qed.

Lemma cost_le_1 (x y : A) : (cost x y ≤ 1)%nat.
Proof. unfold cost. case_decide; lia. Qed.

Lemma cost_sym (x y : A) : cost x y = cost y x.
Proof. unfold cost. repeat case_decide; congruence. Qed.

Lemma lev_rec_sym a b : lev_rec a b = lev_rec b a.
Proof.
  revert b. induction a as [|x a IHa]; intros b.
  - by rewrite lev_rec_nil_r.
  - induction b as [|y b IHb]; [done|].
    rewrite !lev_rec_cons, IHb, (IHa (y :: b)), (IHa b), (cost_sym x y). lia.
Qed.

Lemma lev_rec_refl a : lev_rec a a = 0%nat.
Proof.
  induction a as [|x a IH]; [done|].
  rewrite lev_rec_cons, IH. unfold cost. rewrite decide_True by done. lia.
Qed.

Lemma lev_rec_insert_r a c r : (lev_rec a (c :: r) ≤ lev_rec a r + 1)%nat.
Proof.
  destruct a as [|x a]; [simpl; lia|].
  rewrite lev_rec_cons. lia.
Qed.

Lemma lev_rec_insert_l c a r : (lev_rec (c :: a) r ≤ lev_rec a r + 1)%nat.
Proof. rewrite (lev_rec_sym (c :: a)), (lev_rec_sym a). apply lev_rec_insert_r. Qed.

Lemma lev_rec_delete_r a c r : (lev_rec a r ≤ lev_rec a (c :: r) + 1)%nat.
Proof.
  induction a as [|x a IH]; [simpl; lia|].
  rewrite lev_rec_cons.
  pose proof (lev_rec_insert_l x a r). lia.
Qed.

Lemma lev_rec_subst_r a c c' r : (lev_rec a (c' :: r) ≤ lev_rec a (c :: r) + 1)%nat.
Proof.
  induction a as [|x a IH]; [simpl; lia|].
  rewrite !lev_rec_cons.
  pose proof (cost_le_1 x c'). lia.
Qed.

Lemma lev_rec_context l r r' :
  (∀ a, (lev_rec a r' ≤ lev_rec a r + 1)%nat) →
  ∀ a, (lev_rec a (l ++ r') ≤ lev_rec a (l ++ r) + 1)%nat.
Proof.
  intros Hr. induction l as [|y l IHl]; [done|].
  intros a. induction a as [|x a IHa].
  - simpl. rewrite !length_app. specialize (Hr []). simpl in Hr. lia.
  - rewrite <- !app_comm_cons, !lev_rec_cons.
    specialize (IHl (x :: a)) as H1. specialize (IHl a) as H2.
    rewrite <- !app_comm_cons in IHa. lia.
Qed.

Lemma edit_lev_rec b c :
  edit b c → ∀ a, (lev_rec a c ≤ lev_rec a b + 1)%nat.
Proof.
  intros [l x r|l x r|l x x' r]; apply lev_rec_context; intros a.
  - apply lev_rec_insert_r.
  - apply lev_rec_delete_r.
  - apply lev_rec_subst_r.
Qed.

Lemma edits_lev_rec n a b : edits n a b → (lev_rec a b ≤ n)%nat.
Proof.
  induction 1 as [a|n a b c _ IH He].
  - by rewrite lev_rec_refl.
  - pose proof (edit_lev_rec _ _ He a). lia.
Qed.

Lemma edit_cons x a b : edit a b → edit (x :: a) (x :: b).
Proof.
  intros [l c r|l c r|l c c' r]; rewrite !app_comm_cons; constructor.
Qed.

Lemma edits_cons x n a b : edits n a b → edits n (x :: a) (x :: b).
Proof.
  induction 1 as [a|n a b c _ IH He]; [constructor|].
  eapply edits_S; [exact IH | by apply edit_cons].
Qed.

Lemma edits_step_l n a b c : edit a b → edits n b c → edits (S n) a c.
Proof.
  intros He Hs. induction Hs as [b|n b c d _ IH Hcd].
  - eapply edits_S; [constructor | done].
  - eapply edits_S; [by apply IH | done].
Qed.

Lemma edits_nil_l b : edits (length b) [] b.
Proof.
  induction b as [|y b IH]; [constructor|]. simpl.
  eapply edits_S; [exact IH | apply (edit_insert [] y b)].
Qed.

Lemma edits_nil_r a : edits (length a) a [].
Proof.
  induction a as [|x a IH]; [constructor|]. simpl.
  eapply edits_step_l; [apply (edit_delete [] x a) | exact IH].
Qed.

Lemma lev_rec_edits a b : edits (lev_rec a b) a b.
Proof.
  revert b. induction a as [|x a IHa]; intros b.
  - apply edits_nil_l.
  - induction b as [|y b IHb].
    + rewrite lev_rec_nil_r. apply edits_nil_r.
    + rewrite lev_rec_cons.
      destruct (Nat.min_spec (lev_rec a (y :: b) + 1)
                  (Nat.min (lev_rec (x :: a) b + 1) (lev_rec a b + cost x y)))
        as [[_ ->]|[_ ->]].
      * rewrite Nat.add_1_r.
        eapply edits_step_l; [apply (edit_delete [] x a) | apply IHa].
      * destruct (Nat.min_spec (lev_rec (x :: a) b + 1) (lev_rec a b + cost x y))
          as [[_ ->]|[_ ->]].
        -- rewrite Nat.add_1_r.
           eapply edits_S; [exact IHb | apply (edit_insert [] y b)].
        -- unfold cost. case_decide as Hxy.
           ++ subst y. rewrite Nat.add_0_r. apply edits_cons, IHa.
           ++ rewrite Nat.add_1_r.
              eapply edits_S; [apply (edits_cons x), IHa | apply (edit_subst [] x y b)].
Qed.

Lemma lev_rec_min_edits a b : min_edits (lev_rec a b) a b.
Proof. split; [apply lev_rec_edits | intros k; apply edits_lev_rec]. Qed.

Lemma edit_rev a b : edit a b → edit (rev a) (rev b).
Proof.
  intros [l c r|l c r|l c c' r];
    rewrite ?rev_app_distr; simpl; rewrite <- ?app_assoc; simpl; constructor.
Qed.

Lemma edits_rev n a b : edits n a b → edits n (rev a) (rev b).
Proof.
  induction 1 as [a|n a b c _ IH He]; [constructor|].
  eapply edits_S; [exact IH | by apply edit_rev].
Qed.

Lemma min_edits_rev n a b : min_edits n (rev a) (rev b) → min_edits n a b.
Proof.
  intros [H1 H2]. split.
  - apply edits_rev in H1. by rewrite !rev_involutive in H1.
  - intros k Hk. apply H2. by apply edits_rev.
Qed.

Lemma min_edits_unique n n' a b : min_edits n a b → min_edits n' a b → n = n'.
Proof. intros [H1 H2] [H1' H2']. apply H2 in H1'. apply H2' in H1. lia. Qed.

Lemma lev_rec_rev a b : lev_rec (rev a) (rev b) = lev_rec a b.
Proof.
  eapply min_edits_unique; [apply min_edits_rev|]; apply lev_rec_min_edits.
Qed.

End LevRec.

(** ** The cost table of [levenshteinDistance] *)

Module GrouperProofs.
Import CategoryGrouper LevTable.

Lemma min_is_min a b c : min a b c = Z.min a (Z.min b c).
Proof.
  unfold min.
  destruct (Z.ltb_spec a b), (Z.ltb_spec a c), (Z.ltb_spec b c); lia.
Qed.

Lemma abs_is_abs x : abs x = Z.abs x.
Proof. unfold abs. destruct (Z.ltb_spec x 0); lia. Qed.

Lemma shape_row m n matrix i :
  shape m n matrix → (i ≤ m)%nat → length (matrix !!! i) = (n + 1)%nat.
Proof.
  intros [Hl Hr] Hi.
  apply (Forall_lookup_1 (λ row, length row = (n + 1)%nat) matrix i); [done|].
  apply list_lookup_lookup_total_lt. lia.
Qed.

Lemma mset_shape m n matrix i j v : shape m n matrix → shape m n (mset matrix i j v).
Proof.
  intros [Hl Hr]. split; unfold mset.
  - by rewrite length_alter.
  - apply Forall_alter; [done|]. intros row _ Hrow. by rewrite length_insert.
Qed.

Lemma mget_mset m n matrix i j v i' j' :
  shape m n matrix → (i ≤ m)%nat → (j ≤ n)%nat →
  mget (mset matrix i j v) i' j' =
  if decide (i = i' ∧ j = j') then v else mget matrix i' j'.
Proof.
  intros Hs Hi Hj. unfold mget, mset.
  pose proof (shape_row _ _ _ _ Hs Hi) as Hrow. destruct Hs as [Hl _].
  destruct (decide (i = i')) as [<-|Hne].
  - rewrite list_lookup_total_alter_eq by lia.
    destruct (decide (j = j')) as [<-|Hnj].
    + rewrite list_lookup_total_insert_eq by lia. by rewrite decide_True.
    + rewrite list_lookup_total_insert_ne by done. rewrite decide_False; [done | tauto].
  - rewrite list_lookup_total_alter_ne by done. rewrite decide_False; [done | tauto].
Qed.

(** A loop nest that fills the table cell by cell, row after row. *)
Section Fill.
Variable D : nat → nat → Z.
Variables m n : nat.
Variable cell : nat → list (list Z) → nat → list (list Z).
Hypothesis cell_filled : ∀ i k matrix,
  (1 ≤ i ≤ m)%nat → (1 ≤ k ≤ n)%nat →
  filled D m n i k matrix → filled D m n i (S k) (cell i matrix k).

Lemma fillRow_filled i matrix :
  (1 ≤ i ≤ m)%nat →
  filled D m n i 1 matrix → filled D m n (S i) 1 (foldl (cell i) matrix (seq 1 n)).
Proof.
  intros Hi H1.
  assert (filled D m n i (1 + n) (foldl (cell i) matrix (seq 1 n))) as [Hs Hc].
  { apply (foldl_seq_inv (filled D m n i)); [done|].
    intros k s Hk. apply cell_filled; lia. }
  split; [done|]. intros i' j' Hi' Hj' Hknown. apply Hc; [done..|]. lia.
Qed.

Lemma fill_filled matrix :
  filled D m n 1 1 matrix →
  filled D m n (1 + m) 1
    (foldl (λ matrix i, foldl (cell i) matrix (seq 1 n)) matrix (seq 1 m)).
Proof.
  intros H1.
  apply (foldl_seq_inv (λ i, filled D m n i 1)); [done|].
  intros k s Hk. apply fillRow_filled. lia.
Qed.

End Fill.

Lemma rev_take_S (b : list ascii) i :
  (i < length b)%nat → rev (take (S i) b) = byteAt b i :: rev (take i b).
Proof.
  intros Hi. destruct (lookup_lt_is_Some_2 b i Hi) as [x Hx].
  rewrite (take_S_r _ _ _ Hx), rev_app_distr. simpl.
  unfold byteAt. by rewrite nth_lookup, Hx.
Qed.

Section Table.
Variables b1 b2 : list ascii.
Let m := length b1.
Let n := length b2.

Lemma levD_0_r i : (i ≤ m)%nat → levD b1 b2 i 0 = Z.of_nat i.
Proof.
  intros Hi. unfold levD. rewrite take_0. simpl. rewrite lev_rec_nil_r, length_rev, length_take.
  subst m. f_equal. lia.
Qed.

Lemma levD_0_l j : (j ≤ n)%nat → levD b1 b2 0 j = Z.of_nat j.
Proof.
  intros Hj. unfold levD. rewrite take_0. simpl. rewrite length_rev, length_take.
  subst n. f_equal. lia.
Qed.

Lemma levD_step i j :
  (1 ≤ i ≤ m)%nat → (1 ≤ j ≤ n)%nat →
  levD b1 b2 i j =
  min (levD b1 b2 (i - 1) j + 1) (levD b1 b2 i (j - 1) + 1)
      (levD b1 b2 (i - 1) (j - 1) +
       if decide (byteAt b1 (i - 1) ≠ byteAt b2 (j - 1)) then 1 else 0).
Proof.
  intros Hi Hj. rewrite min_is_min. unfold levD.
  destruct i as [|i]; [lia|]. destruct j as [|j]; [lia|].
  replace (S i - 1)%nat with i by lia. replace (S j - 1)%nat with j by lia.
  rewrite (rev_take_S b1 i), (rev_take_S b2 j) by (subst m n; lia).
  rewrite lev_rec_cons. rewrite <- (rev_take_S b1 i), <- (rev_take_S b2 j) by (subst m n; lia).
  unfold cost. repeat case_decide; try congruence; lia.
Qed.

Lemma fillCell_filled i k matrix :
  (1 ≤ i ≤ m)%nat → (1 ≤ k ≤ n)%nat →
  filled (levD b1 b2) m n i k matrix →
  filled (levD b1 b2) m n i (S k) (fillCell b1 b2 i matrix k).
Proof.
  intros Hi Hk [Hs Hc]. unfold fillCell. split; [by apply mset_shape|].
  intros i' j' Hi' Hj' Hknown.
  rewrite (mget_mset m n) by (done || lia).
  case_decide as Heq.
  - destruct Heq as [<- <-].
    rewrite !Hc by lia. by rewrite <- levD_step.
  - apply Hc; [done..|]. lia.
Qed.

Lemma initMatrix_filled : filled (levD b1 b2) m n 1 1 (initMatrix m n).
Proof.
  unfold initMatrix.
  set (rows := (λ i : nat, <[0%nat:=Z.of_nat i]> (replicate (n + 1) 0)) <$> seq 0 (m + 1)).
  assert (shape m n rows) as Hs0.
  { split; subst rows.
    - by rewrite length_fmap, length_seq.
    - apply Forall_fmap, Forall_forall. intros i _. simpl.
      by rewrite length_insert, length_replicate. }
  assert (∀ i, (i ≤ m)%nat → mget rows i 0 = Z.of_nat i) as Hc0.
  { intros i Hi. unfold mget, rows.
    erewrite (list_lookup_total_correct _ i);
      [|rewrite list_lookup_fmap, lookup_seq_lt by lia; reflexivity].
    simpl. rewrite list_lookup_total_insert_eq; [done|]. rewrite length_replicate. lia. }
  clearbody rows.
  set (P := λ (k : nat) (matrix : list (list Z)),
         shape m n matrix ∧
         (∀ i, (i ≤ m)%nat → mget matrix i 0 = Z.of_nat i) ∧
         (∀ j, (j < k)%nat → mget matrix 0 j = Z.of_nat j)).
  assert (P (0 + (n + 1))%nat
            (foldl (λ matrix j, mset matrix 0 j (Z.of_nat j)) rows (seq 0 (n + 1))))
    as (Hs & Hcol & Hrow).
  { apply (foldl_seq_inv P).
    - split; [done|]. split; [done|]. intros j Hj. lia.
    - intros k s Hk (Hs & Hcol & Hrow). split; [by apply mset_shape|]. split.
      + intros i Hi. rewrite (mget_mset m n) by (done || lia).
        case_decide as Heq; [|by apply Hcol]. destruct Heq as [<- <-]. done.
      + intros j Hj. rewrite (mget_mset m n) by (done || lia).
        case_decide as Heq; [by destruct Heq as [_ <-]|]. apply Hrow. lia. }
  split; [done|]. intros i' j' Hi' Hj' Hknown.
  destruct (decide (j' = 0%nat)) as [->|Hj0].
  - rewrite Hcol by done. by rewrite levD_0_r.
  - assert (i' = 0%nat) as -> by lia. rewrite Hrow by lia. by rewrite levD_0_l.
Qed.

Lemma fill_correct :
  mget (fillMatrix b1 b2 (initMatrix m n)) m n = Z.of_nat (lev_rec b1 b2).
Proof.
  destruct (fill_filled (levD b1 b2) m n (fillCell b1 b2) fillCell_filled
              _ initMatrix_filled) as [_ Hc].
  unfold fillMatrix. fold m n. rewrite Hc by lia.
  unfold levD. subst m n. rewrite !firstn_all. by rewrite lev_rec_rev.
Qed.

End Table.

Lemma levenshteinDistance_lev_rec s1 s2 :
  levenshteinDistance s1 s2 = Z.of_nat (lev_rec (bytes s1) (bytes s2)).
Proof.
  unfold levenshteinDistance, len.
  destruct (Z.eqb_spec (Z.of_nat (length (bytes s1))) 0) as [H1|H1].
  - destruct (bytes s1); [done | simpl in H1; lia].
  - destruct (Z.eqb_spec (Z.of_nat (length (bytes s2))) 0) as [H2|H2].
    + destruct (bytes s2); [by rewrite lev_rec_nil_r | simpl in H2; lia].
    + apply fill_correct.
Qed.

End GrouperProofs.

(** ** The edit-distance primitive *)

Module EditDistance.
Import CategoryGrouper GrouperProofs.

Lemma levenshteinDistance_min_edits s1 s2 :
  min_edits (Z.to_nat (levenshteinDistance s1 s2)) (bytes s1) (bytes s2).
Proof.
  rewrite levenshteinDistance_lev_rec, Nat2Z.id. apply lev_rec_min_edits.
Qed.

(** C8. [levenshteinDistance] is the Levenshtein distance: its result is
    the least number of single-character (byte) insertions, deletions
    and substitutions that turn [a] into [b]; the distance from a string
    to itself is 0, from the empty string to [a] it is [len a], the
    distance is symmetric, and from "kitten" to "sitting" it is 3. *)
Theorem levenshteinDistance_is_edit_distance (a b : string) :
  (∃ n : nat, levenshteinDistance a b = Z.of_nat n ∧ min_edits n (bytes a) (bytes b)) ∧
  levenshteinDistance a a = 0 ∧
  levenshteinDistance "" a = len a ∧
  levenshteinDistance a b = levenshteinDistance b a ∧
  levenshteinDistance "kitten" "sitting" = 3.
Proof.
  split; [|split; [|split; [|split]]].
  - exists (lev_rec (bytes a) (bytes b)). split.
    + apply levenshteinDistance_lev_rec.
    + apply lev_rec_min_edits.
  - by rewrite levenshteinDistance_lev_rec, lev_rec_refl.
  - by rewrite levenshteinDistance_lev_rec.
  - by rewrite !levenshteinDistance_lev_rec, lev_rec_sym.
  - by vm_compute.
Qed.

(** Code points and bytes. *)

Lemma byte_val_inj c d : byte_val c = byte_val d → c = d.
Proof.
  unfold byte_val. intros H. apply N2Z.inj in H.
  rewrite <- (ascii_N_embedding c), <- (ascii_N_embedding d). by rewrite H.
Qed.

Lemma decodeRunes_ascii b :
  forallb (λ c, byte_val c <? 128) b = true → decodeRunes b = byte_val <$> b.
Proof.
  induction b as [|c b IH]; [done|]. simpl. intros H.
  apply andb_prop in H as [Hc Hb]. rewrite Hc. by rewrite IH.
Qed.

Lemma lev_rec_fmap {A B : Type} `{EqDecision A} `{EqDecision B} (f : A → B) :
  (∀ x y, f x = f y → x = y) →
  ∀ a b : list A, lev_rec (f <$> a) (f <$> b) = lev_rec a b.
Proof.
  intros Hinj a. induction a as [|x a IHa]; intros b.
  - simpl. by rewrite length_fmap.
  - induction b as [|y b IHb].
    + simpl. by rewrite length_fmap.
    + rewrite !fmap_cons, !lev_rec_cons.
      rewrite <- !fmap_cons, IHb, (IHa (y :: b)), (IHa b).
      unfold cost. repeat case_decide; try done; try (exfalso; naive_solver).
Qed.

(** C9, as the code has it.  The unit of comparison is the byte; for
    strings whose code points each take one byte (ASCII) the result is
    the least number of single-code-point edits. *)
Theorem levenshteinDistance_code_points_ascii (a b : string) :
  isASCII a = true → isASCII b = true →
  min_edits (Z.to_nat (levenshteinDistance a b)) (runes a) (runes b).
Proof.
  intros Ha Hb. unfold runes, isASCII in *.
  rewrite (decodeRunes_ascii _ Ha), (decodeRunes_ascii _ Hb).
  rewrite levenshteinDistance_lev_rec, Nat2Z.id.
  rewrite <- (lev_rec_fmap byte_val byte_val_inj).
  apply lev_rec_min_edits.
Qed.

Lemma levenshteinDistance_code_points_ascii_witness :
  min_edits (Z.to_nat (levenshteinDistance "docter" "doctor"))
    (runes "docter") (runes "doctor").
Proof. apply levenshteinDistance_code_points_ascii; reflexivity. Defined.

(** C9, as stated, fails: U+00E9 takes two bytes, and the distance the
    code gives from it to "a" is 2, while one substitution of a code
    point is enough. *)
Lemma levenshteinDistance_splits_code_points :
  ¬ (∀ a b : string,
       min_edits (Z.to_nat (levenshteinDistance a b)) (runes a) (runes b)).
Proof.
  intros H.
  specialize (H (String (ascii_of_nat 195) (String (ascii_of_nat 169) "")) "a").
  destruct H as [_ Hmin].
  assert (edits 1 [233] [97]) as He.
  { eapply edits_S; [apply edits_O | apply (edit_subst [] 233 97 [])]. }
  apply Hmin in He. vm_compute in He. lia.
Qed.

End EditDistance.

(** ** Go strings: lower case and trimming *)

Module GoStringProofs.

Lemma bytes_ofBytes b : bytes (ofBytes b) = b.
Proof. apply list_ascii_of_string_of_list_ascii. Qed.

Lemma ofBytes_bytes s : ofBytes (bytes s) = s.
Proof. apply string_of_list_ascii_of_string. Qed.

Lemma bytes_inj s t : bytes s = bytes t → s = t.
Proof. intros H. by rewrite <- (ofBytes_bytes s), <- (ofBytes_bytes t), H. Qed.

Lemma bytes_app (s t : string) : bytes (s ++ t)%string = bytes s ++ bytes t.
Proof. unfold bytes. induction s as [|c s IH]; simpl; [done | by rewrite IH]. Qed.

Lemma bytes_nil_inv s : bytes s = [] → s = "".
Proof. by destruct s. Qed.

Lemma toLowerByte_idemp c : toLowerByte (toLowerByte c) = toLowerByte c.
Proof. destruct c as [[] [] [] [] [] [] [] []]; reflexivity. Qed.

Lemma isSpace_toLowerByte c : isSpace (toLowerByte c) = isSpace c.
Proof. destruct c as [[] [] [] [] [] [] [] []]; reflexivity. Qed.

Lemma ToLower_idemp s : ToLower (ToLower s) = ToLower s.
Proof.
  unfold ToLower. rewrite bytes_ofBytes. f_equal.
  rewrite <- list_fmap_compose. apply list_fmap_ext. intros _ c _. apply toLowerByte_idemp.
Qed.

Lemma trimLeft_fmap b : trimLeft (toLowerByte <$> b) = toLowerByte <$> trimLeft b.
Proof.
  induction b as [|c b IH]; [done|]. simpl.
  rewrite isSpace_toLowerByte. by destruct (isSpace c).
Qed.

Lemma fmap_rev {A B : Type} (f : A → B) (l : list A) : f <$> rev l = rev (f <$> l).
Proof. induction l as [|x l IH]; [done|]. simpl. by rewrite fmap_app, IH. Qed.

Lemma trimRight_fmap b : trimRight (toLowerByte <$> b) = toLowerByte <$> trimRight b.
Proof.
  unfold trimRight. by rewrite <- fmap_rev, trimLeft_fmap, fmap_rev.
Qed.

Lemma TrimSpace_ToLower s : TrimSpace (ToLower s) = ToLower (TrimSpace s).
Proof.
  unfold TrimSpace, ToLower. rewrite !bytes_ofBytes. f_equal.
  by rewrite trimLeft_fmap, trimRight_fmap.
Qed.

Lemma trimLeft_idemp b : trimLeft (trimLeft b) = trimLeft b.
Proof.
  induction b as [|c b IH]; [done|]. simpl.
  destruct (isSpace c) eqn:Hc; [done|]. simpl. by rewrite Hc.
Qed.

Lemma trimLeft_snoc l c : isSpace c = false → trimLeft (l ++ [c]) = trimLeft l ++ [c].
Proof.
  intros Hc. induction l as [|d l IH]; simpl; [by rewrite Hc|].
  by destruct (isSpace d).
Qed.

Lemma trimRight_cons c b : isSpace c = false → trimRight (c :: b) = c :: trimRight b.
Proof.
  intros Hc. unfold trimRight. simpl.
  rewrite trimLeft_snoc by done. rewrite rev_app_distr. done.
Qed.

Lemma trimLeft_trimRight_trimLeft b :
  trimLeft (trimRight (trimLeft b)) = trimRight (trimLeft b).
Proof.
  induction b as [|c b IH]; [done|]. simpl.
  destruct (isSpace c) eqn:Hc; [done|].
  rewrite trimRight_cons by done. simpl. by rewrite Hc.
Qed.

Lemma trimRight_idemp b : trimRight (trimRight b) = trimRight b.
Proof. unfold trimRight. by rewrite rev_involutive, trimLeft_idemp. Qed.

Lemma TrimSpace_idemp s : TrimSpace (TrimSpace s) = TrimSpace s.
Proof.
  unfold TrimSpace. rewrite bytes_ofBytes. f_equal.
  by rewrite trimLeft_trimRight_trimLeft, trimRight_idemp.
Qed.

(** What [ToLower(TrimSpace(s))] gives is lowercase and trimmed. *)
Lemma cleaned_lower s : ToLower (ToLower (TrimSpace s)) = ToLower (TrimSpace s).
Proof. apply ToLower_idemp. Qed.

Lemma cleaned_trimmed s : TrimSpace (ToLower (TrimSpace s)) = ToLower (TrimSpace s).
Proof. by rewrite TrimSpace_ToLower, TrimSpace_idemp. Qed.

Lemma cleaned_cleaned s :
  ToLower (TrimSpace (ToLower (TrimSpace s))) = ToLower (TrimSpace s).
Proof. by rewrite cleaned_trimmed, cleaned_lower. Qed.

Lemma isEmpty_true s : isEmpty s = true ↔ s = "".
Proof. unfold isEmpty. apply bool_decide_eq_true. Qed.

Lemma isEmpty_false s : isEmpty s = false ↔ s ≠ "".
Proof. unfold isEmpty. apply bool_decide_eq_false. Qed.

(** [Contains] finds an occurrence. *)
Lemma hasPrefix_spec s p : hasPrefix s p = true ↔ ∃ r, s = p ++ r.
Proof.
  revert s. induction p as [|c p IH]; intros s.
  - destruct s; simpl; (split; [by eexists | done]).
  - destruct s as [|d s]; simpl.
    + split; [done | by intros [r Hr]].
    + rewrite andb_true_iff, bool_decide_eq_true, IH. split.
      * intros [-> [r ->]]. eauto.
      * intros [r Hr]. injection Hr as -> ->. eauto.
Qed.

Lemma containsBytes_spec s sub :
  containsBytes s sub = true ↔ ∃ l r, s = l ++ sub ++ r.
Proof.
  induction s as [|c s IH].
  - cbn [containsBytes]. rewrite orb_false_r, hasPrefix_spec. split.
    + intros [r Hr]. by exists [], r.
    + intros (l & r & Hlr). destruct l; [by exists r | discriminate Hlr].
  - cbn [containsBytes]. rewrite orb_true_iff, hasPrefix_spec, IH. split.
    + intros [[r Hr]|(l & r & ->)].
      * by exists [], r.
      * by exists (c :: l), r.
    + intros (l & r & Hlr). destruct l as [|d l].
      * left. by exists r.
      * right. injection Hlr as -> ->. by exists l, r.
Qed.

(** Trimming keeps what holds of every byte. *)

Lemma trimLeft_Forall (P : ascii → Prop) b : Forall P b → Forall P (trimLeft b).
Proof. induction 1 as [|c b Hc Hb IH]; simpl; [done|]. destruct (isSpace c); auto. Qed.

Lemma trimRight_Forall (P : ascii → Prop) b : Forall P b → Forall P (trimRight b).
Proof.
  intros Hb. unfold trimRight. apply Forall_rev, trimLeft_Forall, Forall_rev, Hb.
Qed.

Lemma TrimSpace_Forall (P : ascii → Prop) s :
  Forall P (bytes s) → Forall P (bytes (TrimSpace s)).
Proof.
  intros H. unfold TrimSpace. rewrite bytes_ofBytes.
  by apply trimRight_Forall, trimLeft_Forall.
Qed.

(** ASCII text stays ASCII under [ToLower] and [TrimSpace]. *)

Lemma isASCII_Forall s :
  isASCII s = true ↔ Forall (λ c, (byte_val c <? 128) = true) (bytes s).
Proof.
  unfold isASCII. rewrite forallb_forall, Forall_forall. split.
  - intros H c Hc. by apply H, list_elem_of_In.
  - intros H c Hc. by apply H, list_elem_of_In.
Qed.




End GoStringProofs.

(** ** The rule map built at construction *)

Module RuleTable.
Import CategoryGrouper GrouperSpec GoStringProofs.

Lemma initializeRules_flat defs rules :
  initializeRules defs rules = foldl insertRule rules (flatRules defs).
Proof.
  unfold initializeRules, flatRules.
  revert rules. induction defs as [|[category keywords] defs IH]; intros rules; [done|].
  cbn [foldl mbind list_bind]. rewrite foldl_app, IH. f_equal.
  generalize rules. clear. induction keywords as [|k ks IH]; intros rules; [done|].
  simpl. by rewrite IH.
Qed.

Lemma foldl_insertRule_notin l rules k :
  k ∉ l.*1 → foldl insertRule rules l !! k = rules !! k.
Proof.
  revert rules. induction l as [|[k0 v0] l IH]; intros rules Hk; [done|].
  simpl in *. apply not_elem_of_cons in Hk as [Hne Hk].
  rewrite IH by done. unfold insertRule. simpl. by rewrite lookup_insert_ne.
Qed.

Lemma foldl_insertRule_in l rules k v :
  functional l → (k, v) ∈ l → foldl insertRule rules l !! k = Some v.
Proof.
  revert rules. induction l as [|[k0 v0] l IH]; intros rules Hf Hin.
  - by apply elem_of_nil in Hin.
  - simpl. assert (functional l) as Hf'.
    { intros k1 v1 v1' H1 H2. eapply Hf; by apply elem_of_cons; right. }
    destruct (decide (k ∈ l.*1)) as [Hk|Hk].
    + apply list_elem_of_fmap in Hk as [[k' v'] [-> Hin']]. simpl in *.
      assert (v = v') as <-.
      { eapply Hf; [exact Hin | by apply elem_of_cons; right]. }
      by apply IH.
    + rewrite foldl_insertRule_notin by done.
      apply elem_of_cons in Hin as [Heq|Hin].
      * injection Heq as -> ->. unfold insertRule. simpl. by rewrite lookup_insert_eq.
      * exfalso. apply Hk. apply list_elem_of_fmap. by exists (k, v).
Qed.

Lemma functionalb_functional l : functionalb l = true → functional l.
Proof.
  unfold functionalb. rewrite forallb_forall. intros H k v v' H1 H2.
  apply list_elem_of_In in H1, H2. specialize (H _ H1). simpl in H.
  rewrite forallb_forall in H. specialize (H _ H2). simpl in H.
  rewrite bool_decide_eq_true_2 in H by done. simpl in H.
  by apply bool_decide_eq_true in H.
Qed.

Lemma foldl_insertRule_perm l l' :
  functional l → l ≡ₚ l' → foldl insertRule ∅ l = foldl insertRule ∅ l'.
Proof.
  intros Hf Hp.
  assert (functional l') as Hf'.
  { intros k v v' H1 H2. rewrite <- Hp in H1, H2. eauto. }
  apply map_eq. intros k.
  destruct (decide (k ∈ l.*1)) as [Hk|Hk].
  - apply list_elem_of_fmap in Hk as [[k' v] [-> Hin]]. simpl.
    rewrite (foldl_insertRule_in l _ _ v) by done.
    rewrite (foldl_insertRule_in l' _ _ v); [done..|]. by rewrite <- Hp.
  - rewrite !foldl_insertRule_notin; [done| |done]. by rewrite <- Hp.
Qed.

Lemma flatRules_functional : functional (flatRules categoryDefinitions).
Proof. apply functionalb_functional. by vm_compute. Qed.

(** The rule map does not depend on the order in which
    [initializeRules] visits [categoryDefinitions]. *)
Lemma NewCategoryGrouper_in_perm defs :
  defs ≡ₚ categoryDefinitions → NewCategoryGrouper_in defs = NewCategoryGrouper.
Proof.
  intros Hp. unfold NewCategoryGrouper, NewCategoryGrouper_in.
  rewrite !initializeRules_flat. symmetry.
  apply foldl_insertRule_perm; [apply flatRules_functional|].
  unfold flatRules. by rewrite Hp.
Qed.

Lemma exactTier_table : exactTierOK NewCategoryGrouper categoryDefinitions = true.
Proof. by vm_compute. Qed.

End RuleTable.

(** ** The three tiers of [GetGroup] *)

Module Tiers.
Import CategoryGrouper GrouperSpec GoStringProofs GrouperProofs RuleTable.

(** C3. Every keyword [k] of the rule table is classified as its
    category [c]: the rule map holds [c] at the lowercase-trimmed [k],
    and [GetGroup] returns [c], whatever the order in which the map
    loops run. *)
Theorem GetGroup_keyword (defs : list (string * list string))
    (category : string) (keywords : list string) (k : string) :
  defs ≡ₚ categoryDefinitions →
  (category, keywords) ∈ categoryDefinitions →
  k ∈ keywords →
  NewCategoryGrouper_in defs !! ToLower (TrimSpace k) = Some category ∧
  ∀ it2 it3, GetGroup_in it2 it3 (NewCategoryGrouper_in defs) k = category.
Proof.
  intros Hp Hc Hk. rewrite (NewCategoryGrouper_in_perm _ Hp).
  pose proof exactTier_table as H. unfold exactTierOK in H.
  rewrite forallb_forall in H. apply list_elem_of_In in Hc. specialize (H _ Hc).
  cbv beta iota in H. rewrite forallb_forall in H. apply list_elem_of_In in Hk.
  specialize (H _ Hk). apply andb_prop in H as [Hne Hl].
  apply bool_decide_eq_true in Hl. apply negb_true_iff in Hne.
  split; [done|]. intros it2 it3. unfold GetGroup_in. by rewrite Hne, Hl.
Qed.

Lemma GetGroup_keyword_witness :
  NewCategoryGrouper_in categoryDefinitions !! ToLower (TrimSpace "dr") = Some "doctor" ∧
  ∀ it2 it3, GetGroup_in it2 it3 (NewCategoryGrouper_in categoryDefinitions) "dr" = "doctor".
Proof.
  apply (GetGroup_keyword categoryDefinitions "doctor"
           ["cardiologist"; "neurologist"; "ent"; "orthopedic"; "pediatrician";
            "dermatologist"; "psychiatrist"; "surgeon"; "physician"; "doctor";
            "dentist"; "orthodontist"; "oncologist"; "radiologist";
            "dr"; "doc"; "md"; "medical doctor"] "dr").
  - reflexivity.
  - apply list_elem_of_In. simpl. left. reflexivity.
  - apply list_elem_of_In. simpl. do 14 right. left. reflexivity.
Defined.

(** Tier 2. *)

Lemma wholeWordb_spec cleaned key :
  wholeWordb cleaned key = true ↔
  occursIn (bytes (" " ++ key ++ " ")%string) (bytes (" " ++ cleaned ++ " ")%string).
Proof. unfold wholeWordb, Contains, occursIn. apply containsBytes_spec. Qed.

Lemma splitSpace_nonempty b : splitSpace b ≠ [].
Proof.
  destruct b as [|c b]; simpl; [done|]. case_decide; [done|].
  by destruct (splitSpace b).
Qed.

Lemma splitSpace_app_space a b :
  splitSpace (a ++ " "%char :: b) = splitSpace a ++ splitSpace b.
Proof.
  induction a as [|c a IH]; simpl.
  - done.
  - case_decide; [by rewrite IH|]. rewrite IH.
    pose proof (splitSpace_nonempty a). by destruct (splitSpace a).
Qed.

(** A key that tier 2 matches is a run of complete space-delimited
    tokens of the category. *)
Lemma occursIn_tokens (cleaned key : list ascii) :
  occursIn (" "%char :: key ++ [" "%char]) (" "%char :: cleaned ++ [" "%char]) →
  ∃ L R, splitSpace cleaned = L ++ splitSpace key ++ R.
Proof.
  intros (l & r & Heq).
  replace (l ++ (" "%char :: key ++ [" "%char]) ++ r)
    with (l ++ " "%char :: (key ++ " "%char :: r)) in Heq
    by (simpl; by rewrite <- app_assoc).
  apply (f_equal splitSpace) in Heq.
  rewrite (splitSpace_app_space l), (splitSpace_app_space key r) in Heq.
  change (" "%char :: cleaned ++ [" "%char])
    with ([] ++ " "%char :: (cleaned ++ " "%char :: [])) in Heq.
  rewrite (splitSpace_app_space []), (splitSpace_app_space cleaned []) in Heq.
  simpl in Heq.
  pose proof (splitSpace_nonempty l) as Hl. pose proof (splitSpace_nonempty r) as Hr.
  destruct (splitSpace l) as [|x L]; [done|].
  destruct (splitSpace r) as [|y R0 _] using rev_ind; [done|].
  exists L, R0. simpl in Heq. injection Heq as _ Heq.
  rewrite !app_assoc in Heq. apply app_inj_tail in Heq as [Heq _].
  by rewrite <- app_assoc in Heq.
Qed.

Lemma partialMatch_Some it cleaned group :
  partialMatch it cleaned = Some group →
  ∃ key, (key, group) ∈ it ∧ wholeWordb cleaned key = true.
Proof.
  unfold partialMatch. intros H.
  destruct (find _ it) as [[key g]|] eqn:Hf; [|done].
  simpl in H. injection H as ->.
  apply find_some in Hf as [Hin Hm]. exists key. split; [by apply list_elem_of_In | done].
Qed.

Lemma partialMatch_None it cleaned :
  partialMatch it cleaned = None →
  ∀ key group, (key, group) ∈ it → wholeWordb cleaned key = false.
Proof.
  unfold partialMatch. intros H key group Hin.
  destruct (find _ it) as [[key' g]|] eqn:Hf; [done|].
  apply list_elem_of_In in Hin. by apply (find_none _ _ Hf) in Hin.
Qed.

Lemma partialAll_perm rules it cleaned group :
  it ≡ₚ rules → partialAll rules cleaned group = true →
  partialMatch it cleaned = Some group.
Proof.
  intros Hp H. apply andb_prop in H as [Hall Hex].
  destruct (partialMatch it cleaned) as [g|] eqn:Hm.
  - apply partialMatch_Some in Hm as (key & Hin & Hw).
    rewrite forallb_forall in Hall. rewrite Hp in Hin. apply list_elem_of_In in Hin.
    specialize (Hall _ Hin). simpl in Hall. rewrite Hw in Hall.
    apply bool_decide_eq_true in Hall. by subst.
  - apply existsb_exists in Hex as ([key g] & Hin & Hw).
    apply list_elem_of_In in Hin. rewrite <- Hp in Hin.
    by rewrite (partialMatch_None _ _ Hm _ _ Hin) in Hw.
Qed.

Lemma partialNone_perm rules it cleaned :
  it ≡ₚ rules → partialNone rules cleaned = true → partialMatch it cleaned = None.
Proof.
  intros Hp H. unfold partialNone in H. rewrite forallb_forall in H.
  destruct (partialMatch it cleaned) as [g|] eqn:Hm; [|done].
  apply partialMatch_Some in Hm as (key & Hin & Hw).
  rewrite Hp in Hin. apply list_elem_of_In in Hin.
  specialize (H _ Hin). simpl in H. by rewrite Hw in H.
Qed.

(** C5. Tier 2 matches a rule only when its key, with a space on either
    side, occurs in the category with a space on either side, so that
    the tokens of the key are a run of complete tokens of the category;
    and "front-end developer" is classified as "software engineer",
    "developer" being a rule key that is a complete word of it. *)
Theorem partialMatch_whole_words (it2 : list (string * string)) (cleaned group : string) :
  partialMatch it2 cleaned = Some group →
  (∃ key, (key, group) ∈ it2 ∧
     occursIn (bytes (" " ++ key ++ " ")%string) (bytes (" " ++ cleaned ++ " ")%string) ∧
     ∃ L R, splitSpace (bytes cleaned) = L ++ splitSpace (bytes key) ++ R) ∧
  (∀ result, GetGroup NewCategoryGrouper "front-end developer" result →
             result = "software engineer") ∧
  NewCategoryGrouper !! "developer" = Some "software engineer" ∧
  wholeWordb "front-end developer" "developer" = true.
Proof.
  intros Hm. split; [|split; [|split]].
  - apply partialMatch_Some in Hm as (key & Hin & Hw). exists key.
    apply wholeWordb_spec in Hw. split; [done|]. split; [done|].
    apply occursIn_tokens.
    rewrite !bytes_app in Hw. exact Hw.
  - intros result (i2 & i3 & H2 & H3 & ->). unfold GetGroup_in.
    replace (ToLower (TrimSpace "front-end developer")) with "front-end developer"
      by (by vm_compute).
    replace (isEmpty "front-end developer") with false by done.
    replace (NewCategoryGrouper !! "front-end developer") with (@None string)
      by (by vm_compute).
    erewrite partialAll_perm; [done | exact H2 | by vm_compute].
  - by vm_compute.
  - by vm_compute.
Qed.

Lemma partialMatch_whole_words_witness :
  partialMatch (map_to_list NewCategoryGrouper) "front-end developer"
    = Some "software engineer" ∧
  ∃ key, (key, "software engineer") ∈ map_to_list NewCategoryGrouper ∧
     occursIn (bytes (" " ++ key ++ " ")%string)
              (bytes (" " ++ "front-end developer" ++ " ")%string) ∧
     ∃ L R, splitSpace (bytes "front-end developer") = L ++ splitSpace (bytes key) ++ R.
Proof.
  split; [vm_compute; reflexivity|].
  apply (partialMatch_whole_words (map_to_list NewCategoryGrouper)
           "front-end developer" "software engineer").
  vm_compute. reflexivity.
Defined.

(** Tier 3. *)

Lemma levenshteinDistance_nonneg s1 s2 : 0 ≤ levenshteinDistance s1 s2.
Proof. rewrite levenshteinDistance_lev_rec. lia. Qed.

Lemma elem_of_perm {A : Type} (l l' : list A) (x : A) : l ≡ₚ l' → x ∈ l → x ∈ l'.
Proof. intros Hp Hx. by rewrite <- Hp. Qed.

Lemma elem_of_snoc {A : Type} (l : list A) (x y : A) : y ∈ l ++ [x] ↔ y ∈ l ∨ y = x.
Proof. by rewrite elem_of_app, list_elem_of_singleton. Qed.

Lemma fuzzyInv_keep cleaned seen st key group :
  fuzzyInv cleaned seen st →
  (eligible cleaned key = true →
     (st = ("", 999) → maxDistance < levenshteinDistance cleaned key) ∧
     (st.2 ≤ maxDistance → st.2 ≤ levenshteinDistance cleaned key)) →
  fuzzyInv cleaned (seen ++ [(key, group)]) st.
Proof.
  intros [[Hst Hfar]|(k0 & Hin & Hel & Hd & Hle & Hmin)] Hnew; [left|right].
  - split; [done|]. intros key' group' Hin' He'.
    apply elem_of_snoc in Hin' as [Hin'|Heq]; [by eapply Hfar|].
    injection Heq as -> ->. by apply Hnew.
  - exists k0. split; [apply elem_of_snoc; by left|]. repeat split; try done; try lia.
    intros key' group' Hin' He'.
    apply elem_of_snoc in Hin' as [Hin'|Heq]; [by eapply Hmin|].
    injection Heq as -> ->. apply Hnew; [done | lia].
Qed.

Lemma fuzzyInv_take cleaned seen st key group :
  fuzzyInv cleaned seen st →
  eligible cleaned key = true →
  levenshteinDistance cleaned key < st.2 →
  levenshteinDistance cleaned key ≤ maxDistance →
  fuzzyInv cleaned (seen ++ [(key, group)]) (group, levenshteinDistance cleaned key).
Proof.
  intros Hinv He Hlt Hle. right. exists key. simpl.
  pose proof (levenshteinDistance_nonneg cleaned key) as Hnn.
  split; [apply elem_of_snoc; by right|]. repeat split; try done.
  intros key' group' Hin' He'.
  apply elem_of_snoc in Hin' as [Hin'|Heq]; [|injection Heq as -> ->; lia].
  destruct Hinv as [[Hst Hfar]|(k0 & Hin & Hel & Hd & Hle0 & Hmin)].
  - specialize (Hfar _ _ Hin' He'). lia.
  - specialize (Hmin _ _ Hin' He'). lia.
Qed.

Lemma fuzzyStep_inv cleaned seen st rule :
  fuzzyInv cleaned seen st → fuzzyInv cleaned (seen ++ [rule]) (fuzzyStep cleaned st rule).
Proof.
  destruct st as [bestMatch bestDistance], rule as [key group].
  unfold fuzzyStep. fold (eligible cleaned key). intros Hinv.
  destruct (eligible cleaned key) eqn:He.
  - destruct (Z.ltb_spec (levenshteinDistance cleaned key) bestDistance) as [Hlt|Hge];
      destruct (Z.leb_spec (levenshteinDistance cleaned key) maxDistance) as [Hle|Hgt];
      cbn [andb].
    + by apply (fuzzyInv_take _ _ (bestMatch, bestDistance)).
    + apply fuzzyInv_keep; [done|]. intros _. simpl. split; [done | lia].
    + apply fuzzyInv_keep; [done|]. intros _. simpl. split; [|done].
      intros Hst. injection Hst as -> ->. unfold maxDistance in *. lia.
    + apply fuzzyInv_keep; [done|]. intros _. simpl. split; [done | lia].
  - apply fuzzyInv_keep; [done|]. intros He'. congruence.
Qed.

Lemma fuzzyMatch_inv it cleaned : fuzzyInv cleaned it (fuzzyMatch it cleaned).
Proof.
  unfold fuzzyMatch. induction it as [|rule it IH] using rev_ind.
  - left. split; [done|]. intros key group Hin. by apply elem_of_nil in Hin.
  - rewrite foldl_app. simpl. by apply fuzzyStep_inv.
Qed.

Lemma nearb_spec cleaned key :
  nearb cleaned key = true ↔
  eligible cleaned key = true ∧ levenshteinDistance cleaned key ≤ maxDistance.
Proof. unfold nearb. rewrite andb_true_iff, Z.leb_le. done. Qed.

Lemma fuzzyAll_perm rules it cleaned group :
  it ≡ₚ rules → fuzzyAll rules cleaned group = true →
  fst (fuzzyMatch it cleaned) = group.
Proof.
  intros Hp H. apply andb_prop in H as [Hall Hex].
  rewrite forallb_forall in Hall.
  destruct (fuzzyMatch_inv it cleaned) as [[Hst Hfar]|(key & Hin & He & Hd & Hle & _)].
  - apply existsb_exists in Hex as ([key g] & Hin & Hn).
    apply nearb_spec in Hn as [He Hd].
    apply list_elem_of_In in Hin. rewrite <- Hp in Hin.
    specialize (Hfar _ _ Hin He). lia.
  - apply (elem_of_perm _ _ _ Hp), list_elem_of_In in Hin. specialize (Hall _ Hin).
    cbv beta iota in Hall.
    rewrite (proj2 (nearb_spec cleaned key)) in Hall by (split; [done | lia]).
    by apply bool_decide_eq_true in Hall.
Qed.

Lemma fuzzyNone_perm rules it cleaned :
  it ≡ₚ rules → fuzzyNone rules cleaned = true → fuzzyMatch it cleaned = ("", 999).
Proof.
  intros Hp H. unfold fuzzyNone in H. rewrite forallb_forall in H.
  destruct (fuzzyMatch_inv it cleaned) as [[Hst Hfar]|(key & Hin & He & Hd & Hle & _)];
    [done|].
  apply (elem_of_perm _ _ _ Hp), list_elem_of_In in Hin. specialize (H _ Hin).
  cbv beta iota in H.
  rewrite (proj2 (nearb_spec cleaned key)) in H by (split; [done | lia]). done.
Qed.

(** C4. Let tier 3 run over the rules of [rules] in any order.  If it
    returns a category then the cleaned input has at least 5 bytes and
    the category is that of a rule key whose length differs from the
    input's by at most 1, whose distance [d] to the input is at most 1
    and is the least among such keys; otherwise it returns nothing, and
    then no such key is within distance 1.  "docter" is classified as
    "doctor", and tier 3 returns nothing for "xyzzyqwerty123". *)
Theorem fuzzyMatch_bounded (rules : gmap string string) (it3 : list (string * string))
    (cleaned : string) :
  it3 ≡ₚ map_to_list rules →
  (let '(bestMatch, d) := fuzzyMatch it3 cleaned in
   ((bestMatch, d) = ("", 999) ∧
    ∀ key group, rules !! key = Some group →
       abs (len cleaned - len key) ≤ 1 → 5 ≤ len cleaned →
       1 < levenshteinDistance cleaned key)
   ∨
   (5 ≤ len cleaned ∧
    ∃ key, rules !! key = Some bestMatch ∧
       abs (len cleaned - len key) ≤ 1 ∧
       levenshteinDistance cleaned key = d ∧ d ≤ 1 ∧
       ∀ key' group', rules !! key' = Some group' →
          abs (len cleaned - len key') ≤ 1 →
          d ≤ levenshteinDistance cleaned key')) ∧
  (∀ result, GetGroup NewCategoryGrouper "docter" result → result = "doctor") ∧
  (∀ it, it ≡ₚ map_to_list NewCategoryGrouper →
         fuzzyMatch it "xyzzyqwerty123" = ("", 999)).
Proof.
  intros Hp.
  assert (∀ key, eligible cleaned key = true ↔
                 abs (len cleaned - len key) ≤ 1 ∧ 5 ≤ len cleaned) as Hel.
  { intros key. unfold eligible. by rewrite andb_true_iff, !Z.leb_le. }
  split; [|split].
  - pose proof (fuzzyMatch_inv it3 cleaned) as Hinv.
    destruct (fuzzyMatch it3 cleaned) as [bestMatch d].
    destruct Hinv as [[Hst Hfar]|(key & Hin & He & Hd & Hle & Hmin)]; [left|right].
    + split; [done|]. intros key group Hk H1 H5.
      apply (Hfar key group); [|by apply Hel].
      rewrite Hp. by apply elem_of_map_to_list.
    + simpl in *. apply Hel in He as [H1 H5]. split; [done|]. exists key.
      rewrite Hp in Hin. apply elem_of_map_to_list in Hin.
      unfold maxDistance in Hle. repeat split; try done; try lia.
      intros key' group' Hk' H1'. apply (Hmin key' group'); [|by apply Hel].
      rewrite Hp. by apply elem_of_map_to_list.
  - intros result (i2 & i3 & H2 & H3 & ->). unfold GetGroup_in.
    replace (ToLower (TrimSpace "docter")) with "docter" by (by vm_compute).
    replace (isEmpty "docter") with false by done.
    replace (NewCategoryGrouper !! "docter") with (@None string) by (by vm_compute).
    erewrite partialNone_perm; [| exact H2 | by vm_compute].
    rewrite (fuzzyAll_perm _ _ "docter" "doctor" H3) by (by vm_compute).
    done.
  - intros it Hit. eapply fuzzyNone_perm; [exact Hit | by vm_compute].
Qed.

Lemma fuzzyMatch_bounded_witness :
  fuzzyMatch (map_to_list NewCategoryGrouper) "docter" = ("doctor", 1) ∧
  ∃ key, NewCategoryGrouper !! key = Some "doctor" ∧
         abs (len "docter" - len key) ≤ 1 ∧
         levenshteinDistance "docter" key = 1.
Proof.
  split; [vm_compute; reflexivity|].
  pose proof (fuzzyMatch_bounded NewCategoryGrouper (map_to_list NewCategoryGrouper)
                "docter" (reflexivity _)) as [H _].
  replace (fuzzyMatch (map_to_list NewCategoryGrouper) "docter")
    with ("doctor", 1) in H by (vm_compute; reflexivity).
  destruct H as [[H _]|[_ (key & Hk & H1 & Hd & _)]]; [discriminate H|].
  exists key. repeat split; done.
Defined.

End Tiers.

(** ** [MergeSimilarTerms] *)

Module MergeProofs.
Import CategoryGrouper GrouperSpec TermNormalizer NormalizerSpec GoStringProofs.

Lemma foldl_insertRule_union (A : list (string * string)) (m : gmap string string) :
  foldl insertRule m A = list_to_map (rev A) ∪ m.
Proof.
  revert m. induction A as [|[k v] A IH]; intros m; simpl.
  - by rewrite (left_id_L ∅ (∪)).
  - rewrite IH, list_to_map_app. simpl. unfold insertRule. simpl.
    rewrite <- (assoc_L (∪)). f_equal.
    rewrite insert_empty. by rewrite <- insert_union_singleton_l.
Qed.

Lemma foldl_insertRule_twice (A : list (string * string)) (m : gmap string string) :
  foldl insertRule (foldl insertRule m A) A = foldl insertRule m A.
Proof.
  rewrite !foldl_insertRule_union, (assoc_L (∪)). by rewrite (idemp_L (∪)).
Qed.

Lemma foldl_insertRule_keys (A : list (string * string)) (m : gmap string string) k :
  is_Some (foldl insertRule m A !! k) ↔ is_Some (m !! k) ∨ k ∈ A.*1.
Proof.
  revert m. induction A as [|[k0 v0] A IH]; intros m; simpl.
  - split; [by left | intros [H|H]; [done | by apply elem_of_nil in H]].
  - rewrite IH. unfold insertRule. simpl. rewrite lookup_insert_is_Some, elem_of_cons.
    destruct (decide (k0 = k)) as [->|Hne]; [tauto|]. split.
    + intros [[Heq|[_ H]]|H]; [congruence | by left | by right; right].
    + intros [H|[Heq|H]]; [by left; right | congruence | by right].
Qed.

Lemma canonicalCount_insert (m : gmap string string) k v :
  k ≠ v → (canonicalCount (<[k:=v]> m) ≤ canonicalCount m)%nat.
Proof.
  intros Hne. unfold canonicalCount.
  rewrite map_filter_insert_False by done.
  apply map_subseteq_size, map_filter_subseteq_mono, delete_subseteq.
Qed.

Lemma canonicalCount_foldl canonicals (A : list (string * string)) (m : gmap string string) :
  Forall (mergeAssignment canonicals) A →
  (canonicalCount (foldl insertRule m A) ≤ canonicalCount m)%nat.
Proof.
  intros HA. revert m. induction HA as [|[k v] A [Hne _] _ IH]; intros m; simpl; [done|].
  etrans; [apply IH|]. unfold insertRule. by apply canonicalCount_insert.
Qed.

(** The steps of the loop are assignments. *)

Lemma assigns_skip P : assigns P (λ st, st).
Proof. intros merged. exists merged, []. split; [constructor | done]. Qed.

Lemma assigns_foldl {X : Type} P (step : _ → X → _) (l : list X) :
  (∀ x, x ∈ l → assigns P (λ st, step st x)) →
  assigns P (λ st, foldl step st l).
Proof.
  induction l as [|x l IH] using rev_ind; intros Hstep.
  - apply assigns_skip.
  - intros merged.
    assert (∀ y, y ∈ l → assigns P (λ st, step st y)) as Hl
      by (intros y Hy; apply Hstep, elem_of_app; by left).
    assert (assigns P (λ st, step st x)) as Hx
      by (apply Hstep, elem_of_app; right; by apply list_elem_of_singleton).
    destruct (IH Hl merged) as (merged1 & A1 & HA1 & H1).
    destruct (Hx merged1) as (merged2 & A2 & HA2 & H2).
    exists merged2, (A1 ++ A2). split; [by apply Forall_app|].
    intros cts. rewrite !foldl_app, H1. simpl. apply H2.
Qed.

Lemma mergePair_assigns tn canonicals i j :
  NoDup canonicals → (i < j < length canonicals)%nat →
  assigns (mergeAssignment canonicals) (λ st, mergePair tn canonicals i st j).
Proof.
  intros Hnd Hij merged. unfold mergePair.
  assert (canonicals !!! i ≠ canonicals !!! j) as Hne.
  { intros Heq.
    assert (canonicals !! i = Some (canonicals !!! i)) as Hi
      by (apply list_lookup_lookup_total_lt; lia).
    assert (canonicals !! j = Some (canonicals !!! i)) as Hj
      by (rewrite Heq; apply list_lookup_lookup_total_lt; lia).
    pose proof (NoDup_lookup _ _ _ _ Hnd Hi Hj). lia. }
  assert (canonicals !!! i ∈ canonicals) as Hi
    by (apply list_elem_of_lookup_total_2; lia).
  assert (canonicals !!! j ∈ canonicals) as Hj
    by (apply list_elem_of_lookup_total_2; lia).
  set (term1 := canonicals !!! i) in *. set (term2 := canonicals !!! j) in *.
  destruct (bool_decide (is_Some (merged !! term1)));
    [exists merged, []; split; [constructor | done]|].
  destruct (bool_decide (is_Some (merged !! term2)));
    [exists merged, []; split; [constructor | done]|].
  destruct (Qle_bool _ _); [|exists merged, []; split; [constructor | done]].
  destruct (_ || _).
  - exists (<[term2:=term1]> merged), [(term2, term1)]. split; [|done].
    constructor; [|constructor]. split; simpl; [congruence | done].
  - exists (<[term1:=term2]> merged), [(term1, term2)]. split; [|done].
    constructor; [|constructor]. split; simpl; [congruence | done].
Qed.

Lemma mergeLoop_assigns tn canonicals :
  NoDup canonicals →
  assigns (mergeAssignment canonicals) (mergeLoop tn canonicals).
Proof.
  intros Hnd. unfold mergeLoop.
  apply (assigns_foldl _ (λ st i, foldl (mergePair tn canonicals i) st
                                     (seq (i + 1) (length canonicals - (i + 1))))).
  intros i Hi. apply assigns_foldl. intros j Hj.
  apply elem_of_seq in Hi, Hj. apply mergePair_assigns; [done | lia].
Qed.

(** [GetCanonicalTerms] and [MergeSimilarTerms] always return. *)
Lemma GetCanonicalTerms_in_returns it tn :
  it ≡ₚ map_to_list (canonicalTerms tn) →
  GetCanonicalTerms tn (GetCanonicalTerms_in it tn).
Proof.
  intros Hp. unfold GetCanonicalTerms_in. split.
  - by rewrite merge_sort_Permutation, Hp.
  - apply StronglySorted_merge_sort.
    + intros t1 t2 t3. unfold byFrequency. lia.
    + intros t1 t2. unfold byFrequency. lia.
Qed.

Lemma MergeSimilarTerms_returns tn : ∃ tn', MergeSimilarTerms tn tn'.
Proof.
  eexists. exists (GetCanonicalTerms_in (map_to_list (canonicalTerms tn)) tn).
  split; [by apply GetCanonicalTerms_in_returns | done].
Qed.

Lemma GetCanonicalTerms_NoDup tn canonicals :
  GetCanonicalTerms tn canonicals → NoDup canonicals.
Proof. intros [Hp _]. rewrite Hp. apply NoDup_fst_map_to_list. Qed.

Lemma GetCanonicalTerms_keys tn canonicals k :
  GetCanonicalTerms tn canonicals → k ∈ canonicals ↔ is_Some (canonicalTerms tn !! k).
Proof.
  intros [Hp _]. rewrite Hp, list_elem_of_fmap. split.
  - intros ([k' v] & -> & Hin). apply elem_of_map_to_list in Hin. by exists v.
  - intros [v Hv]. exists (k, v). split; [done | by apply elem_of_map_to_list].
Qed.

End MergeProofs.

Module MergeTheorems.
Import CategoryGrouper GrouperSpec TermNormalizer NormalizerSpec GoStringProofs MergeProofs Examples.

(** A permutation of two or three concrete terms, and a concrete
    enumeration sorted by frequency. *)
Ltac perm_small :=
  vm_compute;
  first [ reflexivity
        | apply perm_swap
        | apply perm_skip; apply perm_swap
        | eapply perm_trans; [apply perm_swap | apply perm_skip; apply perm_swap]
        | eapply perm_trans; [apply perm_skip; apply perm_swap | apply perm_swap]
        | eapply perm_trans; [apply perm_swap |
            eapply perm_trans; [apply perm_skip; apply perm_swap | apply perm_swap]] ].

Ltac sorted_small := repeat constructor; vm_compute; discriminate.

(** [MergeSimilarTerms] never increases the number of canonical terms;
    after it, the enumeration [canonicals] it worked on is again one
    that [GetCanonicalTerms] can return, and a second call that works on
    the same enumeration leaves the normalizer, hence the
    [CanonicalTerms] map, as it is. *)
Lemma MergeSimilarTerms_shrinks_and_repeats (tn : TermNormalizer) (canonicals : list string) :
  GetCanonicalTerms tn canonicals →
  (canonicalCount (canonicalTerms (MergeSimilarTerms_in canonicals tn))
     ≤ canonicalCount (canonicalTerms tn))%nat ∧
  GetCanonicalTerms (MergeSimilarTerms_in canonicals tn) canonicals ∧
  MergeSimilarTerms_in canonicals (MergeSimilarTerms_in canonicals tn)
    = MergeSimilarTerms_in canonicals tn.
Proof.
  intros Hget. pose proof (GetCanonicalTerms_NoDup _ _ Hget) as Hnd.
  destruct (mergeLoop_assigns tn canonicals Hnd ∅) as (merged' & A & HA & HL).
  assert (canonicalTerms (MergeSimilarTerms_in canonicals tn)
          = foldl insertRule (canonicalTerms tn) A) as Hcts.
  { unfold MergeSimilarTerms_in. simpl. by rewrite HL. }
  split; [|split].
  - rewrite Hcts. by eapply canonicalCount_foldl.
  - destruct Hget as [Hp Hs]. split; [|exact Hs].
    etrans; [exact Hp|].
    apply NoDup_Permutation; [apply NoDup_fst_map_to_list..|].
    intros k. rewrite Hcts.
    assert (∀ m : gmap string string, k ∈ (map_to_list m).*1 ↔ is_Some (m !! k)) as Hk.
    { intros m. rewrite list_elem_of_fmap. split.
      - intros ([k' v] & -> & Hin). apply elem_of_map_to_list in Hin. by exists v.
      - intros [v Hv]. exists (k, v). split; [done | by apply elem_of_map_to_list]. }
    rewrite !Hk, foldl_insertRule_keys. split; [by left|].
    intros [H|H]; [done|].
    apply list_elem_of_fmap in H as ([k' v] & -> & Hin).
    rewrite Forall_forall in HA. destruct (HA _ Hin) as [_ Hc]. simpl in *.
    apply (Tiers.elem_of_perm _ _ _ Hp) in Hc. by apply Hk.
  - set (tn' := MergeSimilarTerms_in canonicals tn) in *.
    unfold MergeSimilarTerms_in at 1.
    assert (snd (mergeLoop tn' canonicals (∅, canonicalTerms tn')) = canonicalTerms tn')
      as ->.
    { change (mergeLoop tn' canonicals) with (mergeLoop tn canonicals).
      rewrite HL. cbn [snd]. rewrite Hcts. apply foldl_insertRule_twice. }
    reflexivity.
Qed.

Lemma tnXY_reachable : reachable tnXY.
Proof.
  unfold tnXY, after.
  eapply reach_normalize; [eapply reach_normalize; [apply TermNormalizer.reach_new|]|];
    (eexists; split; [reflexivity | apply surjective_pairing]).
Qed.

Lemma MergeSimilarTerms_shrinks_and_repeats_witness :
  (canonicalCount (canonicalTerms
     (MergeSimilarTerms_in ["data scientist x"; "data scientist y"] tnXY))
     ≤ canonicalCount (canonicalTerms tnXY))%nat ∧
  GetCanonicalTerms (MergeSimilarTerms_in ["data scientist x"; "data scientist y"] tnXY)
    ["data scientist x"; "data scientist y"] ∧
  MergeSimilarTerms_in ["data scientist x"; "data scientist y"]
    (MergeSimilarTerms_in ["data scientist x"; "data scientist y"] tnXY)
  = MergeSimilarTerms_in ["data scientist x"; "data scientist y"] tnXY.
Proof.
  apply (MergeSimilarTerms_shrinks_and_repeats tnXY ["data scientist x"; "data scientist y"]).
  split; [perm_small | sorted_small].
Defined.

(** C6 at the failing input.  After "data scientist x" and then
    "data scientist y", the second is an alias of the first, both seen
    once and of the same length.  [GetCanonicalTerms] enumerates the
    alias with the canonical term, in either order.  A first
    [MergeSimilarTerms] working on x, y keeps x and changes nothing; a
    second call made at once, working on y, x, keeps y and redirects the
    canonical term x to its own alias y. *)
Theorem MergeSimilarTerms_second_call_changes :
  reachable tnXY ∧
  canonicalTerms tnXY !! "data scientist x" = Some "data scientist x" ∧
  canonicalTerms tnXY !! "data scientist y" = Some "data scientist x" ∧
  GetCanonicalTerms tnXY ["data scientist x"; "data scientist y"] ∧
  MergeSimilarTerms tnXY
    (MergeSimilarTerms_in ["data scientist x"; "data scientist y"] tnXY) ∧
  canonicalTerms (MergeSimilarTerms_in ["data scientist x"; "data scientist y"] tnXY)
    = canonicalTerms tnXY ∧
  GetCanonicalTerms (MergeSimilarTerms_in ["data scientist x"; "data scientist y"] tnXY)
    ["data scientist y"; "data scientist x"] ∧
  MergeSimilarTerms
    (MergeSimilarTerms_in ["data scientist x"; "data scientist y"] tnXY)
    (MergeSimilarTerms_in ["data scientist y"; "data scientist x"]
       (MergeSimilarTerms_in ["data scientist x"; "data scientist y"] tnXY)) ∧
  canonicalTerms
    (MergeSimilarTerms_in ["data scientist y"; "data scientist x"]
       (MergeSimilarTerms_in ["data scientist x"; "data scientist y"] tnXY))
    !! "data scientist x" = Some "data scientist y".
Proof.
  split; [apply tnXY_reachable|].
  split; [by vm_compute|]. split; [by vm_compute|].
  split; [split; [perm_small | sorted_small]|].
  split; [exists ["data scientist x"; "data scientist y"];
          split; [split; [perm_small | sorted_small] | done]|].
  split; [by vm_compute|].
  split; [split; [perm_small | sorted_small]|].
  split; [exists ["data scientist y"; "data scientist x"];
          split; [split; [perm_small | sorted_small] | done]|].
  by vm_compute.
Qed.

End MergeTheorems.

(** ** The trie store *)

Module TrieProofs.
Import CategoryGrouper GrouperSpec TermNormalizer NormalizerSpec GoStringProofs.

Lemma labelsOK_newTrieNode P : labelsOK P newTrieNode.
Proof.
  intros rs n Hw He. destruct rs as [|ch rs]; simpl in Hw.
  - injection Hw as <-. done.
  - by rewrite lookup_empty in Hw.
Qed.

Lemma labelsOK_child P node ch child :
  labelsOK P node → children node !! ch = Some child → labelsOK P child.
Proof.
  intros Hok Hch rs n Hw He. apply (Hok (ch :: rs) n); [|done].
  simpl. by rewrite Hch.
Qed.

Lemma labelsOK_mono (P Q : string → Prop) node :
  (∀ s, P s → Q s) → labelsOK P node → labelsOK Q node.
Proof. intros HPQ Hok rs n Hw He. apply HPQ. by eapply Hok. Qed.

Lemma insertAt_labelsOK P rs canonical node :
  P canonical → labelsOK P node → labelsOK P (insertAt rs canonical node).
Proof.
  intros Hc. revert node. induction rs as [|ch rs IH]; intros node Hok rs' n Hw He.
  - destruct rs' as [|ch' rs']; simpl in Hw.
    + injection Hw as <-. done.
    + apply (Hok (ch' :: rs') n); done.
  - destruct rs' as [|ch' rs']; simpl in Hw.
    + injection Hw as <-. simpl in *. by apply (Hok [] node).
    + destruct (decide (ch = ch')) as [<-|Hne].
      * rewrite lookup_insert_eq in Hw.
        eapply IH; [|exact Hw|exact He].
        destruct (children node !! ch) as [child|] eqn:Hch; simpl.
        -- by eapply labelsOK_child.
        -- apply labelsOK_newTrieNode.
      * rewrite lookup_insert_ne in Hw by done.
        apply (Hok (ch' :: rs') n); done.
Qed.

Lemma longestFrom_label P rs node last :
  labelsOK P node →
  longestFrom rs node last = last ∨ P (longestFrom rs node last).
Proof.
  revert node last. induction rs as [|ch rs IH]; intros node last Hok; simpl; [by left|].
  destruct (children node !! ch) as [child|] eqn:Hch; [|by left].
  pose proof (labelsOK_child _ _ _ _ Hok Hch) as Hok'.
  destruct (isEnd child) eqn:He.
  - right. destruct (IH child (canonicalTerm child) Hok') as [->|H]; [|done].
    by apply (Hok' [] child).
  - by apply IH.
Qed.

End TrieProofs.

(** ** [NormalizeTerm] *)

Module NormalizeProofs.
Import CategoryGrouper GrouperSpec TermNormalizer NormalizerSpec GoStringProofs TrieProofs.

Lemma findBestFuzzyMatch_in_entry it term :
  findBestFuzzyMatch_in it term = "" ∨
  (findBestFuzzyMatch_in it term, findBestFuzzyMatch_in it term) ∈ it.
Proof.
  unfold findBestFuzzyMatch_in. induction it as [|[key canonical] it IH] using rev_ind.
  - by left.
  - rewrite foldl_app. simpl.
    destruct (foldl (fuzzyScan term) ("", 0%Q) it) as [bestMatch bestScore]. simpl in *.
    assert (bestMatch = "" ∨ (bestMatch, bestMatch) ∈ it ++ [(key, canonical)]) as Hkeep.
    { destruct IH as [->|H]; [by left | right; apply elem_of_app; by left]. }
    case_bool_decide as Hk; simpl; [|done].
    destruct (_ && _); simpl; [|done].
    right. subst key. apply elem_of_app. right. by apply list_elem_of_singleton.
Qed.

(** The four ways a call ends: empty input; a hit in the cache or in
    [CanonicalTerms]; an accepted prefix or fuzzy match; a new canonical
    term. *)
Lemma NormalizeTerm_in_cases it term tn r tn' :
  NormalizeTerm_in it term tn = (r, tn') →
  let cleaned := ToLower (TrimSpace term) in
  (cleaned = "" ∧ r = term ∧ tn' = tn)
  ∨ (cleaned ≠ "" ∧
     (fuzzyMatchCache tn !! cleaned = Some r ∨
      (fuzzyMatchCache tn !! cleaned = None ∧ canonicalTerms tn !! cleaned = Some r)) ∧
     tn' = insertIntoTrie cleaned r tn)
  ∨ (cleaned ≠ "" ∧ fuzzyMatchCache tn !! cleaned = None ∧
     canonicalTerms tn !! cleaned = None ∧ r ≠ "" ∧
     (r = findLongestPrefixMatch tn cleaned ∨ r = findBestFuzzyMatch_in it cleaned) ∧
     canonicalTerms tn' = <[cleaned := r]> (canonicalTerms tn) ∧
     fuzzyMatchCache tn' = <[cleaned := r]> (fuzzyMatchCache tn) ∧
     root tn' = insertAt (runes cleaned) r (root tn))
  ∨ (cleaned ≠ "" ∧ fuzzyMatchCache tn !! cleaned = None ∧
     canonicalTerms tn !! cleaned = None ∧ r = cleaned ∧
     tn' = registerCanonicalTerm cleaned tn).
Proof.
  unfold NormalizeTerm_in. intros H. set (cleaned := ToLower (TrimSpace term)) in *.
  destruct (isEmpty cleaned) eqn:Hempty.
  { left. apply isEmpty_true in Hempty. by injection H as <- <-. }
  apply isEmpty_false in Hempty. right.
  destruct (fuzzyMatchCache tn !! cleaned) as [canonical|] eqn:Hcache.
  { left. injection H as <- <-. auto. }
  destruct (canonicalTerms tn !! cleaned) as [canonical|] eqn:Hcts.
  { left. injection H as <- <-. auto. }
  right.
  destruct (negb (isEmpty (findLongestPrefixMatch tn cleaned)) &&
            isSimilarByPrefix cleaned (findLongestPrefixMatch tn cleaned)) eqn:Hprefix.
  { left. injection H as <- <-. apply andb_prop in Hprefix as [Hne _].
    apply negb_true_iff, isEmpty_false in Hne. repeat split; auto. }
  destruct (negb (isEmpty (findBestFuzzyMatch_in it cleaned))) eqn:Hfuzzy.
  { left. injection H as <- <-.
    apply negb_true_iff, isEmpty_false in Hfuzzy. repeat split; auto. }
  right. injection H as <- <-. auto.
Qed.

(** A call adds at most the cleaned term to the keys. *)
Lemma NormalizeTerm_in_keysClean it term tn r tn' :
  NormalizeTerm_in it term tn = (r, tn') → keysClean tn → keysClean tn'.
Proof.
  intros H Hk. apply NormalizeTerm_in_cases in H. cbv zeta in H.
  assert (ToLower (TrimSpace term) ≠ "" → cleanKey (ToLower (TrimSpace term))) as Hclean.
  { intros Hne. split; [apply cleaned_lower | split; [apply cleaned_trimmed | done]]. }
  destruct H as [(_ & _ & ->)|[(_ & _ & ->)|[(Hne & _ & _ & _ & _ & Hc & Hf & _)|(Hne & _ & _ & _ & ->)]]];
    try done.
  - intros k. rewrite Hc, Hf, !lookup_insert_is_Some.
    intros [[<-|[_ H]]|[<-|[_ H]]]; auto.
  - intros k. simpl. rewrite lookup_insert_is_Some.
    intros [[<-|[_ H]]|H]; auto.
Qed.

Lemma NormalizeTerm_in_NormInv it term tn r tn' :
  (∀ kv, kv ∈ it → kv ∈ map_to_list (canonicalTerms tn)) →
  NormalizeTerm_in it term tn = (r, tn') → NormInv tn →
  NormInv tn' ∧ (ToLower (TrimSpace term) ≠ "" → isCanonical (canonicalTerms tn') r).
Proof.
  intros Hit H (Hval & Hcache & Hkeys & Hlabels).
  pose proof (NormalizeTerm_in_keysClean _ _ _ _ _ H Hkeys) as Hkeys'.
  apply NormalizeTerm_in_cases in H. cbv zeta in H.
  set (cleaned := ToLower (TrimSpace term)) in *.
  destruct H as [(He & _ & ->)|[(Hne & Hhit & ->)|[(Hne & Hf0 & Hc0 & Hr & Hfrom & Hc & Hf & Hroot)|(Hne & Hf0 & Hc0 & -> & ->)]]].
  - split; [done | by intros]. 
  - assert (isCanonical (canonicalTerms tn) r) as Hcan.
    { destruct Hhit as [Hh|[_ Hh]]; [apply Hcache in Hh|]; by eapply Hval. }
    split; [|done]. split; [|split; [|split]]; try done. simpl.
    by apply insertAt_labelsOK.
  - assert (isCanonical (canonicalTerms tn) r) as Hcan.
    { destruct Hfrom as [->| ->].
      - destruct (longestFrom_label (isCanonical (canonicalTerms tn))
                    (runes cleaned) (root tn) "" Hlabels) as [Heq|Hl]; [|done].
        unfold findLongestPrefixMatch in Hr. congruence.
      - destruct (findBestFuzzyMatch_in_entry it cleaned) as [Heq|Hin]; [done|].
        apply Hit, elem_of_map_to_list in Hin. done. }
    assert (r ≠ cleaned) as Hrc by (intros ->; unfold isCanonical in Hcan; congruence).
    assert (∀ v, isCanonical (canonicalTerms tn) v → isCanonical (canonicalTerms tn') v)
      as Hmono.
    { intros v Hv. unfold isCanonical in *. rewrite Hc, lookup_insert_ne; [done|].
      intros <-. congruence. }
    split; [|intros _; by apply Hmono]. split; [|split; [|split]]; try done.
    + intros k v Hkv. rewrite Hc in Hkv. destruct (decide (cleaned = k)) as [<-|Hk].
      * rewrite lookup_insert_eq in Hkv. injection Hkv as <-. by apply Hmono.
      * rewrite lookup_insert_ne in Hkv by done. eapply Hmono, Hval, Hkv.
    + intros k v. rewrite Hc, Hf. destruct (decide (cleaned = k)) as [<-|Hk].
      * by rewrite !lookup_insert_eq.
      * rewrite !lookup_insert_ne by done. apply Hcache.
    + rewrite Hroot. apply insertAt_labelsOK; [by apply Hmono|].
      by eapply labelsOK_mono.
  - assert (∀ v, isCanonical (canonicalTerms tn) v →
                 isCanonical (canonicalTerms (registerCanonicalTerm cleaned tn)) v)
      as Hmono.
    { intros v Hv. unfold isCanonical in *. simpl. rewrite lookup_insert_ne; [done|].
      intros <-. congruence. }
    assert (isCanonical (canonicalTerms (registerCanonicalTerm cleaned tn)) cleaned)
      as Hnew by (unfold isCanonical; simpl; by rewrite lookup_insert_eq).
    split; [|done]. split; [|split; [|split]]; try done.
    + intros k v Hkv. simpl in Hkv. destruct (decide (cleaned = k)) as [<-|Hk].
      * rewrite lookup_insert_eq in Hkv. by injection Hkv as <-.
      * rewrite lookup_insert_ne in Hkv by done. eapply Hmono, Hval, Hkv.
    + intros k v. simpl. intros Hkv. destruct (decide (cleaned = k)) as [<-|Hk].
      * congruence.
      * rewrite lookup_insert_ne by done. by apply Hcache.
    + simpl. apply insertAt_labelsOK; [done|]. by eapply labelsOK_mono.
Qed.

Lemma NewTermNormalizer_NormInv : NormInv NewTermNormalizer.
Proof.
  unfold NormInv, keysClean, NewTermNormalizer. cbn [canonicalTerms fuzzyMatchCache root].
  split; [|split; [|split]].
  - intros k v H. by rewrite lookup_empty in H.
  - intros k v H. by rewrite lookup_empty in H.
  - intros k [[v H]|[v H]]; by rewrite lookup_empty in H.
  - apply labelsOK_newTrieNode.
Qed.

Lemma reachable_by_normalize_NormInv tn : reachable_by_normalize tn → NormInv tn.
Proof.
  induction 1 as [|tn term result tn' _ IH (it & Hp & Hn)].
  - apply NewTermNormalizer_NormInv.
  - eapply NormalizeTerm_in_NormInv; [|exact Hn|exact IH].
    intros kv Hkv. by rewrite <- Hp.
Qed.

(** On a normalizer that satisfies the invariant, a canonical term is
    returned as it is. *)
Lemma NormalizeTerm_in_canonical it c tn :
  NormInv tn → isCanonical (canonicalTerms tn) c →
  fst (NormalizeTerm_in it c tn) = c.
Proof.
  intros (Hval & Hcache & Hkeys & Hlabels) Hc.
  destruct (Hkeys c) as (Hlow & Htrim & Hne); [left; by exists c|].
  unfold NormalizeTerm_in. unfold isLower, isTrimmed in *. rewrite Htrim, Hlow.
  rewrite (proj2 (isEmpty_false c) Hne).
  destruct (fuzzyMatchCache tn !! c) as [v|] eqn:Hf.
  - apply Hcache in Hf. unfold isCanonical in Hc. simpl. congruence.
  - unfold isCanonical in Hc. by rewrite Hc.
Qed.

End NormalizeProofs.

Module NormalizeTheorems.
Import CategoryGrouper GrouperSpec TermNormalizer NormalizerSpec GoStringProofs.
Import TrieProofs NormalizeProofs MergeProofs MergeTheorems Examples.

Lemma NormalizeTerm_again it it' x c tn tn' :
  NormInv tn → (∀ kv, kv ∈ it → kv ∈ map_to_list (canonicalTerms tn)) →
  NormalizeTerm_in it x tn = (c, tn') →
  fst (NormalizeTerm_in it' c tn') = c.
Proof.
  intros Hinv Hit Hn.
  destruct (NormalizeTerm_in_NormInv _ _ _ _ _ Hit Hn Hinv) as [Hinv' Hcan].
  destruct (decide (ToLower (TrimSpace x) = "")) as [He|Hne].
  - apply NormalizeTerm_in_cases in Hn. cbv zeta in Hn.
    destruct Hn as [(_ & -> & ->)|[(Hne & _)|[(Hne & _)|(Hne & _)]]]; try done.
    unfold NormalizeTerm_in. by rewrite He.
  - apply NormalizeTerm_in_canonical; auto.
Qed.

(** On a normalizer on which only [NormalizeTerm] has run, if
    [NormalizeTerm(x)] returns [c] then [NormalizeTerm(c)] on the
    resulting normalizer returns, and returns [c]. *)
Lemma NormalizeTerm_idempotent (tn tn' : TermNormalizer) (x c : string) :
  reachable_by_normalize tn →
  NormalizeTerm x tn c tn' →
  (∃ tn'', NormalizeTerm c tn' c tn'') ∧
  ∀ c' tn'', NormalizeTerm c tn' c' tn'' → c' = c.
Proof.
  intros Hr (it & Hp & Hn).
  pose proof (reachable_by_normalize_NormInv _ Hr) as Hinv.
  assert (∀ it', fst (NormalizeTerm_in it' c tn') = c) as Hagain.
  { intros it'. eapply NormalizeTerm_again; [exact Hinv| |exact Hn].
    intros kv Hkv. by rewrite <- Hp. }
  split.
  - pose proof (Hagain (map_to_list (canonicalTerms tn'))) as H.
    destruct (NormalizeTerm_in (map_to_list (canonicalTerms tn')) c tn') as [c1 tn1] eqn:E.
    simpl in H. subst c1. exists tn1, (map_to_list (canonicalTerms tn')). by split.
  - intros c' tn'' (it' & _ & Hn'). by rewrite <- (Hagain it'), Hn'.
Qed.

Lemma NormalizeTerm_after term tn : NormalizeTerm term tn (returned term tn) (after term tn).
Proof. exists (map_to_list (canonicalTerms tn)). split; [done | apply surjective_pairing]. Qed.

Lemma NormalizeTerm_idempotent_witness :
  (∃ tn'', NormalizeTerm "data scientist"
      (after "Data Scientists" (after "data scientist" NewTermNormalizer))
      "data scientist" tn'') ∧
  ∀ c' tn'',
    NormalizeTerm "data scientist"
      (after "Data Scientists" (after "data scientist" NewTermNormalizer)) c' tn'' →
    c' = "data scientist".
Proof.
  apply (NormalizeTerm_idempotent (after "data scientist" NewTermNormalizer)
           (after "Data Scientists" (after "data scientist" NewTermNormalizer))
           "Data Scientists" "data scientist").
  - eapply reachN_normalize; [apply reachN_new | apply NormalizeTerm_after].
  - change "data scientist"
      with (returned "Data Scientists" (after "data scientist" NewTermNormalizer)) at 1.
    apply NormalizeTerm_after.
Defined.

Lemma tnTwo_reachable : reachable tnTwo.
Proof.
  unfold tnTwo. repeat (eapply reach_normalize; [|apply NormalizeTerm_after]).
  apply TermNormalizer.reach_new.
Qed.

Lemma tnMerged_reachable : reachable tnMerged.
Proof.
  eapply reach_merge; [apply tnTwo_reachable|].
  exists ["abcde abfgh"; "abcde abcde"]. split; [|done].
  split; [perm_small | sorted_small].
Qed.

(** C1 at the failing input.  "abcde abfgh" (seen twice) and
    "abcde abcde" are both canonical: the second scored 339/440 against
    the first when it came in, below 0.80.  [MergeSimilarTerms] scores
    the same pair with the arguments the other way round and gets
    197/220, above 0.85, because [calculateTokenOverlap] then counts the
    repeated token of "abcde abcde" twice.  So the merge redirects
    "abcde abcde" to "abcde abfgh" and leaves the trie labels.  Then
    [NormalizeTerm("abcde abcdes")] returns "abcde abcde", and
    [NormalizeTerm("abcde abcde")] on the resulting normalizer returns
    "abcde abfgh". *)
Theorem NormalizeTerm_not_idempotent_after_merge :
  reachable tnMerged ∧
  (calculateSimilarity "abcde abcde" "abcde abfgh" == 339 # 440)%Q ∧
  (calculateSimilarity "abcde abfgh" "abcde abcde" == 197 # 220)%Q ∧
  canonicalTerms tnMerged !! "abcde abcde" = Some "abcde abfgh" ∧
  NormalizeTerm "abcde abcdes" tnMerged
    "abcde abcde" (after "abcde abcdes" tnMerged) ∧
  NormalizeTerm "abcde abcde" (after "abcde abcdes" tnMerged)
    "abcde abfgh" (after "abcde abcde" (after "abcde abcdes" tnMerged)).
Proof.
  split; [apply tnMerged_reachable|].
  split; [by vm_compute|]. split; [by vm_compute|].
  split; [by vm_compute|]. split.
  - change "abcde abcde" with (returned "abcde abcdes" tnMerged) at 1.
    apply NormalizeTerm_after.
  - change "abcde abfgh" with (returned "abcde abcde" (after "abcde abcdes" tnMerged)) at 1.
    apply NormalizeTerm_after.
Qed.

Lemma tnAlias_reachable : reachable tnAlias.
Proof.
  unfold tnAlias. repeat (eapply reach_normalize; [|apply NormalizeTerm_after]).
  apply TermNormalizer.reach_new.
Qed.

Lemma tnAlias_keys : "data scientists" ∈ (map_to_list (canonicalTerms tnAlias)).*1.
Proof. apply list_elem_of_In. vm_compute. tauto. Qed.

(** Whatever the order [GetCanonicalTerms] returns, the alias is in it. *)
Lemma GetCanonicalTerms_alias_always result :
  GetCanonicalTerms tnAlias result → "data scientists" ∈ result.
Proof.
  intros [Hp _]. apply (Tiers.elem_of_perm _ _ _ (symmetry Hp)), tnAlias_keys.
Qed.

(** C2 at the failing input: after "data scientist" and then
    "data scientists", the second is an alias of the first and is a key
    of [CanonicalTerms]; [GetCanonicalTerms] returns it. *)
Theorem GetCanonicalTerms_returns_alias :
  reachable tnAlias ∧
  canonicalTerms tnAlias !! "data scientists" = Some "data scientist" ∧
  "data scientists" ∈ (map_to_list (canonicalTerms tnAlias)).*1 ∧
  GetCanonicalTerms tnAlias ["data scientist"; "data scientists"].
Proof.
  split; [|split; [|split]].
  - apply tnAlias_reachable.
  - by vm_compute.
  - apply tnAlias_keys.
  - split; [perm_small | sorted_small].
Qed.

(** Keys. *)





(** On ASCII input the keys are ASCII. *)










End NormalizeTheorems.

(** ** The pieces of the similarity score *)

Module SimilarityProofs.
Import CategoryGrouper TermNormalizer SimilaritySpec LevTable GrouperProofs GoStringProofs.

Lemma absTwo_abs x : absTwo x = Z.abs x.
Proof. unfold absTwo. destruct (Z.ltb_spec x 0); lia. Qed.

Lemma maxTwo_max a b : maxTwo a b = Z.max a b.
Proof. unfold maxTwo. destruct (Z.ltb_spec b a); lia. Qed.

Lemma maxTwo_len s1 s2 : maxTwo (len s1) (len s2) = maxLen_spec s1 s2.
Proof. rewrite maxTwo_max. unfold len, maxLen_spec. lia. Qed.

(** The longest common subsequence. *)

Lemma lcs_rec_nil_r a : lcs_rec a [] = 0%nat.
Proof. by destruct a. Qed.

Lemma lcs_rec_cons x a y b :
  lcs_rec (x :: a) (y :: b) =
  if decide (x = y) then S (lcs_rec a b)
  else Nat.max (lcs_rec a (y :: b)) (lcs_rec (x :: a) b).
Proof. reflexivity. Qed.

Lemma lcs_rec_upper s a b :
  s `sublist_of` a → s `sublist_of` b → (length s ≤ lcs_rec a b)%nat.
Proof.
  revert s b. induction a as [|x a IHa]; intros s b Ha Hb.
  - apply sublist_nil_r in Ha as ->. simpl. lia.
  - revert s Ha Hb. induction b as [|y b IHb]; intros s Ha Hb.
    + apply sublist_nil_r in Hb as ->. simpl. lia.
    + rewrite lcs_rec_cons.
      apply sublist_cons_r in Ha as [Ha|(s' & -> & Ha)].
      * pose proof (IHa _ _ Ha Hb). case_decide; [|lia].
        subst y. apply sublist_cons_r in Hb as [Hb|(s' & -> & Hb)].
        -- pose proof (IHa _ _ Ha Hb). lia.
        -- apply sublist_cons_l in Ha as (k1 & k2 & -> & Ha).
           assert (s' `sublist_of` k1 ++ x :: k2) as Ha'
             by (apply sublist_inserts_l, sublist_cons, Ha).
           pose proof (IHa _ _ Ha' Hb). simpl. lia.
      * apply sublist_cons_r in Hb as [Hb|(s'' & Heq & Hb)].
        -- assert (x :: s' `sublist_of` x :: a) as Ha' by (by apply sublist_skip).
           pose proof (IHb _ Ha' Hb). case_decide; [|lia].
           subst y. apply sublist_cons_l in Hb as (k1 & k2 & -> & Hb).
           assert (s' `sublist_of` k1 ++ x :: k2) as Hb'
             by (apply sublist_inserts_l, sublist_cons, Hb).
           pose proof (IHa _ _ Ha Hb'). simpl. lia.
        -- injection Heq as <- <-. rewrite decide_True by done.
           pose proof (IHa _ _ Ha Hb). simpl. lia.
Qed.

Lemma lcs_rec_witness a b :
  ∃ s, s `sublist_of` a ∧ s `sublist_of` b ∧ length s = lcs_rec a b.
Proof.
  revert b. induction a as [|x a IHa]; intros b.
  - exists []. split; [constructor | split; [apply sublist_nil_l | done]].
  - induction b as [|y b IHb].
    + exists []. split; [apply sublist_nil_l | split; [constructor | done]].
    + rewrite lcs_rec_cons. case_decide as Hxy.
      * subst y. destruct (IHa b) as (s & Ha & Hb & Hl).
        exists (x :: s). split; [by apply sublist_skip | split; [by apply sublist_skip|]].
        simpl. by rewrite Hl.
      * destruct (Nat.max_spec (lcs_rec a (y :: b)) (lcs_rec (x :: a) b)) as [[_ ->]|[_ ->]].
        -- destruct IHb as (s & Ha & Hb & Hl). exists s.
           split; [done | split; [by apply sublist_cons | done]].
        -- destruct (IHa (y :: b)) as (s & Ha & Hb & Hl). exists s.
           split; [by apply sublist_cons | split; done].
Qed.

Lemma lcs_rec_is_lcs a b : is_lcs (lcs_rec a b) a b.
Proof. split; [apply lcs_rec_witness | intros s; apply lcs_rec_upper]. Qed.

Lemma sublist_rev {A : Type} (s l : list A) : s `sublist_of` l → rev s `sublist_of` rev l.
Proof.
  induction 1 as [|x s l _ IH|x s l _ IH]; simpl.
  - constructor.
  - by apply sublist_app.
  - by apply sublist_inserts_r.
Qed.

Lemma is_lcs_rev n a b : is_lcs n (rev a) (rev b) → is_lcs n a b.
Proof.
  intros [(s & Ha & Hb & Hl) Hmax]. split.
  - exists (rev s). apply sublist_rev in Ha, Hb. rewrite rev_involutive in Ha, Hb.
    by rewrite length_rev.
  - intros s' Ha' Hb'. rewrite <- (length_rev s'). apply Hmax; by apply sublist_rev.
Qed.

Lemma is_lcs_unique n n' a b : is_lcs n a b → is_lcs n' a b → n = n'.
Proof.
  intros [(s & Ha & Hb & Hl) Hmax] [(s' & Ha' & Hb' & Hl') Hmax'].
  pose proof (Hmax _ Ha' Hb'). pose proof (Hmax' _ Ha Hb). lia.
Qed.

Lemma lcs_rec_rev a b : lcs_rec (rev a) (rev b) = lcs_rec a b.
Proof. eapply is_lcs_unique; [apply is_lcs_rev|]; apply lcs_rec_is_lcs. Qed.

Section LcsTable.
Variables b1 b2 : list ascii.
Let m := length b1.
Let n := length b2.

Lemma lcsD_step i j :
  (1 ≤ i ≤ m)%nat → (1 ≤ j ≤ n)%nat →
  lcsD b1 b2 i j =
  if decide (byteAt b1 (i - 1) = byteAt b2 (j - 1))
  then lcsD b1 b2 (i - 1) (j - 1) + 1
  else maxTwo (lcsD b1 b2 (i - 1) j) (lcsD b1 b2 i (j - 1)).
Proof.
  intros Hi Hj. rewrite maxTwo_max. unfold lcsD.
  destruct i as [|i]; [lia|]. destruct j as [|j]; [lia|].
  replace (S i - 1)%nat with i by lia. replace (S j - 1)%nat with j by lia.
  rewrite (rev_take_S b1 i), (rev_take_S b2 j) by (subst m n; lia).
  rewrite lcs_rec_cons. rewrite <- (rev_take_S b1 i), <- (rev_take_S b2 j) by (subst m n; lia).
  case_decide; lia.
Qed.

Lemma lcsCell_filled i k dp :
  (1 ≤ i ≤ m)%nat → (1 ≤ k ≤ n)%nat →
  filled (lcsD b1 b2) m n i k dp → filled (lcsD b1 b2) m n i (S k) (lcsCell b1 b2 i dp k).
Proof.
  intros Hi Hk [Hs Hc]. unfold lcsCell.
  assert (∀ v, v = lcsD b1 b2 i k → filled (lcsD b1 b2) m n i (S k) (mset dp i k v)) as Hset.
  { intros v ->. split; [by apply mset_shape|].
    intros i' j' Hi' Hj' Hknown. rewrite (mget_mset m n) by (done || lia).
    case_decide as Heq; [by destruct Heq as [<- <-]|]. apply Hc; [done..|]. lia. }
  pose proof (lcsD_step i k Hi Hk) as Hstep.
  case_decide; apply Hset; rewrite Hstep, !Hc by lia; done.
Qed.

Lemma zeros_filled : filled (lcsD b1 b2) m n 1 1 (replicate (m + 1) (replicate (n + 1) 0)).
Proof.
  split.
  - split; [by rewrite length_replicate|].
    apply Forall_replicate. by rewrite length_replicate.
  - intros i' j' Hi' Hj' Hknown. unfold mget.
    rewrite !lookup_total_replicate_2 by lia. unfold lcsD.
    destruct (decide (j' = 0%nat)) as [->|Hj0].
    + by rewrite take_0, lcs_rec_nil_r.
    + assert (i' = 0%nat) as -> by lia. by rewrite take_0.
Qed.

Lemma lcs_fill_correct :
  mget (foldl (λ dp i, foldl (lcsCell b1 b2 i) dp (seq 1 n))
          (replicate (m + 1) (replicate (n + 1) 0)) (seq 1 m)) m n
  = Z.of_nat (lcs_rec b1 b2).
Proof.
  destruct (fill_filled (lcsD b1 b2) m n (lcsCell b1 b2) lcsCell_filled
              _ zeros_filled) as [_ Hc].
  rewrite Hc by lia. unfold lcsD. subst m n. rewrite !firstn_all. by rewrite lcs_rec_rev.
Qed.

End LcsTable.

Lemma longestCommonSubsequence_lcs_rec s1 s2 :
  longestCommonSubsequence s1 s2 = Z.of_nat (lcs_rec (bytes s1) (bytes s2)).
Proof.
  unfold longestCommonSubsequence.
  destruct (length (bytes s1) =? 0)%nat eqn:H1; simpl.
  - apply Nat.eqb_eq in H1. by destruct (bytes s1).
  - destruct (length (bytes s2) =? 0)%nat eqn:H2; simpl.
    + apply Nat.eqb_eq in H2. destruct (bytes s2); [by rewrite lcs_rec_nil_r | done].
    + apply lcs_fill_correct.
Qed.

(** The longest common prefix. *)

Lemma find_fmap_S (f : nat → bool) (l : list nat) :
  find f (S <$> l) = S <$> find (λ i, f (S i)) l.
Proof.
  induction l as [|i l IH]; [done|]. simpl. destruct (f (S i)); [done | exact IH].
Qed.

Lemma firstMismatch_commonPrefix (b1 b2 : list ascii) :
  match find (λ i, bool_decide (byteAt b1 i ≠ byteAt b2 i))
             (seq 0 (Nat.min (length b1) (length b2))) with
  | Some i => take i b1
  | None => take (Nat.min (length b1) (length b2)) b1
  end = commonPrefix b1 b2.
Proof.
  revert b2. induction b1 as [|x b1 IH]; intros b2; [done|].
  destruct b2 as [|y b2]; [done|].
  cbn [length Nat.min seq find commonPrefix]. unfold byteAt at 1 2. cbn [nth].
  case_bool_decide as Hxy.
  - by rewrite decide_False by congruence.
  - rewrite decide_True by (by destruct (decide (x = y))).
    rewrite <- fmap_S_seq, find_fmap_S.
    specialize (IH b2). unfold byteAt in *. cbn [nth].
    destruct (find _ (seq 0 _)); simpl; by rewrite <- IH.
Qed.

Lemma longestCommonPrefix_commonPrefix s1 s2 :
  bytes (longestCommonPrefix s1 s2) = commonPrefix (bytes s1) (bytes s2).
Proof.
  unfold longestCommonPrefix. rewrite <- firstMismatch_commonPrefix.
  assert ((if (length (bytes s2) <? length (bytes s1))%nat
           then length (bytes s2) else length (bytes s1))
          = Nat.min (length (bytes s1)) (length (bytes s2))) as ->.
  { destruct (Nat.ltb_spec (length (bytes s2)) (length (bytes s1))); lia. }
  destruct (find _ _); apply bytes_ofBytes.
Qed.

Lemma len_longestCommonPrefix s1 s2 :
  len (longestCommonPrefix s1 s2) = Z.of_nat (length (commonPrefix (bytes s1) (bytes s2))).
Proof. unfold len. by rewrite longestCommonPrefix_commonPrefix. Qed.

(** Token overlap, for token lists without repetition. *)

Lemma set1_lookup (tokens1 : list string) t :
  default false (foldl (λ set1 t, <[t:=true]> set1) (∅ : gmap string bool) tokens1 !! t)
  = bool_decide (t ∈ tokens1).
Proof.
  assert (∀ (set1 : gmap string bool),
            (∀ k b, set1 !! k = Some b → b = true) →
            default false (foldl (λ set1 t, <[t:=true]> set1) set1 tokens1 !! t)
            = bool_decide (t ∈ tokens1 ∨ is_Some (set1 !! t))) as H.
  { induction tokens1 as [|t0 ts IH]; intros set1 Hset; simpl.
    - destruct (set1 !! t) as [b|] eqn:Hb; cbn [default].
      + pose proof (Hset _ _ Hb) as ->. symmetry. apply bool_decide_eq_true_2. right. done.
      + symmetry. apply bool_decide_eq_false_2.
        intros [H|[? H]]; [by apply elem_of_nil in H | done].
    - rewrite IH.
      + apply bool_decide_ext. rewrite lookup_insert_is_Some, elem_of_cons.
        destruct (decide (t0 = t)) as [->|Hne]; [tauto|]. split.
        * intros [H|[H|[_ H]]]; [by left; right | congruence | by right].
        * intros [[H|H]|H]; [congruence | by left | by right; right].
      + intros k b Hk. rewrite lookup_insert in Hk.
        case_decide; [by injection Hk as <- | by eapply Hset]. }
  rewrite H.
  - apply bool_decide_ext. split; [intros [?|[? Hx]]; [done | by rewrite lookup_empty in Hx] | by left].
  - intros k b Hk. by rewrite lookup_empty in Hk.
Qed.

Lemma overlap_count (P : string → bool) (tokens2 : list string) (z : Z) :
  foldl (λ overlap t, if P t then overlap + 1 else overlap) z tokens2
  = z + Z.of_nat (length (List.filter P tokens2)).
Proof.
  revert z. induction tokens2 as [|t ts IH]; intros z; simpl; [lia|].
  rewrite IH. destruct (P t); simpl; lia.
Qed.

Lemma size_intersection_nodup (tokens1 tokens2 : list string) :
  NoDup tokens2 →
  size ((list_to_set tokens1 : gset string) ∩ list_to_set tokens2)
  = length (List.filter (λ t, bool_decide (t ∈ tokens1)) tokens2).
Proof.
  intros Hnd.
  assert ((list_to_set tokens1 : gset string) ∩ list_to_set tokens2
          = list_to_set (List.filter (λ t, bool_decide (t ∈ tokens1)) tokens2)) as ->.
  { apply set_eq. intros t. rewrite elem_of_intersection, !elem_of_list_to_set. split.
    - intros [Ht1 Ht2]. apply list_elem_of_In, filter_In.
      split; [by apply list_elem_of_In | by apply bool_decide_eq_true_2].
    - intros Ht. apply list_elem_of_In, filter_In in Ht as [Ht2 Ht1].
      apply bool_decide_eq_true_1 in Ht1. split; [done | by apply list_elem_of_In]. }
  apply size_list_to_set. apply NoDup_ListNoDup, List.NoDup_filter, NoDup_ListNoDup, Hnd.
Qed.

Lemma calculateTokenOverlap_spec s1 s2 :
  NoDup (Fields s1) → NoDup (Fields s2) →
  calculateTokenOverlap (Fields s1) (Fields s2) = tokenOverlap_spec s1 s2.
Proof.
  intros H1 H2. unfold calculateTokenOverlap, tokenOverlap_spec, tokenSet.
  rewrite !size_list_to_set, size_intersection_nodup by done.
  destruct (Nat.eqb_spec (length (Fields s1)) 0) as [E1|E1],
           (Nat.eqb_spec (length (Fields s2)) 0) as [E2|E2]; simpl;
    repeat case_decide; try done; try lia.
  rewrite (overlap_count (λ t, default false (_ !! t))), maxTwo_max.
  rewrite (List.filter_ext _ (λ t, bool_decide (t ∈ Fields s1)))
    by (intros t; apply set1_lookup).
  do 2 f_equal; lia.
Qed.

(** Where neither string repeats a token, the score the code computes
    is the specified one. *)
Lemma calculateSimilarity_spec s1 s2 :
  0 < maxLen_spec s1 s2 →
  NoDup (Fields s1) → NoDup (Fields s2) →
  (calculateSimilarity s1 s2 == similarity_spec s1 s2)%Q.
Proof.
  intros Hmax H1 H2. unfold calculateSimilarity, similarity_spec.
  rewrite maxTwo_len, absTwo_abs.
  destruct (Z.eqb_spec (maxLen_spec s1 s2) 0) as [E|_]; [lia|].
  rewrite longestCommonSubsequence_lcs_rec, levenshteinDistance_lev_rec,
    calculateTokenOverlap_spec by done.
  unfold lengthPenalty_spec, prefixBonus_spec, lcsRatio_spec, levRatio_spec.
  rewrite len_longestCommonPrefix.
  destruct (Qlt_bool _ _), (_ && _); ring.
Qed.

End SimilarityProofs.

(** ** The similarity scorer *)

Module SimilarityTheorems.
Import CategoryGrouper TermNormalizer SimilaritySpec SimilarityProofs.

(** C7 at the failing input.  The tokens of "a a" are a, a and the one
    token of "a" is a: the token sets are equal, so the specified token
    overlap is 1 and the specified score 0.4; the code counts one token
    of "a" among two and gives the overlap 0.5 and the score 0.3.  With
    the arguments exchanged the code gives 0.4. *)
Theorem calculateSimilarity_repeated_token :
  (calculateTokenOverlap (Fields "a a") (Fields "a") == 1 # 2)%Q ∧
  (tokenOverlap_spec "a a" "a" == 1)%Q ∧
  (calculateSimilarity "a a" "a" == 3 # 10)%Q ∧
  (similarity_spec "a a" "a" == 4 # 10)%Q ∧
  (calculateSimilarity "a" "a a" == 4 # 10)%Q.
Proof. repeat split; vm_compute; reflexivity. Qed.

End SimilarityTheorems.


(** * Further properties *)

(** ** The edit distance is a metric *)

Module DistanceProperties.
Import CategoryGrouper GrouperProofs GoStringProofs.

Lemma edits_trans {A : Type} n k (a b c : list A) :
  edits n a b → edits k b c → edits (n + k) a c.
Proof.
  intros Hab Hbc. induction Hbc as [b|k b c d _ IH Hcd].
  - by rewrite Nat.add_0_r.
  - rewrite Nat.add_succ_r. eapply edits_S; [by apply IH | done].
Qed.

Lemma edit_length {A : Type} (a b : list A) :
  edit a b → (length a ≤ length b + 1 ∧ length b ≤ length a + 1)%nat.
Proof. intros [l c r|l c r|l c c' r]; rewrite !length_app; simpl; lia. Qed.

Lemma edits_length {A : Type} n (a b : list A) :
  edits n a b → (length a ≤ length b + n ∧ length b ≤ length a + n)%nat.
Proof.
  induction 1 as [a|n a b c _ IH He]; [lia|].
  apply edit_length in He. lia.
Qed.

Lemma lev_rec_le_max `{EqDecision A} (a b : list A) :
  (lev_rec a b ≤ Nat.max (length a) (length b))%nat.
Proof.
  revert b. induction a as [|x a IHa]; intros b; [simpl; lia|].
  destruct b as [|y b]; [simpl; lia|].
  rewrite lev_rec_cons. pose proof (IHa b). pose proof (cost_le_1 x y). simpl. lia.
Qed.

(** X1. [levenshteinDistance] is a metric on strings: it is 0 exactly
    for equal strings and it satisfies the triangle inequality. *)
Theorem levenshteinDistance_metric (a b c : string) :
  (levenshteinDistance a b = 0 ↔ a = b) ∧
  levenshteinDistance a c ≤ levenshteinDistance a b + levenshteinDistance b c.
Proof.
  rewrite !levenshteinDistance_lev_rec. split.
  - split.
    + intros H0. pose proof (lev_rec_edits (bytes a) (bytes b)) as He.
      assert (lev_rec (bytes a) (bytes b) = 0%nat) as E by lia. rewrite E in He.
      inversion He. by apply bytes_inj.
    + intros ->. by rewrite lev_rec_refl.
  - pose proof (edits_trans _ _ _ _ _ (lev_rec_edits (bytes a) (bytes b))
                  (lev_rec_edits (bytes b) (bytes c))) as He.
    apply edits_lev_rec in He. lia.
Qed.

(** X2. The distance is at least the difference of the lengths and at
    most the greater length. *)
Theorem levenshteinDistance_bounds (a b : string) :
  Z.abs (len a - len b) ≤ levenshteinDistance a b ≤ Z.max (len a) (len b).
Proof.
  rewrite levenshteinDistance_lev_rec. unfold len.
  pose proof (edits_length _ _ _ (lev_rec_edits (bytes a) (bytes b))).
  pose proof (lev_rec_le_max (bytes a) (bytes b)). lia.
Qed.

End DistanceProperties.

(** ** [GetGroup] and [AddRule] *)

Module GrouperProperties.
Import CategoryGrouper GrouperSpec GoStringProofs GrouperProofs RuleTable Tiers.

(** X3. Whatever the order of the map loops, [GetGroup] returns the
    empty string or the category of a rule; for an input that is empty
    or all white space it returns the empty string. *)
Theorem GetGroup_returns_rule_category (rules : gmap string string)
    (category result : string) :
  GetGroup rules category result →
  (result = "" ∨ ∃ key, rules !! key = Some result) ∧
  (ToLower (TrimSpace category) = "" → result = "").
Proof.
  intros (it2 & it3 & H2 & H3 & ->). unfold GetGroup_in.
  set (cleaned := ToLower (TrimSpace category)).
  destruct (isEmpty cleaned) eqn:He.
  { split; [by left | done]. }
  apply isEmpty_false in He. split; [|done].
  destruct (rules !! cleaned) as [g|] eqn:Hr; [right; by exists cleaned|].
  destruct (partialMatch it2 cleaned) as [g|] eqn:Hp.
  { apply partialMatch_Some in Hp as (key & Hin & _). right. exists key.
    apply elem_of_map_to_list. by apply (elem_of_perm _ _ _ H2). }
  pose proof (fuzzyMatch_inv it3 cleaned) as Hinv.
  destruct (fuzzyMatch it3 cleaned) as [bestMatch d]. simpl.
  destruct (isEmpty bestMatch); simpl; [by left|].
  destruct Hinv as [[Hst _]|(key & Hin & _)].
  - injection Hst as -> _. by left.
  - right. exists key. apply elem_of_map_to_list. by apply (elem_of_perm _ _ _ H3).
Qed.

Lemma GetGroup_total rules category : GetGroup rules category
  (GetGroup_in (map_to_list rules) (map_to_list rules) rules category).
Proof. by exists (map_to_list rules), (map_to_list rules). Qed.

Lemma GetGroup_returns_rule_category_witness :
  ("doctor" = "" ∨ ∃ key, NewCategoryGrouper !! key = Some "doctor") ∧
  (ToLower (TrimSpace " Docter ") = "" → "doctor" = "").
Proof.
  apply (GetGroup_returns_rule_category NewCategoryGrouper " Docter " "doctor").
  exists (map_to_list NewCategoryGrouper), (map_to_list NewCategoryGrouper).
  split; [reflexivity|]. split; [reflexivity|]. vm_compute. reflexivity.
Defined.

(** X5. On ASCII text, a rule added by [AddRule(term, group)] is found
    by the exact tier for every input whose lowercase-trimmed form is
    the lowercase [term], provided it is not empty; an input whose
    lowercase-trimmed form is another rule key keeps its category. *)
Theorem AddRule_then_GetGroup (it2 it3 : list (string * string))
    (rules : gmap string string) (term group y : string) :
  isASCII term = true →
  isASCII y = true →
  ToLower (TrimSpace y) ≠ "" →
  (ToLower (TrimSpace y) = ToLower term →
     GetGroup_in it2 it3 (AddRule rules term group) y = group) ∧
  (ToLower (TrimSpace y) ≠ ToLower term →
     ∀ g, rules !! ToLower (TrimSpace y) = Some g →
          GetGroup_in it2 it3 (AddRule rules term group) y = g).
Proof.
  intros _ _ Hne. apply isEmpty_false in Hne. unfold GetGroup_in, AddRule. rewrite Hne. split.
  - intros ->. by rewrite lookup_insert_eq.
  - intros Hk g Hg. by rewrite lookup_insert_ne, Hg.
Qed.

Lemma AddRule_then_GetGroup_witness :
  (ToLower (TrimSpace " Astronaut ") = ToLower "ASTRONAUT" →
     GetGroup_in (map_to_list (AddRule NewCategoryGrouper "ASTRONAUT" "pilot"))
       (map_to_list (AddRule NewCategoryGrouper "ASTRONAUT" "pilot"))
       (AddRule NewCategoryGrouper "ASTRONAUT" "pilot") " Astronaut " = "pilot") ∧
  (ToLower (TrimSpace " Astronaut ") ≠ ToLower "ASTRONAUT" →
     ∀ g, NewCategoryGrouper !! ToLower (TrimSpace " Astronaut ") = Some g →
          GetGroup_in (map_to_list (AddRule NewCategoryGrouper "ASTRONAUT" "pilot"))
            (map_to_list (AddRule NewCategoryGrouper "ASTRONAUT" "pilot"))
            (AddRule NewCategoryGrouper "ASTRONAUT" "pilot") " Astronaut " = g).
Proof.
  apply (AddRule_then_GetGroup
           (map_to_list (AddRule NewCategoryGrouper "ASTRONAUT" "pilot"))
           (map_to_list (AddRule NewCategoryGrouper "ASTRONAUT" "pilot"))
           NewCategoryGrouper "ASTRONAUT" "pilot" " Astronaut ").
  - reflexivity.
  - reflexivity.
  - vm_compute. discriminate.
Defined.

(** X6. The substring tier is complete on ASCII text: when the
    lowercase-trimmed input is not a rule key and some rule key is a
    complete word of it, [GetGroup] returns the category of a rule key
    that is a complete word of it, and the fuzzy tier is not
    consulted. *)
Theorem GetGroup_whole_word_found (rules : gmap string string)
    (it2 it3 : list (string * string)) (category key group : string) :
  isASCII category = true →
  it2 ≡ₚ map_to_list rules →
  ToLower (TrimSpace category) ≠ "" →
  rules !! ToLower (TrimSpace category) = None →
  rules !! key = Some group →
  wholeWordb (ToLower (TrimSpace category)) key = true →
  ∃ key', rules !! key' = Some (GetGroup_in it2 it3 rules category) ∧
          wholeWordb (ToLower (TrimSpace category)) key' = true.
Proof.
  intros _ H2 Hne Hnone Hkey Hw. unfold GetGroup_in.
  rewrite (proj2 (isEmpty_false _) Hne), Hnone.
  destruct (partialMatch it2 (ToLower (TrimSpace category))) as [g|] eqn:Hp.
  - apply partialMatch_Some in Hp as (key' & Hin & Hw'). exists key'.
    split; [|done]. apply elem_of_map_to_list. by apply (elem_of_perm _ _ _ H2).
  - assert ((key, group) ∈ it2) as Hin.
    { apply (elem_of_perm _ _ _ (symmetry H2)). by apply elem_of_map_to_list. }
    rewrite (partialMatch_None _ _ Hp _ _ Hin) in Hw. done.
Qed.

Lemma GetGroup_whole_word_found_witness :
  ∃ key', NewCategoryGrouper !! key'
            = Some (GetGroup_in (map_to_list NewCategoryGrouper) [] NewCategoryGrouper
                      "Senior Nurse") ∧
          wholeWordb (ToLower (TrimSpace "Senior Nurse")) key' = true.
Proof.
  apply (GetGroup_whole_word_found NewCategoryGrouper (map_to_list NewCategoryGrouper) []
           "Senior Nurse" "nurse" "healthcare professional").
  - reflexivity.
  - reflexivity.
  - vm_compute. discriminate.
  - vm_compute. reflexivity.
  - vm_compute. reflexivity.
  - vm_compute. reflexivity.
Defined.

End GrouperProperties.


(** ** The trie store: insertion, frequency and longest prefix *)

Module TrieProperties.
Import CategoryGrouper GrouperSpec TermNormalizer NormalizerSpec StoreSpec.
Import GoStringProofs TrieProofs.

Lemma walk_newTrieNode rs n : walk rs newTrieNode = Some n → rs = [] ∧ n = newTrieNode.
Proof.
  destruct rs as [|ch rs]; simpl.
  - by intros [= <-].
  - by rewrite lookup_empty.
Qed.

Lemma frequencyFrom_walk rs node :
  frequencyFrom rs node =
  match walk rs node with
  | Some n => if isEnd n then frequency n else 0
  | None => 0
  end.
Proof.
  revert node. induction rs as [|ch rs IH]; intros node; simpl; [done|].
  destruct (children node !! ch); [apply IH | done].
Qed.

(** The node at the end of the inserted path. *)
Lemma walk_insertAt_same rs canonical node :
  ∃ n, walk rs (insertAt rs canonical node) = Some n ∧
       isEnd n = true ∧ canonicalTerm n = canonical ∧
       frequency n = frequency (default newTrieNode (walk rs node)) + 1.
Proof.
  revert node. induction rs as [|ch rs IH]; intros node; simpl.
  - eexists. split; [done|]. by simpl.
  - rewrite lookup_insert_eq.
    destruct (IH (default newTrieNode (children node !! ch))) as (n & Hw & He & Hc & Hf).
    exists n. split; [done|]. split; [done|]. split; [done|]. rewrite Hf.
    destruct (children node !! ch) as [child|]; simpl; [done|].
    destruct (walk rs newTrieNode) as [n'|] eqn:Hn; [|done].
    by apply walk_newTrieNode in Hn as [_ ->].
Qed.

(** The nodes at the end of the other paths keep their flag, label and
    frequency; a path that appears with the insertion ends on a node that
    is not terminal. *)
Lemma walk_insertAt_other rs canonical node rs' n' :
  rs' ≠ rs → walk rs' (insertAt rs canonical node) = Some n' →
  match walk rs' node with
  | Some n => isEnd n' = isEnd n ∧ canonicalTerm n' = canonicalTerm n ∧
              frequency n' = frequency n
  | None => isEnd n' = false ∧ frequency n' = 0
  end.
Proof.
  revert node rs'. induction rs as [|ch rs IH]; intros node rs' Hne Hw.
  - destruct rs' as [|ch' rs']; [done|]. simpl in *. by rewrite Hw.
  - destruct rs' as [|ch' rs']; simpl in *.
    + by injection Hw as <-.
    + destruct (decide (ch = ch')) as [<-|Hch].
      * rewrite lookup_insert_eq in Hw.
        assert (rs' ≠ rs) as Hne' by congruence.
        specialize (IH _ _ Hne' Hw).
        destruct (children node !! ch) as [child|]; simpl in *; [done|].
        destruct (walk rs' newTrieNode) as [n|] eqn:Hn; [|done].
        apply walk_newTrieNode in Hn as [_ ->]. simpl in IH. tauto.
      * rewrite lookup_insert_ne in Hw by done.
        destruct (children node !! ch'); [by rewrite Hw | done].
Qed.

Lemma walk_insertAt_kept rs canonical node rs' n :
  rs' ≠ rs → walk rs' node = Some n →
  ∃ n', walk rs' (insertAt rs canonical node) = Some n' ∧
        isEnd n' = isEnd n ∧ canonicalTerm n' = canonicalTerm n ∧
        frequency n' = frequency n.
Proof.
  revert node rs'. induction rs as [|ch rs IH]; intros node rs' Hne Hw.
  - destruct rs' as [|ch' rs']; [done|]. simpl in *. eauto.
  - destruct rs' as [|ch' rs']; simpl in *.
    + injection Hw as <-. eexists. split; [done|]. by simpl.
    + destruct (children node !! ch') as [child|] eqn:Hc; [|done].
      destruct (decide (ch = ch')) as [<-|Hch].
      * rewrite lookup_insert_eq, Hc. simpl. apply IH; [congruence | done].
      * rewrite lookup_insert_ne, Hc by done. eauto.
Qed.

Lemma terminalAt_insertAt_same rs canonical node :
  terminalAt rs (insertAt rs canonical node).
Proof. destruct (walk_insertAt_same rs canonical node) as (n & Hw & He & _). by exists n. Qed.

Lemma terminalAt_insertAt rs canonical node rs' :
  terminalAt rs' node → terminalAt rs' (insertAt rs canonical node).
Proof.
  intros (n & Hw & He). destruct (decide (rs' = rs)) as [->|Hne].
  - apply terminalAt_insertAt_same.
  - destruct (walk_insertAt_kept rs canonical _ _ _ Hne Hw) as (n' & Hw' & He' & _).
    exists n'. split; [done | congruence].
Qed.

Lemma wfTrie_newTrieNode : wfTrie newTrieNode.
Proof. intros rs n Hw. apply walk_newTrieNode in Hw as [_ ->]. simpl. split; [done | discriminate]. Qed.

Lemma wfTrie_insertAt rs canonical node : wfTrie node → wfTrie (insertAt rs canonical node).
Proof.
  intros Hwf rs' n' Hw. destruct (decide (rs' = rs)) as [->|Hne].
  - destruct (walk_insertAt_same rs canonical node) as (n & Hw' & He & _ & Hf).
    rewrite Hw in Hw'. injection Hw' as ->. split; [congruence|]. intros _. rewrite Hf.
    destruct (walk rs node) as [n0|] eqn:H0; simpl; [|lia].
    destruct (Hwf _ _ H0) as [Hz Hp]. destruct (isEnd n0); [specialize (Hp eq_refl) | rewrite Hz by done]; lia.
  - pose proof (walk_insertAt_other _ _ _ _ _ Hne Hw) as Ho.
    destruct (walk rs' node) as [n|] eqn:H0.
    + destruct Ho as (He & _ & Hf). rewrite He, Hf. by eapply Hwf.
    + destruct Ho as [He Hf]. split; [done | congruence].
Qed.

Lemma frequencyFrom_insertAt_same rs canonical node :
  wfTrie node →
  frequencyFrom rs (insertAt rs canonical node) = frequencyFrom rs node + 1.
Proof.
  intros Hwf. rewrite !frequencyFrom_walk.
  destruct (walk_insertAt_same rs canonical node) as (n & -> & -> & _ & ->).
  destruct (walk rs node) as [n0|] eqn:H0; simpl; [|done].
  destruct (Hwf _ _ H0) as [Hz _]. destruct (isEnd n0); [done | by rewrite Hz].
Qed.

Lemma frequencyFrom_insertAt_other rs canonical node rs' :
  rs' ≠ rs →
  frequencyFrom rs' (insertAt rs canonical node) = frequencyFrom rs' node.
Proof.
  intros Hne. rewrite !frequencyFrom_walk.
  destruct (walk rs' (insertAt rs canonical node)) as [n'|] eqn:Hw.
  - pose proof (walk_insertAt_other _ _ _ _ _ Hne Hw) as Ho.
    destruct (walk rs' node) as [n|].
    + destruct Ho as (-> & _ & ->). done.
    + destruct Ho as [-> _]. done.
  - destruct (walk rs' node) as [n|] eqn:H0; [|done].
    destruct (walk_insertAt_kept rs canonical _ _ _ Hne H0) as (n' & Hw' & _).
    congruence.
Qed.

Lemma longestFrom_insertAt_same rs canonical node last :
  longestFrom rs (insertAt rs canonical node) last
  = (if decide (rs = []) then last else canonical).
Proof.
  revert last node. induction rs as [|ch rs IH]; intros last node; [done|].
  rewrite decide_False by done. simpl. rewrite lookup_insert_eq.
  destruct rs as [|ch' rs]; [done|].
  specialize (IH (if isEnd (insertAt (ch' :: rs) canonical
                             (default newTrieNode (children node !! ch)))
                  then canonicalTerm (insertAt (ch' :: rs) canonical
                             (default newTrieNode (children node !! ch)))
                  else last)
                 (default newTrieNode (children node !! ch))).
  by rewrite decide_False in IH by done.
Qed.

(** X7. Insertion and frequency.  In a trie built by [insertIntoTrie],
    inserting a term raises its frequency by exactly one and leaves the
    frequency of every term with other runes as it was; the inserted
    term is then found with the inserted label. *)
Theorem insertIntoTrie_getFrequency (tn : TermNormalizer) (term canonical other : string) :
  wfTrie (root tn) →
  getFrequency (insertIntoTrie term canonical tn) term = getFrequency tn term + 1 ∧
  (runes other ≠ runes term →
     getFrequency (insertIntoTrie term canonical tn) other = getFrequency tn other) ∧
  findLongestPrefixMatch (insertIntoTrie term canonical tn) term
    = (if decide (runes term = []) then "" else canonical).
Proof.
  intros Hwf. unfold getFrequency, findLongestPrefixMatch, insertIntoTrie. cbn [root].
  split; [|split].
  - by apply frequencyFrom_insertAt_same.
  - intros Hne. by apply frequencyFrom_insertAt_other.
  - apply longestFrom_insertAt_same.
Qed.

Lemma insertIntoTrie_getFrequency_witness :
  getFrequency (insertIntoTrie "nurse" "nurse" NewTermNormalizer) "nurse"
    = getFrequency NewTermNormalizer "nurse" + 1 ∧
  (runes "nurses" ≠ runes "nurse" →
     getFrequency (insertIntoTrie "nurse" "nurse" NewTermNormalizer) "nurses"
       = getFrequency NewTermNormalizer "nurses") ∧
  findLongestPrefixMatch (insertIntoTrie "nurse" "nurse" NewTermNormalizer) "nurse"
    = (if decide (runes "nurse" = []) then "" else "nurse").
Proof.
  apply (insertIntoTrie_getFrequency NewTermNormalizer "nurse" "nurse" "nurses").
  apply wfTrie_newTrieNode.
Defined.

(** The longest terminal prefix. *)

Lemma longestFrom_spec rs node last :
  (longestFrom rs node last = last ∧
   ∀ p n, p `prefix_of` rs → p ≠ [] → walk p node = Some n → isEnd n = false)
  ∨
  (∃ p n, p `prefix_of` rs ∧ p ≠ [] ∧ walk p node = Some n ∧ isEnd n = true ∧
          (∀ p' n', p' `prefix_of` rs → (length p < length p')%nat →
                    walk p' node = Some n' → isEnd n' = false) ∧
          longestFrom rs node last = canonicalTerm n).
Proof.
  revert node last. induction rs as [|ch rs IH]; intros node last.
  - left. split; [done|]. intros p n Hp Hne. apply prefix_nil_inv in Hp. done.
  - destruct (children node !! ch) as [child|] eqn:Hc.
    + destruct (IH child (if isEnd child then canonicalTerm child else last))
        as [[Hr Hno]|(p & n & [k ->] & Hne & Hw & He & Hlong & Hr)].
      * destruct (isEnd child) eqn:Hend.
        -- right. exists [ch], child.
           split; [by exists rs|]. split; [done|]. split; [simpl; by rewrite Hc|].
           split; [done|]. split.
           ++ intros p' n' [k' Hk'] Hlen Hw'. destruct p' as [|c p']; [simpl in Hlen; lia|].
              injection Hk' as <- ->. simpl in Hw'. rewrite Hc in Hw'.
              apply (Hno p' n'); [by exists k' | | done].
              destruct p'; [simpl in Hlen; lia | done].
           ++ simpl. by rewrite Hc, Hend.
        -- left. split; [simpl; by rewrite Hc, Hend|].
           intros p n [k Hk] Hne Hw. destruct p as [|c p]; [done|].
           injection Hk as <- ->. simpl in Hw. rewrite Hc in Hw.
           destruct p as [|c' p]; [simpl in Hw; by injection Hw as <-|].
           apply (Hno (c' :: p) n); [by exists k | done | done].
      * right. exists (ch :: p), n.
        split; [by exists k|]. split; [done|]. split; [simpl; by rewrite Hc|].
        split; [done|]. split.
        -- intros p' n' [k' Hk'] Hlen Hw'. destruct p' as [|c p']; [simpl in Hlen; lia|].
           injection Hk' as <- Hk'. simpl in Hw'. rewrite Hc in Hw'.
           apply (Hlong p' n'); [exists k'; by rewrite Hk' | simpl in Hlen; lia | done].
        -- simpl. by rewrite Hc.
    + left. split; [simpl; by rewrite Hc|].
      intros p n [k Hk] Hne Hw. destruct p as [|c p]; [done|].
      injection Hk as <- ->. simpl in Hw. by rewrite Hc in Hw.
Qed.

(** X8. [findLongestPrefixMatch] returns the label of the longest
    non-empty prefix of the term's runes that is a terminal path of the
    trie, and the empty string when no such prefix is. *)
Theorem findLongestPrefixMatch_longest (tn : TermNormalizer) (term : string) :
  (findLongestPrefixMatch tn term = "" ∧
   ∀ p n, p `prefix_of` runes term → p ≠ [] → walk p (root tn) = Some n →
          isEnd n = false)
  ∨
  (∃ p n, p `prefix_of` runes term ∧ p ≠ [] ∧
          walk p (root tn) = Some n ∧ isEnd n = true ∧
          (∀ p' n', p' `prefix_of` runes term → (length p < length p')%nat →
                    walk p' (root tn) = Some n' → isEnd n' = false) ∧
          findLongestPrefixMatch tn term = canonicalTerm n).
Proof. apply longestFrom_spec. Qed.

End TrieProperties.


(** ** What every reachable normalizer satisfies *)

Module StoreProperties.
Import CategoryGrouper GrouperSpec TermNormalizer NormalizerSpec StoreSpec.
Import GoStringProofs TrieProofs NormalizeProofs MergeProofs TrieProperties.

(** After a call with an input that is not blank, the trie is the old
    one with the cleaned term inserted under the returned label. *)
Lemma NormalizeTerm_in_root it term tn r tn' :
  NormalizeTerm_in it term tn = (r, tn') →
  ToLower (TrimSpace term) ≠ "" →
  root tn' = insertAt (runes (ToLower (TrimSpace term))) r (root tn).
Proof.
  intros H Hne. apply NormalizeTerm_in_cases in H. cbv zeta in H.
  destruct H as [(He & _)|[(_ & _ & ->)|[(_ & _ & _ & _ & _ & _ & _ & Hr)|(_ & _ & _ & -> & ->)]]];
    done.
Qed.

(** What a call does to [CanonicalTerms] and to the cache: nothing, or
    one new key, the cleaned term. *)
Lemma NormalizeTerm_in_maps it term tn r tn' :
  NormalizeTerm_in it term tn = (r, tn') →
  (canonicalTerms tn' = canonicalTerms tn ∧ fuzzyMatchCache tn' = fuzzyMatchCache tn) ∨
  (canonicalTerms tn !! ToLower (TrimSpace term) = None ∧
   fuzzyMatchCache tn !! ToLower (TrimSpace term) = None ∧
   canonicalTerms tn' = <[ToLower (TrimSpace term) := r]> (canonicalTerms tn) ∧
   (fuzzyMatchCache tn' = <[ToLower (TrimSpace term) := r]> (fuzzyMatchCache tn) ∨
    fuzzyMatchCache tn' = fuzzyMatchCache tn)).
Proof.
  intros H. apply NormalizeTerm_in_cases in H. cbv zeta in H.
  destruct H as [(_ & _ & ->)|[(_ & _ & ->)|[(_ & Hf & Hc & _ & _ & Hc' & Hf' & _)|(_ & Hf & Hc & -> & ->)]]];
    [by left | by left | right; repeat split; auto | right; repeat split; auto].
Qed.

(** The merge loop again, recording that the kept term is enumerated. *)
Lemma mergePair_assigns2 tn canonicals i j :
  NoDup canonicals → (i < j < length canonicals)%nat →
  assigns (mergeAssignment2 canonicals) (λ st, mergePair tn canonicals i st j).
Proof.
  intros Hnd Hij merged. unfold mergePair.
  assert (canonicals !!! i ≠ canonicals !!! j) as Hne.
  { intros Heq.
    assert (canonicals !! i = Some (canonicals !!! i)) as Hi
      by (apply list_lookup_lookup_total_lt; lia).
    assert (canonicals !! j = Some (canonicals !!! i)) as Hj
      by (rewrite Heq; apply list_lookup_lookup_total_lt; lia).
    pose proof (NoDup_lookup _ _ _ _ Hnd Hi Hj). lia. }
  assert (canonicals !!! i ∈ canonicals) as Hi
    by (apply list_elem_of_lookup_total_2; lia).
  assert (canonicals !!! j ∈ canonicals) as Hj
    by (apply list_elem_of_lookup_total_2; lia).
  set (term1 := canonicals !!! i) in *. set (term2 := canonicals !!! j) in *.
  destruct (bool_decide (is_Some (merged !! term1)));
    [exists merged, []; split; [constructor | done]|].
  destruct (bool_decide (is_Some (merged !! term2)));
    [exists merged, []; split; [constructor | done]|].
  destruct (Qle_bool _ _); [|exists merged, []; split; [constructor | done]].
  destruct (_ || _).
  - exists (<[term2:=term1]> merged), [(term2, term1)]. split; [|done].
    constructor; [|constructor]. split; simpl; [congruence | done].
  - exists (<[term1:=term2]> merged), [(term1, term2)]. split; [|done].
    constructor; [|constructor]. split; simpl; [congruence | done].
Qed.

Lemma mergeLoop_assigns2 tn canonicals :
  NoDup canonicals →
  assigns (mergeAssignment2 canonicals) (mergeLoop tn canonicals).
Proof.
  intros Hnd. unfold mergeLoop.
  apply (assigns_foldl _ (λ st i, foldl (mergePair tn canonicals i) st
                                     (seq (i + 1) (length canonicals - (i + 1))))).
  intros i Hi. apply assigns_foldl. intros j Hj.
  apply elem_of_seq in Hi, Hj. apply mergePair_assigns2; [done | lia].
Qed.

(** What a merge does to [CanonicalTerms]: it reassigns keys to keys. *)
Lemma MergeSimilarTerms_in_maps canonicals tn :
  GetCanonicalTerms tn canonicals →
  ∃ A, Forall (λ kv, kv.1 ≠ kv.2 ∧ is_Some (canonicalTerms tn !! kv.1) ∧
                     is_Some (canonicalTerms tn !! kv.2)) A ∧
       canonicalTerms (MergeSimilarTerms_in canonicals tn)
       = foldl insertRule (canonicalTerms tn) A.
Proof.
  intros Hget. pose proof (GetCanonicalTerms_NoDup _ _ Hget) as Hnd.
  destruct (mergeLoop_assigns2 tn canonicals Hnd ∅) as (merged' & A & HA & HL).
  exists A. split.
  - eapply Forall_impl; [exact HA|]. intros [k v] (Hne & Hk & Hv). simpl in *.
    split; [done|]. split; by apply (GetCanonicalTerms_keys _ _ _ Hget).
  - unfold MergeSimilarTerms_in. cbn [canonicalTerms]. by rewrite HL.
Qed.

Lemma foldl_insertRule_lookup (A : list (string * string)) (m : gmap string string) k v :
  foldl insertRule m A !! k = Some v → m !! k = Some v ∨ (k, v) ∈ A.
Proof.
  revert m. induction A as [|[k0 v0] A IH]; intros m H; simpl in *; [by left|].
  apply IH in H as [H|H]; [|right; by apply elem_of_cons; right].
  unfold insertRule in H. simpl in H. destruct (decide (k0 = k)) as [->|Hne].
  - rewrite lookup_insert_eq in H. injection H as ->. right. apply list_elem_of_here.
  - rewrite lookup_insert_ne in H by done. by left.
Qed.

Lemma StoreInv_new : StoreInv NewTermNormalizer.
Proof.
  unfold StoreInv, keysClean, NewTermNormalizer. cbn [canonicalTerms fuzzyMatchCache root].
  split; [|split; [|split; [|split; [|split]]]].
  - intros k [[v H]|[v H]]; by rewrite lookup_empty in H.
  - intros k v H. by rewrite lookup_empty in H.
  - intros k v H. by rewrite lookup_empty in H.
  - apply labelsOK_newTrieNode.
  - apply wfTrie_newTrieNode.
  - intros k [v H]. by rewrite lookup_empty in H.
Qed.

Lemma StoreInv_normalize it term tn r tn' :
  (∀ kv, kv ∈ it → kv ∈ map_to_list (canonicalTerms tn)) →
  NormalizeTerm_in it term tn = (r, tn') → StoreInv tn →
  StoreInv tn' ∧
  (ToLower (TrimSpace term) ≠ "" → r ≠ "" ∧ is_Some (canonicalTerms tn' !! r)).
Proof.
  intros Hit H (Hkeys & Hval & Hcache & Hlabels & Hwf & Hterm).
  pose proof (NormalizeTerm_in_keysClean _ _ _ _ _ H Hkeys) as Hkeys'.
  pose proof (NormalizeTerm_in_root _ _ _ _ _ H) as Hroot.
  pose proof (NormalizeTerm_in_maps _ _ _ _ _ H) as Hmaps.
  apply NormalizeTerm_in_cases in H. cbv zeta in H.
  set (cleaned := ToLower (TrimSpace term)) in *.
  assert (cleaned = "" ∨ cleaned ≠ "" ∧ is_Some (canonicalTerms tn' !! r)) as Hr.
  { destruct H as [(He & _)|[(Hne & Hhit & ->)|[(Hne & _ & _ & Hrne & Hfrom & Hc & _)|(Hne & _ & _ & -> & ->)]]].
    - by left.
    - right. split; [done|]. cbn [insertIntoTrie canonicalTerms].
      destruct Hhit as [Hh|[_ Hh]]; [by eapply Hcache | by eapply Hval].
    - right. split; [done|]. rewrite Hc, lookup_insert_is_Some.
      destruct (decide (cleaned = r)); [by left | right; split; [done|]].
      destruct Hfrom as [->| ->].
      + destruct (longestFrom_label (λ v, is_Some (canonicalTerms tn !! v))
                    (runes cleaned) (root tn) "" Hlabels) as [Heq|Hl]; [|done].
        unfold findLongestPrefixMatch in *. congruence.
      + destruct (findBestFuzzyMatch_in_entry it cleaned) as [Heq|Hin]; [congruence|].
        apply Hit, elem_of_map_to_list in Hin. by eexists.
    - right. split; [done|]. cbn [registerCanonicalTerm insertIntoTrie canonicalTerms].
      rewrite lookup_insert_eq. by eexists. }
  destruct Hr as [He|[Hne Hrkey]].
  { destruct H as [(_ & _ & ->)|[(Hne & _)|[(Hne & _)|(Hne & _)]]]; done. }
  specialize (Hroot Hne).
  assert (∀ k, is_Some (canonicalTerms tn !! k) → is_Some (canonicalTerms tn' !! k)) as Hdom.
  { intros k Hk. destruct Hmaps as [[-> _]|(_ & _ & -> & _)]; [done|].
    apply lookup_insert_is_Some. destruct (decide (cleaned = k)); auto. }
  assert (∀ k, is_Some (canonicalTerms tn' !! k) →
               is_Some (canonicalTerms tn !! k) ∨ k = cleaned) as Hdom'.
  { intros k Hk. destruct Hmaps as [[<- _]|(_ & _ & Hc & _)]; [by left|].
    rewrite Hc in Hk. apply lookup_insert_is_Some in Hk as [<-|[_ Hk]]; auto. }
  split.
  - split; [done|]. split; [|split; [|split; [|split]]].
    + intros k v Hkv. destruct Hmaps as [[Hc _]|(_ & _ & Hc & _)]; rewrite Hc in Hkv.
      * eapply Hdom, Hval, Hkv.
      * destruct (decide (cleaned = k)) as [<-|Hk].
        -- rewrite lookup_insert_eq in Hkv. by injection Hkv as <-.
        -- rewrite lookup_insert_ne in Hkv by done. eapply Hdom, Hval, Hkv.
    + intros k v Hkv. destruct Hmaps as [[_ Hf]|(_ & _ & _ & [Hf|Hf])]; rewrite Hf in Hkv.
      * eapply Hdom, Hcache, Hkv.
      * destruct (decide (cleaned = k)) as [<-|Hk].
        -- rewrite lookup_insert_eq in Hkv. by injection Hkv as <-.
        -- rewrite lookup_insert_ne in Hkv by done. eapply Hdom, Hcache, Hkv.
      * eapply Hdom, Hcache, Hkv.
    + rewrite Hroot. apply insertAt_labelsOK; [done|].
      eapply labelsOK_mono; [|exact Hlabels]. intros s Hs. by apply Hdom.
    + rewrite Hroot. by apply wfTrie_insertAt.
    + intros k Hk. rewrite Hroot. apply Hdom' in Hk as [Hk| ->].
      * by apply terminalAt_insertAt, Hterm.
      * apply terminalAt_insertAt_same.
  - intros _. split; [|done]. destruct Hrkey as [v Hv].
    destruct (Hkeys' r) as (_ & _ & Hrne); [left; by eexists | done].
Qed.

Lemma StoreInv_merge canonicals tn :
  GetCanonicalTerms tn canonicals → StoreInv tn → StoreInv (MergeSimilarTerms_in canonicals tn).
Proof.
  intros Hget (Hkeys & Hval & Hcache & Hlabels & Hwf & Hterm).
  destruct (MergeSimilarTerms_in_maps _ _ Hget) as (A & HA & Hc).
  assert (∀ k, is_Some (canonicalTerms (MergeSimilarTerms_in canonicals tn) !! k)
               ↔ is_Some (canonicalTerms tn !! k)) as Hdom.
  { intros k. rewrite Hc, foldl_insertRule_keys. split; [|by left].
    intros [Hk|Hk]; [done|].
    apply list_elem_of_fmap in Hk as ([k' v] & -> & Hin).
    rewrite Forall_forall in HA. by destruct (HA _ Hin) as (_ & Hk & _). }
  split; [|split; [|split; [|split; [|split]]]].
  - intros k [Hk|Hk]; apply Hkeys; [left; by apply Hdom | by right].
  - intros k v Hkv. apply Hdom. rewrite Hc in Hkv.
    apply foldl_insertRule_lookup in Hkv as [Hkv|Hin]; [by eapply Hval|].
    rewrite Forall_forall in HA. by destruct (HA _ Hin) as (_ & _ & Hv).
  - intros k v Hkv. apply Hdom. by eapply Hcache.
  - eapply labelsOK_mono; [|exact Hlabels]. intros s Hs. by apply Hdom.
  - done.
  - intros k Hk. apply Hterm. by apply Hdom.
Qed.

Lemma reachable_StoreInv tn : reachable tn → StoreInv tn.
Proof.
  induction 1 as [|tn term result tn' _ IH (it & Hp & Hn)|tn tn' _ IH (canonicals & Hget & ->)].
  - apply StoreInv_new.
  - eapply StoreInv_normalize; [|exact Hn|exact IH].
    intros kv Hkv. by rewrite <- Hp.
  - by apply StoreInv_merge.
Qed.

End StoreProperties.


(** ** Runs of a normalizer *)

Module RunProperties.
Import CategoryGrouper GrouperSpec TermNormalizer NormalizerSpec StoreSpec.
Import GoStringProofs TrieProofs NormalizeProofs MergeProofs TrieProperties StoreProperties.
Import Examples.

Lemma reachable_step tn tn' : reachable tn → step tn tn' → reachable tn'.
Proof.
  intros Hr [(term & result & Hn)|Hm].
  - by eapply reach_normalize.
  - by eapply reach_merge.
Qed.

(** X9. In a reachable normalizer, a call of [NormalizeTerm] with an
    ASCII input that is not blank raises the frequency of the
    lowercase-trimmed term by exactly one and leaves the frequency of
    every term with other runes as it was. *)
Theorem NormalizeTerm_counts_once (tn tn' : TermNormalizer) (x c other : string) :
  reachable tn →
  isASCII x = true →
  NormalizeTerm x tn c tn' →
  ToLower (TrimSpace x) ≠ "" →
  getFrequency tn' (ToLower (TrimSpace x)) = getFrequency tn (ToLower (TrimSpace x)) + 1 ∧
  (runes other ≠ runes (ToLower (TrimSpace x)) →
     getFrequency tn' other = getFrequency tn other).
Proof.
  intros Hr _ (it & Hp & Hn) Hne.
  destruct (reachable_StoreInv _ Hr) as (_ & _ & _ & _ & Hwf & _).
  unfold getFrequency. rewrite (NormalizeTerm_in_root _ _ _ _ _ Hn Hne). split.
  - by apply frequencyFrom_insertAt_same.
  - intros Ho. by apply frequencyFrom_insertAt_other.
Qed.

Lemma NormalizeTerm_counts_once_witness :
  getFrequency (after " Data Scientists " tnAlias) (ToLower (TrimSpace " Data Scientists "))
    = getFrequency tnAlias (ToLower (TrimSpace " Data Scientists ")) + 1 ∧
  (runes "data scientist" ≠ runes (ToLower (TrimSpace " Data Scientists ")) →
     getFrequency (after " Data Scientists " tnAlias) "data scientist"
       = getFrequency tnAlias "data scientist").
Proof.
  apply (NormalizeTerm_counts_once tnAlias (after " Data Scientists " tnAlias)
           " Data Scientists " (returned " Data Scientists " tnAlias) "data scientist").
  - apply NormalizeTheorems.tnAlias_reachable.
  - reflexivity.
  - apply NormalizeTheorems.NormalizeTerm_after.
  - vm_compute. discriminate.
Defined.

Lemma getFrequency_nonneg tn t : wfTrie (root tn) → 0 ≤ getFrequency tn t.
Proof.
  intros Hwf. unfold getFrequency. rewrite frequencyFrom_walk.
  destruct (walk (runes t) (root tn)) as [n|] eqn:Hw; [|done].
  destruct (Hwf _ _ Hw) as [_ Hp]. destruct (isEnd n); [specialize (Hp eq_refl); lia | done].
Qed.

(** X10. In a reachable normalizer every key of [CanonicalTerms], be it
    canonical or an alias, is in the trie with a frequency of at least 1;
    no frequency is negative; and no call of [NormalizeTerm] or
    [MergeSimilarTerms] lowers a frequency. *)
Theorem frequencies_count_up (tn tn' : TermNormalizer) (k t : string) :
  reachable tn →
  step tn tn' →
  (is_Some (canonicalTerms tn !! k) → 1 ≤ getFrequency tn k) ∧
  0 ≤ getFrequency tn t ∧
  getFrequency tn t ≤ getFrequency tn' t.
Proof.
  intros Hr Hstep.
  destruct (reachable_StoreInv _ Hr) as (_ & _ & _ & _ & Hwf & Hterm).
  split; [|split].
  - intros Hk. destruct (Hterm _ Hk) as (n & Hw & He).
    unfold getFrequency. rewrite frequencyFrom_walk, Hw, He.
    destruct (Hwf _ _ Hw) as [_ Hp]. by apply Hp.
  - by apply getFrequency_nonneg.
  - destruct Hstep as [(term & result & it & Hp & Hn)|(canonicals & Hget & ->)]; [|done].
    destruct (decide (ToLower (TrimSpace term) = "")) as [He|Hne].
    + apply NormalizeTerm_in_cases in Hn. cbv zeta in Hn.
      destruct Hn as [(_ & _ & ->)|[(Hne & _)|[(Hne & _)|(Hne & _)]]]; done.
    + unfold getFrequency. rewrite (NormalizeTerm_in_root _ _ _ _ _ Hn Hne).
      destruct (decide (runes t = runes (ToLower (TrimSpace term)))) as [->|Ho].
      * rewrite frequencyFrom_insertAt_same by done. lia.
      * by rewrite frequencyFrom_insertAt_other.
Qed.

Lemma frequencies_count_up_witness :
  (is_Some (canonicalTerms tnAlias !! "data scientists") →
     1 ≤ getFrequency tnAlias "data scientists") ∧
  0 ≤ getFrequency tnAlias "nurse" ∧
  getFrequency tnAlias "nurse" ≤ getFrequency (after "Nurse" tnAlias) "nurse".
Proof.
  apply (frequencies_count_up tnAlias (after "Nurse" tnAlias) "data scientists" "nurse").
  - apply NormalizeTheorems.tnAlias_reachable.
  - left. exists "Nurse", (returned "Nurse" tnAlias). apply NormalizeTheorems.NormalizeTerm_after.
Defined.

(** X11. In a reachable normalizer every value of [CanonicalTerms] and
    of the cache is a key of [CanonicalTerms]; and what [NormalizeTerm]
    returns for an ASCII input that is not blank is not empty and is a
    key of [CanonicalTerms] after the call. *)
Theorem canonical_values_are_keys (tn tn' : TermNormalizer) (x c k v : string) :
  reachable tn →
  isASCII x = true →
  NormalizeTerm x tn c tn' →
  (canonicalTerms tn !! k = Some v ∨ fuzzyMatchCache tn !! k = Some v →
     is_Some (canonicalTerms tn !! v)) ∧
  (ToLower (TrimSpace x) ≠ "" → c ≠ "" ∧ is_Some (canonicalTerms tn' !! c)).
Proof.
  intros Hr _ (it & Hp & Hn).
  pose proof (reachable_StoreInv _ Hr) as Hinv.
  split.
  - destruct Hinv as (_ & Hval & Hcache & _). intros [H|H]; [by eapply Hval | by eapply Hcache].
  - eapply StoreInv_normalize; [|exact Hn|exact Hinv]. intros kv Hkv. by rewrite <- Hp.
Qed.

Lemma canonical_values_are_keys_witness :
  (canonicalTerms tnMerged !! "abcde abcde" = Some "abcde abfgh" ∨
   fuzzyMatchCache tnMerged !! "abcde abcde" = Some "abcde abfgh" →
     is_Some (canonicalTerms tnMerged !! "abcde abfgh")) ∧
  (ToLower (TrimSpace " Abcde Abcde ") ≠ "" →
     returned " Abcde Abcde " tnMerged ≠ "" ∧
     is_Some (canonicalTerms (after " Abcde Abcde " tnMerged)
                !! returned " Abcde Abcde " tnMerged)).
Proof.
  apply (canonical_values_are_keys tnMerged (after " Abcde Abcde " tnMerged)
           " Abcde Abcde " (returned " Abcde Abcde " tnMerged) "abcde abcde" "abcde abfgh").
  - apply NormalizeTheorems.tnMerged_reachable.
  - reflexivity.
  - apply NormalizeTheorems.NormalizeTerm_after.
Defined.

Lemma NormalizeTerm_in_kept it term tn r tn' k v :
  NormalizeTerm_in it term tn = (r, tn') →
  (canonicalTerms tn !! k = Some v → canonicalTerms tn' !! k = Some v) ∧
  (fuzzyMatchCache tn !! k = Some v → fuzzyMatchCache tn' !! k = Some v).
Proof.
  intros Hn.
  destruct (NormalizeTerm_in_maps _ _ _ _ _ Hn) as [[-> ->]|(Hc & Hf & -> & Hf')]; [done|].
  split; intros Hk.
  - rewrite lookup_insert_ne; [done | congruence].
  - destruct Hf' as [-> | ->]; [|done]. rewrite lookup_insert_ne; [done | congruence].
Qed.

(** X12. [NormalizeTerm] only adds: every entry of [CanonicalTerms] and
    of the cache is kept with its value; for an ASCII input the only key
    that can be new is the lowercase-trimmed input, and its value is
    what the call returned. *)
Theorem NormalizeTerm_only_adds (tn tn' : TermNormalizer) (x c k v : string) :
  isASCII x = true →
  NormalizeTerm x tn c tn' →
  (canonicalTerms tn !! k = Some v → canonicalTerms tn' !! k = Some v) ∧
  (fuzzyMatchCache tn !! k = Some v → fuzzyMatchCache tn' !! k = Some v) ∧
  (canonicalTerms tn' !! k = Some v →
     canonicalTerms tn !! k = Some v ∨ (k = ToLower (TrimSpace x) ∧ v = c)) ∧
  (fuzzyMatchCache tn' !! k = Some v →
     fuzzyMatchCache tn !! k = Some v ∨ (k = ToLower (TrimSpace x) ∧ v = c)).
Proof.
  intros _ (it & _ & Hn).
  destruct (NormalizeTerm_in_kept _ _ _ _ _ k v Hn) as [Hc Hf].
  split; [done|]. split; [done|].
  destruct (NormalizeTerm_in_maps _ _ _ _ _ Hn) as [[-> ->]|(_ & _ & -> & Hf')];
    [split; by left|].
  assert (∀ m : gmap string string, <[ToLower (TrimSpace x):=c]> m !! k = Some v →
            m !! k = Some v ∨ (k = ToLower (TrimSpace x) ∧ v = c)) as Hins.
  { intros m Hk. destruct (decide (ToLower (TrimSpace x) = k)) as [<-|Hne].
    - rewrite lookup_insert_eq in Hk. injection Hk as <-. by right.
    - rewrite lookup_insert_ne in Hk by done. by left. }
  split; [apply Hins|]. destruct Hf' as [-> | ->]; [apply Hins | by left].
Qed.

Lemma NormalizeTerm_only_adds_witness :
  (canonicalTerms tnAlias !! "data scientists" = Some "data scientist" →
     canonicalTerms (after "Data Science" tnAlias) !! "data scientists" = Some "data scientist") ∧
  (fuzzyMatchCache tnAlias !! "data scientists" = Some "data scientist" →
     fuzzyMatchCache (after "Data Science" tnAlias) !! "data scientists" = Some "data scientist") ∧
  (canonicalTerms (after "Data Science" tnAlias) !! "data scientists" = Some "data scientist" →
     canonicalTerms tnAlias !! "data scientists" = Some "data scientist" ∨
     ("data scientists" = ToLower (TrimSpace "Data Science") ∧
      "data scientist" = returned "Data Science" tnAlias)) ∧
  (fuzzyMatchCache (after "Data Science" tnAlias) !! "data scientists" = Some "data scientist" →
     fuzzyMatchCache tnAlias !! "data scientists" = Some "data scientist" ∨
     ("data scientists" = ToLower (TrimSpace "Data Science") ∧
      "data scientist" = returned "Data Science" tnAlias)).
Proof.
  apply (NormalizeTerm_only_adds tnAlias (after "Data Science" tnAlias) "Data Science"
           (returned "Data Science" tnAlias) "data scientists" "data scientist").
  - reflexivity.
  - apply NormalizeTheorems.NormalizeTerm_after.
Defined.

Lemma foldl_insertRule_other (A : list (string * string)) (m : gmap string string) k :
  k ∉ A.*1 → foldl insertRule m A !! k = m !! k.
Proof.
  revert m. induction A as [|[k0 v0] A IH]; intros m Hk; simpl in *; [done|].
  apply not_elem_of_cons in Hk as [Hne Hk]. rewrite IH by done.
  unfold insertRule. simpl. by rewrite lookup_insert_ne.
Qed.

(** X13. [MergeSimilarTerms] changes nothing but values of
    [CanonicalTerms]: the trie, the variation lists and the cache stay
    as they are, the set of keys stays as it is, and a value that
    changed is a key of the table other than the key it is filed
    under. *)
Theorem MergeSimilarTerms_reassigns_only (tn tn' : TermNormalizer) (k v : string) :
  MergeSimilarTerms tn tn' →
  root tn' = root tn ∧ termVariations tn' = termVariations tn ∧
  fuzzyMatchCache tn' = fuzzyMatchCache tn ∧
  (is_Some (canonicalTerms tn' !! k) ↔ is_Some (canonicalTerms tn !! k)) ∧
  (canonicalTerms tn' !! k = Some v →
     canonicalTerms tn !! k = Some v ∨
     (v ≠ k ∧ is_Some (canonicalTerms tn !! k) ∧ is_Some (canonicalTerms tn !! v))).
Proof.
  intros (canonicals & Hget & ->).
  split; [done|]. split; [done|]. split; [done|].
  destruct (MergeSimilarTerms_in_maps _ _ Hget) as (A & HA & Hc).
  rewrite Forall_forall in HA. rewrite Hc. split.
  - rewrite foldl_insertRule_keys. split; [|by left].
    intros [Hk|Hk]; [done|].
    apply list_elem_of_fmap in Hk as ([k' v'] & -> & Hin).
    by destruct (HA _ Hin) as (_ & Hk & _).
  - intros Hkv. apply foldl_insertRule_lookup in Hkv as [Hkv|Hin]; [by left|].
    right. destruct (HA _ Hin) as (Hne & Hk & Hv). simpl in *. done.
Qed.

Lemma MergeSimilarTerms_reassigns_only_witness :
  root tnMerged = root tnTwo ∧ termVariations tnMerged = termVariations tnTwo ∧
  fuzzyMatchCache tnMerged = fuzzyMatchCache tnTwo ∧
  (is_Some (canonicalTerms tnMerged !! "abcde abcde") ↔
   is_Some (canonicalTerms tnTwo !! "abcde abcde")) ∧
  (canonicalTerms tnMerged !! "abcde abcde" = Some "abcde abfgh" →
     canonicalTerms tnTwo !! "abcde abcde" = Some "abcde abfgh" ∨
     ("abcde abfgh" ≠ "abcde abcde" ∧ is_Some (canonicalTerms tnTwo !! "abcde abcde") ∧
      is_Some (canonicalTerms tnTwo !! "abcde abfgh"))).
Proof.
  apply (MergeSimilarTerms_reassigns_only tnTwo tnMerged "abcde abcde" "abcde abfgh").
  exists ["abcde abfgh"; "abcde abcde"]. split; [|done].
  split; [MergeTheorems.perm_small | MergeTheorems.sorted_small].
Defined.

Lemma step_cache_kept tn tn' k v :
  step tn tn' → fuzzyMatchCache tn !! k = Some v → fuzzyMatchCache tn' !! k = Some v.
Proof.
  intros [(term & result & it & _ & Hn)|(canonicals & _ & ->)]; [|done].
  apply (NormalizeTerm_in_kept _ _ _ _ _ k v Hn).
Qed.

Lemma rtc_step_cache_kept tn tn' k v :
  rtc step tn tn' → fuzzyMatchCache tn !! k = Some v → fuzzyMatchCache tn' !! k = Some v.
Proof.
  induction 1 as [|tn tn1 tn2 Hs _ IH]; [done|].
  intros Hk. by eapply IH, step_cache_kept.
Qed.

(** X14. A cached resolution is final: once the cache maps the
    lowercase-trimmed form of an input to a term, every later call of
    [NormalizeTerm] with that input returns that term, whatever calls of
    [NormalizeTerm] and [MergeSimilarTerms] come in between. *)
Theorem cached_result_is_final (tn tn2 tn3 : TermNormalizer) (x c c' : string) :
  ToLower (TrimSpace x) ≠ "" →
  fuzzyMatchCache tn !! ToLower (TrimSpace x) = Some c →
  rtc step tn tn2 →
  NormalizeTerm x tn2 c' tn3 →
  c' = c.
Proof.
  intros Hne Hk Hrtc (it & _ & Hn).
  pose proof (rtc_step_cache_kept _ _ _ _ Hrtc Hk) as Hk2.
  apply NormalizeTerm_in_cases in Hn. cbv zeta in Hn.
  destruct Hn as [(He & _)|[(_ & [Hh|[Hh _]] & _)|[(_ & Hh & _)|(_ & Hh & _)]]]; congruence.
Qed.

Lemma MergeSimilarTerms_merged tn : MergeSimilarTerms tn (merged tn).
Proof.
  exists (GetCanonicalTerms_in (map_to_list (canonicalTerms tn)) tn).
  split; [by apply GetCanonicalTerms_in_returns | done].
Qed.

Lemma cached_result_is_final_witness :
  returned " Data Scientists " (merged (after "Nurse" tnAlias)) = "data scientist".
Proof.
  apply (cached_result_is_final tnAlias (merged (after "Nurse" tnAlias))
           (after " Data Scientists " (merged (after "Nurse" tnAlias))) " Data Scientists ").
  - vm_compute. discriminate.
  - vm_compute. reflexivity.
  - eapply rtc_l; [|eapply rtc_l; [|apply rtc_refl]].
    + left. exists "Nurse", (returned "Nurse" tnAlias).
      apply NormalizeTheorems.NormalizeTerm_after.
    + right. apply MergeSimilarTerms_merged.
  - apply NormalizeTheorems.NormalizeTerm_after.
Defined.

Lemma NormalizeTerm_in_entry it x tn c tn' :
  NormInv tn → NormalizeTerm_in it x tn = (c, tn') → ToLower (TrimSpace x) ≠ "" →
  canonicalTerms tn' !! ToLower (TrimSpace x) = Some c.
Proof.
  intros (_ & Hcache & _) Hn Hne. apply NormalizeTerm_in_cases in Hn. cbv zeta in Hn.
  destruct Hn as [(He & _)|[(_ & Hh & ->)|[(_ & _ & _ & _ & _ & -> & _)|(_ & _ & _ & -> & ->)]]].
  - done.
  - cbn [insertIntoTrie canonicalTerms]. destruct Hh as [Hh|[_ Hh]]; [by apply Hcache | done].
  - apply lookup_insert_eq.
  - cbn [registerCanonicalTerm insertIntoTrie canonicalTerms]. apply lookup_insert_eq.
Qed.

Lemma rtc_normalizeStep_kept tn tn' k v :
  rtc normalizeStep tn tn' → reachable_by_normalize tn →
  canonicalTerms tn !! k = Some v →
  reachable_by_normalize tn' ∧ canonicalTerms tn' !! k = Some v.
Proof.
  induction 1 as [|tn tn1 tn2 (term & result & Hs) _ IH]; [done|].
  intros Hr Hk. apply IH.
  - by eapply reachN_normalize.
  - destruct Hs as (it & _ & Hn). by apply (NormalizeTerm_in_kept _ _ _ _ _ k v Hn).
Qed.

(** X15. As long as [MergeSimilarTerms] is not called, a resolution is
    final: what [NormalizeTerm] returned for an input it returns for
    that input in every later call. *)
Theorem NormalizeTerm_stable_without_merge (tn tn1 tn2 tn3 : TermNormalizer) (x c c' : string) :
  reachable_by_normalize tn →
  NormalizeTerm x tn c tn1 →
  rtc normalizeStep tn1 tn2 →
  NormalizeTerm x tn2 c' tn3 →
  c' = c.
Proof.
  intros Hr Hn1 Hrtc (it2 & _ & Hn2).
  destruct (decide (ToLower (TrimSpace x) = "")) as [He|Hne].
  { destruct Hn1 as (it1 & _ & Hn1).
    apply NormalizeTerm_in_cases in Hn1, Hn2. cbv zeta in Hn1, Hn2.
    destruct Hn1 as [(_ & -> & _)|[(Hne & _)|[(Hne & _)|(Hne & _)]]]; [|done..].
    destruct Hn2 as [(_ & -> & _)|[(Hne & _)|[(Hne & _)|(Hne & _)]]]; done. }
  assert (reachable_by_normalize tn1) as Hr1 by (by eapply reachN_normalize).
  destruct Hn1 as (it1 & _ & Hn1).
  pose proof (NormalizeTerm_in_entry _ _ _ _ _ (reachable_by_normalize_NormInv _ Hr) Hn1 Hne) as Hk.
  destruct (rtc_normalizeStep_kept _ _ _ _ Hrtc Hr1 Hk) as [Hr2 Hk2].
  destruct (reachable_by_normalize_NormInv _ Hr2) as (_ & Hcache & _).
  apply NormalizeTerm_in_cases in Hn2. cbv zeta in Hn2.
  destruct Hn2 as [(He & _)|[(_ & [Hh|[_ Hh]] & _)|[(_ & _ & Hh & _)|(_ & _ & Hh & _)]]];
    [done | apply Hcache in Hh; congruence | congruence..].
Qed.

Lemma NormalizeTerm_stable_without_merge_witness :
  returned " Data Scientists " (after "Nurse" (after " Data Scientists " tnAlias))
  = returned " Data Scientists " tnAlias.
Proof.
  apply (NormalizeTerm_stable_without_merge tnAlias (after " Data Scientists " tnAlias)
           (after "Nurse" (after " Data Scientists " tnAlias))
           (after " Data Scientists " (after "Nurse" (after " Data Scientists " tnAlias)))
           " Data Scientists ").
  - unfold tnAlias. repeat (eapply reachN_normalize; [|apply NormalizeTheorems.NormalizeTerm_after]).
    apply reachN_new.
  - apply NormalizeTheorems.NormalizeTerm_after.
  - eapply rtc_l; [|apply rtc_refl].
    exists "Nurse", (returned "Nurse" (after " Data Scientists " tnAlias)).
    apply NormalizeTheorems.NormalizeTerm_after.
  - apply NormalizeTheorems.NormalizeTerm_after.
Defined.

(** What a call does to [CanonicalTerms] and to the variation lists. *)
Lemma NormalizeTerm_in_variations it term tn r tn' :
  NormalizeTerm_in it term tn = (r, tn') →
  (canonicalTerms tn' = canonicalTerms tn ∧ termVariations tn' = termVariations tn)
  ∨ (canonicalTerms tn !! ToLower (TrimSpace term) = None ∧
     r = findLongestPrefixMatch tn (ToLower (TrimSpace term)) ∧ r ≠ "" ∧
     canonicalTerms tn' = <[ToLower (TrimSpace term) := r]> (canonicalTerms tn) ∧
     termVariations tn' = termVariations tn)
  ∨ (canonicalTerms tn !! ToLower (TrimSpace term) = None ∧
     r = findBestFuzzyMatch_in it (ToLower (TrimSpace term)) ∧ r ≠ "" ∧
     canonicalTerms tn' = <[ToLower (TrimSpace term) := r]> (canonicalTerms tn) ∧
     termVariations tn'
     = <[r := default [] (termVariations tn !! r) ++ [ToLower (TrimSpace term)]]>
         (termVariations tn))
  ∨ (canonicalTerms tn !! ToLower (TrimSpace term) = None ∧
     r = ToLower (TrimSpace term) ∧
     canonicalTerms tn' = <[r := r]> (canonicalTerms tn) ∧
     termVariations tn' = <[r := [r]]> (termVariations tn)).
Proof.
  unfold NormalizeTerm_in. intros H. set (cleaned := ToLower (TrimSpace term)) in *.
  destruct (isEmpty cleaned) eqn:Hempty.
  { left. by injection H as <- <-. }
  destruct (fuzzyMatchCache tn !! cleaned) as [canonical|] eqn:Hcache.
  { left. by injection H as <- <-. }
  destruct (canonicalTerms tn !! cleaned) as [canonical|] eqn:Hcts.
  { left. by injection H as <- <-. }
  right.
  destruct (negb (isEmpty (findLongestPrefixMatch tn cleaned)) &&
            isSimilarByPrefix cleaned (findLongestPrefixMatch tn cleaned)) eqn:Hprefix.
  { left. injection H as <- <-. apply andb_prop in Hprefix as [Hne _].
    apply negb_true_iff, isEmpty_false in Hne. done. }
  right.
  destruct (negb (isEmpty (findBestFuzzyMatch_in it cleaned))) eqn:Hfuzzy.
  { left. injection H as <- <-.
    apply negb_true_iff, isEmpty_false in Hfuzzy. done. }
  right. by injection H as <- <-.
Qed.

Lemma variationsOK_new : variationsOK NewTermNormalizer.
Proof.
  split.
  - intros c Hc. unfold isCanonical, NewTermNormalizer in Hc. simpl in Hc.
    by rewrite lookup_empty in Hc.
  - intros c vs Hc. unfold NewTermNormalizer in Hc. simpl in Hc.
    by rewrite lookup_empty in Hc.
Qed.

Lemma variationsOK_insert_alias (cts : gmap string string)
    (tv : gmap string (list string)) cleaned r :
  cts !! cleaned = None → r ≠ cleaned →
  (∀ c, isCanonical cts c → is_Some (tv !! c)) →
  (∀ c vs, tv !! c = Some vs →
     isCanonical cts c ∧ head vs = Some c ∧ NoDup vs ∧ ∀ v, v ∈ vs → cts !! v = Some c) →
  (∀ c, isCanonical (<[cleaned:=r]> cts) c → isCanonical cts c) ∧
  (∀ c vs, tv !! c = Some vs →
     isCanonical (<[cleaned:=r]> cts) c ∧ head vs = Some c ∧ NoDup vs ∧
     ∀ v, v ∈ vs → <[cleaned:=r]> cts !! v = Some c).
Proof.
  intros Hnone Hne Htot Hent. unfold isCanonical in *. split.
  - intros c Hc. destruct (decide (cleaned = c)) as [<-|Hc'].
    + rewrite lookup_insert_eq in Hc. congruence.
    + by rewrite lookup_insert_ne in Hc.
  - intros c vs Hvs. destruct (Hent _ _ Hvs) as (Hc & Hh & Hnd & Hall).
    split; [|split; [done|split; [done|]]].
    + rewrite lookup_insert_ne; [done | congruence].
    + intros v Hv. rewrite lookup_insert_ne; [by apply Hall|].
      intros <-. specialize (Hall _ Hv). congruence.
Qed.

Lemma variationsOK_normalize it term tn r tn' :
  (∀ kv, kv ∈ it → kv ∈ map_to_list (canonicalTerms tn)) →
  NormalizeTerm_in it term tn = (r, tn') →
  NormInv tn → variationsOK tn → variationsOK tn'.
Proof.
  intros Hit Hn (_ & _ & _ & Hlabels) [Htot Hent].
  apply NormalizeTerm_in_variations in Hn.
  set (cleaned := ToLower (TrimSpace term)) in *.
  destruct Hn as [[Hc Htv]|[(Hnone & Hr & Hrne & Hc & Htv)|[(Hnone & Hr & Hrne & Hc & Htv)
                 |(Hnone & Hr & Hc & Htv)]]]; unfold variationsOK; rewrite Hc, Htv.
  - done.
  - assert (r ≠ cleaned) as Hne.
    { intros ->.
      destruct (longestFrom_label (isCanonical (canonicalTerms tn))
                  (runes cleaned) (root tn) "" Hlabels) as [Heq|Hl].
      - unfold findLongestPrefixMatch in Hr. congruence.
      - unfold findLongestPrefixMatch in Hr. rewrite <- Hr in Hl.
        unfold isCanonical in Hl. congruence. }
    destruct (variationsOK_insert_alias _ _ _ _ Hnone Hne Htot Hent) as [Hcan Hent'].
    split; [|done]. intros c Hcc. by apply Htot, Hcan.
  - assert (isCanonical (canonicalTerms tn) r) as Hrc.
    { destruct (findBestFuzzyMatch_in_entry it cleaned) as [Heq|Hin]; [congruence|].
      rewrite <- Hr in Hin. by apply Hit, elem_of_map_to_list in Hin. }
    assert (r ≠ cleaned) as Hne by (intros ->; unfold isCanonical in Hrc; congruence).
    destruct (variationsOK_insert_alias _ _ _ _ Hnone Hne Htot Hent) as [Hcan Hent'].
    split.
    + intros c Hcc. apply Hcan, Htot in Hcc. apply lookup_insert_is_Some.
      destruct (decide (r = c)); auto.
    + intros c vs Hvs. destruct (decide (r = c)) as [<-|Hrc'].
      * rewrite lookup_insert_eq in Hvs. injection Hvs as <-.
        destruct (Htot _ Hrc) as [vs0 Hvs0]. rewrite Hvs0. simpl.
        destruct (Hent' _ _ Hvs0) as (Hc0 & Hh & Hnd & Hall).
        split; [done|]. split; [|split].
        -- destruct vs0; [done | done].
        -- apply NoDup_app. split; [done|]. split; [|apply NoDup_singleton].
           intros v Hv1 Hv2. apply list_elem_of_singleton in Hv2 as ->.
           destruct (Hent _ _ Hvs0) as (_ & _ & _ & Hall0).
           specialize (Hall0 _ Hv1). congruence.
        -- intros v Hv. apply elem_of_app in Hv as [Hv|Hv]; [by apply Hall|].
           apply list_elem_of_singleton in Hv as ->. apply lookup_insert_eq.
      * rewrite lookup_insert_ne in Hvs by done. by apply Hent'.
  - subst r. split.
    + intros c Hcc. apply lookup_insert_is_Some.
      destruct (decide (cleaned = c)) as [|Hne]; [by left | right; split; [done|]].
      apply Htot. unfold isCanonical in *. by rewrite lookup_insert_ne in Hcc.
    + intros c vs Hvs. destruct (decide (cleaned = c)) as [<-|Hne].
      * rewrite lookup_insert_eq in Hvs. injection Hvs as <-.
        unfold isCanonical. rewrite lookup_insert_eq.
        split; [done|]. split; [done|]. split; [apply NoDup_singleton|].
        intros v Hv. apply list_elem_of_singleton in Hv as ->. apply lookup_insert_eq.
      * rewrite lookup_insert_ne in Hvs by done.
        destruct (Hent _ _ Hvs) as (Hc0 & Hh & Hnd & Hall). unfold isCanonical in *.
        split; [by rewrite lookup_insert_ne|]. split; [done|]. split; [done|].
        intros v Hv. rewrite lookup_insert_ne; [by apply Hall|].
        intros <-. specialize (Hall _ Hv). congruence.
Qed.

Lemma reachable_by_normalize_variationsOK tn : reachable_by_normalize tn → variationsOK tn.
Proof.
  induction 1 as [|tn term result tn' Hr IH (it & Hp & Hn)].
  - apply variationsOK_new.
  - eapply variationsOK_normalize; [|exact Hn|by apply reachable_by_normalize_NormInv|exact IH].
    intros kv Hkv. by rewrite <- Hp.
Qed.

(** X17. As long as [MergeSimilarTerms] is not called, the variation
    lists are consistent with [CanonicalTerms]: every canonical term has
    a list; a list is filed under a canonical term, starts with that
    term, repeats no term, and every term in it resolves to that
    canonical term. *)
Theorem variations_resolve_to_their_term (tn : TermNormalizer) (c : string) (vs : list string) :
  reachable_by_normalize tn →
  (isCanonical (canonicalTerms tn) c → is_Some (termVariations tn !! c)) ∧
  (termVariations tn !! c = Some vs →
     isCanonical (canonicalTerms tn) c ∧ head vs = Some c ∧ NoDup vs ∧
     ∀ v, v ∈ vs → canonicalTerms tn !! v = Some c).
Proof.
  intros Hr. destruct (reachable_by_normalize_variationsOK _ Hr) as [Htot Hent].
  split; [apply Htot | apply Hent].
Qed.

Lemma variations_resolve_to_their_term_witness :
  (isCanonical (canonicalTerms tnXY) "data scientist x" →
     is_Some (termVariations tnXY !! "data scientist x")) ∧
  (termVariations tnXY !! "data scientist x" = Some ["data scientist x"; "data scientist y"] →
     isCanonical (canonicalTerms tnXY) "data scientist x" ∧
     head ["data scientist x"; "data scientist y"] = Some "data scientist x" ∧
     NoDup ["data scientist x"; "data scientist y"] ∧
     ∀ v, v ∈ ["data scientist x"; "data scientist y"] →
          canonicalTerms tnXY !! v = Some "data scientist x").
Proof.
  apply (variations_resolve_to_their_term tnXY "data scientist x"
           ["data scientist x"; "data scientist y"]).
  unfold tnXY. repeat (eapply reachN_normalize; [|apply NormalizeTheorems.NormalizeTerm_after]).
  apply reachN_new.
Defined.

End RunProperties.


(** ** The parts of the similarity score *)

Module SimilarityProperties.
Import CategoryGrouper TermNormalizer SimilaritySpec.
Import GoStringProofs GrouperProofs SimilarityProofs DistanceProperties.

Lemma string_prefix_bytes (s p : string) :
  (∃ r, s = (p ++ r)%string) ↔ bytes p `prefix_of` bytes s.
Proof.
  split.
  - intros [r ->]. exists (bytes r). apply bytes_app.
  - intros [k Hk]. exists (ofBytes k). apply bytes_inj.
    by rewrite bytes_app, bytes_ofBytes.
Qed.

Lemma commonPrefix_prefix_l a b : commonPrefix a b `prefix_of` a.
Proof.
  revert b. induction a as [|x a IH]; intros [|y b]; simpl; try apply prefix_nil.
  case_decide; [|apply prefix_nil]. by apply prefix_cons.
Qed.

Lemma commonPrefix_prefix_r a b : commonPrefix a b `prefix_of` b.
Proof.
  revert b. induction a as [|x a IH]; intros [|y b]; simpl; try apply prefix_nil.
  case_decide; [|apply prefix_nil]. subst y. by apply prefix_cons.
Qed.

Lemma commonPrefix_greatest p a b :
  p `prefix_of` a → p `prefix_of` b → p `prefix_of` commonPrefix a b.
Proof.
  revert a b. induction p as [|c p IH]; intros a b Ha Hb; [apply prefix_nil|].
  destruct Ha as [ka ->], Hb as [kb ->]. simpl. rewrite decide_True by done.
  apply prefix_cons, IH; by eexists.
Qed.

Lemma commonPrefix_same a : commonPrefix a a = a.
Proof. induction a as [|x a IH]; simpl; [done|]. by rewrite decide_True, IH. Qed.

(** X18. [longestCommonPrefix] returns the greatest common prefix: a
    string is a prefix of the result exactly when it is a prefix of both
    arguments. *)
Theorem longestCommonPrefix_greatest (s1 s2 p : string) :
  (∃ r, longestCommonPrefix s1 s2 = (p ++ r)%string) ↔
  (∃ r, s1 = (p ++ r)%string) ∧ (∃ r, s2 = (p ++ r)%string).
Proof.
  rewrite !string_prefix_bytes, longestCommonPrefix_commonPrefix. split.
  - intros Hp. split; (etrans; [exact Hp|]);
      [apply commonPrefix_prefix_l | apply commonPrefix_prefix_r].
  - intros [H1 H2]. by apply commonPrefix_greatest.
Qed.

Lemma is_lcs_sym n a b : is_lcs n a b → is_lcs n b a.
Proof.
  intros [(s & Ha & Hb & Hl) Hmax]. split; [by exists s|].
  intros s' Hb' Ha'. by apply Hmax.
Qed.

Lemma lcs_rec_sym a b : lcs_rec a b = lcs_rec b a.
Proof. eapply is_lcs_unique; [|apply is_lcs_sym]; apply lcs_rec_is_lcs. Qed.

Lemma lcs_rec_le_l a b : (lcs_rec a b ≤ length a)%nat.
Proof.
  destruct (lcs_rec_witness a b) as (s & Ha & _ & <-). by apply sublist_length.
Qed.

Lemma lcs_rec_same a : lcs_rec a a = length a.
Proof.
  pose proof (lcs_rec_le_l a a) as Hle.
  pose proof (lcs_rec_upper a a a (reflexivity _) (reflexivity _)) as Hge. lia.
Qed.

(** X19. [longestCommonSubsequence] returns the length of a longest
    common subsequence of the bytes of its arguments: some sequence of
    that length is a subsequence of both, and no common subsequence is
    longer.  It is symmetric, at most the length of the shorter
    argument, and the length of the argument when both are equal. *)
Theorem longestCommonSubsequence_is_longest (s1 s2 : string) :
  is_lcs (Z.to_nat (longestCommonSubsequence s1 s2)) (bytes s1) (bytes s2) ∧
  0 ≤ longestCommonSubsequence s1 s2 ≤ Z.min (len s1) (len s2) ∧
  longestCommonSubsequence s1 s2 = longestCommonSubsequence s2 s1 ∧
  longestCommonSubsequence s1 s1 = len s1.
Proof.
  rewrite !longestCommonSubsequence_lcs_rec, Nat2Z.id. unfold len.
  split; [apply lcs_rec_is_lcs|]. split; [|split].
  - pose proof (lcs_rec_le_l (bytes s1) (bytes s2)) as H1.
    pose proof (lcs_rec_le_l (bytes s2) (bytes s1)) as H2.
    rewrite (lcs_rec_sym (bytes s2)) in H2. lia.
  - by rewrite lcs_rec_sym.
  - by rewrite lcs_rec_same.
Qed.

(** Quotients of lengths. *)

Lemma Qratio_bounds (a b : Z) :
  0 ≤ a ≤ b → 0 < b → (0 <= inject_Z a / inject_Z b <= 1)%Q.
Proof.
  intros Ha Hb.
  assert (0 < inject_Z b)%Q as Hb' by (rewrite <- (Zlt_Qlt 0); lia).
  split.
  - apply Qle_shift_div_l; [done|]. rewrite Qmult_0_l. rewrite <- (Zle_Qle 0). lia.
  - apply Qle_shift_div_r; [done|]. rewrite Qmult_1_l. rewrite <- Zle_Qle. lia.
Qed.

Lemma Qratio_same (b : Z) : 0 < b → (inject_Z b / inject_Z b == 1)%Q.
Proof.
  intros Hb. apply Qmult_inv_r. intros H0.
  assert (0 < inject_Z b)%Q as Hb' by (rewrite <- (Zlt_Qlt 0); lia).
  rewrite H0 in Hb'. by apply Qlt_irrefl in Hb'.
Qed.

Lemma filter_length_le {A : Type} (P : A → bool) (l : list A) :
  (length (List.filter P l) ≤ length l)%nat.
Proof. induction l as [|x l IH]; simpl; [lia|]. destruct (P x); simpl; lia. Qed.

Lemma filter_all {A : Type} (P : A → bool) (l : list A) :
  (∀ x, x ∈ l → P x = true) → List.filter P l = l.
Proof.
  induction l as [|x l IH]; intros H; simpl; [done|].
  rewrite H by apply list_elem_of_here. rewrite IH; [done|].
  intros y Hy. apply H. by apply elem_of_cons; right.
Qed.

Lemma calculateTokenOverlap_bounds (tokens1 tokens2 : list string) :
  (0 <= calculateTokenOverlap tokens1 tokens2 <= 1)%Q.
Proof.
  unfold calculateTokenOverlap.
  destruct (Nat.eqb_spec (length tokens1) 0) as [E1|E1],
           (Nat.eqb_spec (length tokens2) 0) as [E2|E2]; simpl; [lra..|].
  rewrite (overlap_count (λ t, default false (_ !! t))), maxTwo_max.
  pose proof (filter_length_le
    (λ t, default false (foldl (λ set1 t0, <[t0:=true]> set1) (∅ : gmap string bool) tokens1 !! t))
    tokens2).
  apply Qratio_bounds; lia.
Qed.

Lemma calculateTokenOverlap_same (tokens : list string) :
  (calculateTokenOverlap tokens tokens == 1)%Q.
Proof.
  unfold calculateTokenOverlap.
  destruct (Nat.eqb_spec (length tokens) 0) as [E1|E1]; simpl; [lra|].
  rewrite (overlap_count (λ t, default false (_ !! t))), maxTwo_max.
  rewrite filter_all.
  - rewrite Z.max_id, Z.add_0_l. apply Qratio_same. lia.
  - intros t Ht. rewrite set1_lookup. by apply bool_decide_eq_true.
Qed.

(** X20. [calculateTokenOverlap] returns a fraction between 0 and 1,
    and 1 for two equal token lists. *)
Theorem calculateTokenOverlap_fraction (tokens1 tokens2 : list string) :
  (0 <= calculateTokenOverlap tokens1 tokens2 <= 1)%Q ∧
  (calculateTokenOverlap tokens1 tokens1 == 1)%Q.
Proof.
  split; [apply calculateTokenOverlap_bounds | apply calculateTokenOverlap_same].
Qed.

Lemma Qlt_bool_true x y : Qlt_bool x y = true ↔ (x < y)%Q.
Proof.
  unfold Qlt_bool. rewrite negb_true_iff. split.
  - intros H. apply Qnot_le_lt. intros Hle. apply Qle_bool_iff in Hle. congruence.
  - intros H. destruct (Qle_bool y x) eqn:E; [|done].
    apply Qle_bool_iff in E. by apply Qlt_not_le in H.
Qed.

Lemma Qlt_bool_false x y : Qlt_bool x y = false ↔ (y <= x)%Q.
Proof.
  unfold Qlt_bool. rewrite negb_false_iff. apply Qle_bool_iff.
Qed.

(** X21. [calculateSimilarity] returns a score between 0 and 1.1.  The
    score of a term with itself is 0 for the empty term, 1 for a term of
    fewer than five bytes and 1.1 for a longer one: the prefix bonus
    takes the score above 1. *)
Theorem calculateSimilarity_range (s1 s2 : string) :
  (0 <= calculateSimilarity s1 s2 <= 11 # 10)%Q ∧
  (calculateSimilarity s1 s1 ==
     if len s1 =? 0 then 0 else if 5 <=? len s1 then 11 # 10 else 1)%Q.
Proof.
  split.
  - unfold calculateSimilarity. rewrite maxTwo_max.
    destruct (Z.eqb_spec (Z.max (len s1) (len s2)) 0) as [E|E]; [lra|].
    assert (0 < Z.max (len s1) (len s2)) as Hpos by (unfold len in *; lia).
    pose proof (lcs_rec_le_l (bytes s1) (bytes s2)) as Hl.
    pose proof (Qratio_bounds (longestCommonSubsequence s1 s2) (Z.max (len s1) (len s2))) as HL.
    rewrite longestCommonSubsequence_lcs_rec in HL.
    rewrite longestCommonSubsequence_lcs_rec.
    specialize (HL ltac:(unfold len; lia) Hpos).
    pose proof (Qratio_bounds (levenshteinDistance s1 s2) (Z.max (len s1) (len s2))) as HV.
    rewrite levenshteinDistance_lev_rec in HV. rewrite levenshteinDistance_lev_rec.
    pose proof (lev_rec_le_max (bytes s1) (bytes s2)) as Hv.
    specialize (HV ltac:(unfold len; lia) Hpos).
    pose proof (calculateTokenOverlap_bounds (Fields s1) (Fields s2)) as HT.
    set (L := (inject_Z _ / _)%Q) in *.
    set (V := (inject_Z (Z.of_nat (lev_rec _ _)) / _)%Q) in *.
    set (T := calculateTokenOverlap _ _) in *.
    destruct (Qlt_bool (2 # 10) _), (_ && _); lra.
  - unfold calculateSimilarity. rewrite maxTwo_max, Z.max_id, Z.sub_diag.
    destruct (Z.eqb_spec (len s1) 0) as [E|E]; [lra|].
    assert (0 < len s1) as Hpos by (unfold len in *; lia).
    pose proof (calculateTokenOverlap_same (Fields s1)) as HT.
    rewrite longestCommonSubsequence_lcs_rec, lcs_rec_same.
    rewrite levenshteinDistance_lev_rec, lev_rec_refl.
    rewrite len_longestCommonPrefix, commonPrefix_same.
    fold (len s1). change (absTwo 0) with 0.
    pose proof (Qratio_same (len s1) Hpos) as Hone.
    assert (Qlt_bool (2 # 10) (inject_Z 0 / inject_Z (len s1)) = false) as ->.
    { apply Qlt_bool_false. unfold Qdiv. change (inject_Z 0) with 0%Q. rewrite Qmult_0_l. lra. }
    assert (Qlt_bool (6 # 10) (inject_Z (len s1) / inject_Z (len s1)) = true) as ->.
    { apply Qlt_bool_true. rewrite Hone. lra. }
    rewrite andb_true_r. rewrite HT, Hone.
    change (inject_Z (Z.of_nat 0)) with 0%Q.
    assert (0 / inject_Z (len s1) == 0)%Q as -> by (unfold Qdiv; apply Qmult_0_l).
    destruct (5 <=? len s1); lra.
Qed.

(** No term scores 0.80 against the empty term. *)
Lemma calculateSimilarity_empty term :
  (calculateSimilarity term "" < minSimilarity)%Q.
Proof.
  unfold calculateSimilarity, minSimilarity. rewrite maxTwo_max.
  change (len "") with 0. rewrite Z.max_l by (unfold len; lia).
  destruct (Z.eqb_spec (len term) 0) as [E|E]; [lra|].
  assert (0 < len term) as Hpos by (unfold len in *; lia).
  rewrite longestCommonSubsequence_lcs_rec, levenshteinDistance_lev_rec.
  change (bytes "") with (@nil ascii). rewrite lcs_rec_nil_r, lev_rec_nil_r.
  fold (len term). rewrite len_longestCommonPrefix.
  change (bytes "") with (@nil ascii).
  assert (commonPrefix (bytes term) [] = []) as -> by (by destruct (bytes term)).
  pose proof (calculateTokenOverlap_bounds (Fields term) (Fields "")) as HT.
  pose proof (Qratio_same (len term) Hpos) as Hone.
  cbn [length]. change (Z.of_nat 0) with 0. change (5 <=? 0) with false. cbn [andb].
  assert (inject_Z 0 / inject_Z (len term) == 0)%Q as Hzero
    by (unfold Qdiv; apply Qmult_0_l).
  rewrite Hzero, Hone.
  set (T := calculateTokenOverlap _ _) in *.
  destruct (Qlt_bool (2 # 10) _); lra.
Qed.

(** What the loop of [findBestFuzzyMatch] has found after the entries
    [it]. *)
Lemma fuzzyScan_inv term (it : list (string * string)) :
  let st := foldl (fuzzyScan term) ("", 0%Q) it in
  (st.1 = "" ∧ st.2 = 0%Q ∧
   ∀ c, (c, c) ∈ it → (calculateSimilarity term c < minSimilarity)%Q) ∨
  (st.1 ≠ "" ∧ (st.1, st.1) ∈ it ∧ st.2 = calculateSimilarity term st.1 ∧
   (minSimilarity <= st.2)%Q ∧
   ∀ c, (c, c) ∈ it → (calculateSimilarity term c <= st.2)%Q).
Proof.
  cbv zeta. induction it as [|[key canonical] it IH] using rev_ind.
  { left. simpl. split; [done|]. split; [done|]. intros c Hc. by apply elem_of_nil in Hc. }
  rewrite foldl_app. simpl.
  destruct (foldl (fuzzyScan term) ("", 0%Q) it) as [bestMatch bestScore]. simpl in *.
  case_bool_decide as Hk; simpl.
  2:{ destruct IH as [(H1 & H2 & H3)|(H1 & H2 & H3 & H4 & H5)]; [left|right].
      - split; [done|]. split; [done|]. intros c Hc.
        apply elem_of_app in Hc as [Hc|Hc]; [by apply H3|].
        apply list_elem_of_singleton in Hc. congruence.
      - split; [done|]. split; [apply elem_of_app; by left|]. split; [done|]. split; [done|].
        intros c Hc. apply elem_of_app in Hc as [Hc|Hc]; [by apply H5|].
        apply list_elem_of_singleton in Hc. congruence. }
  subst key.
  destruct (Qlt_bool bestScore (calculateSimilarity term canonical)) eqn:Hlt;
    [destruct (Qle_bool minSimilarity (calculateSimilarity term canonical)) eqn:Hle|]; simpl.
  - apply Qlt_bool_true in Hlt. apply Qle_bool_iff in Hle. right.
    assert (canonical ≠ "") as Hcne.
    { intros ->. pose proof (calculateSimilarity_empty term). lra. }
    split; [done|]. split; [apply elem_of_app; right; by apply list_elem_of_singleton|].
    split; [done|]. split; [done|]. intros c Hc.
    apply elem_of_app in Hc as [Hc|Hc].
    + destruct IH as [(_ & _ & H3)|(_ & _ & _ & _ & H5)].
      * specialize (H3 _ Hc). lra.
      * specialize (H5 _ Hc). lra.
    + apply list_elem_of_singleton in Hc. injection Hc as ->. lra.
  - assert (calculateSimilarity term canonical < minSimilarity)%Q as Hlow.
    { apply Qnot_le_lt. intros H. apply Qle_bool_iff in H. congruence. }
    destruct IH as [(H1 & H2 & H3)|(H1 & H2 & H3 & H4 & H5)]; [left|right].
    + split; [done|]. split; [done|]. intros c Hc.
      apply elem_of_app in Hc as [Hc|Hc]; [by apply H3|].
      apply list_elem_of_singleton in Hc. by injection Hc as ->.
    + split; [done|]. split; [apply elem_of_app; by left|]. split; [done|]. split; [done|].
      intros c Hc. apply elem_of_app in Hc as [Hc|Hc]; [by apply H5|].
      apply list_elem_of_singleton in Hc. injection Hc as ->. lra.
  - apply Qlt_bool_false in Hlt.
    destruct IH as [(H1 & H2 & H3)|(H1 & H2 & H3 & H4 & H5)]; [left|right].
    + split; [done|]. split; [done|]. intros c Hc.
      apply elem_of_app in Hc as [Hc|Hc]; [by apply H3|].
      apply list_elem_of_singleton in Hc. injection Hc as ->.
      rewrite H2 in Hlt. unfold minSimilarity. lra.
    + split; [done|]. split; [apply elem_of_app; by left|]. split; [done|]. split; [done|].
      intros c Hc. apply elem_of_app in Hc as [Hc|Hc]; [by apply H5|].
      apply list_elem_of_singleton in Hc. by injection Hc as ->.
Qed.

(** X22. On ASCII text, [findBestFuzzyMatch] returns the empty string
    or a canonical entry that scores best against the term.  The bounds
    are stated with
    a tolerance of 0.01 around the threshold 0.80, far above the
    rounding of a float64 score: a returned entry scores at least 0.79
    and no canonical entry scores more than 0.01 above it; the result is
    empty when every canonical entry scores below 0.79 and is not empty
    when some canonical entry scores 0.81 or more; whatever the order
    of the visit. *)
Theorem findBestFuzzyMatch_best (it : list (string * string)) (term : string) :
  isASCII term = true →
  Forall (λ kv, isASCII kv.1 = true) it →
  (findBestFuzzyMatch_in it term ≠ "" →
     (findBestFuzzyMatch_in it term, findBestFuzzyMatch_in it term) ∈ it ∧
     (79 # 100 <= calculateSimilarity term (findBestFuzzyMatch_in it term))%Q ∧
     ∀ c, (c, c) ∈ it →
       (calculateSimilarity term c
          <= calculateSimilarity term (findBestFuzzyMatch_in it term) + (1 # 100))%Q) ∧
  ((∀ c, (c, c) ∈ it → (calculateSimilarity term c < 79 # 100)%Q) →
     findBestFuzzyMatch_in it term = "") ∧
  ((∃ c, (c, c) ∈ it ∧ (81 # 100 <= calculateSimilarity term c)%Q) →
     findBestFuzzyMatch_in it term ≠ "").
Proof.
  intros _ _. unfold findBestFuzzyMatch_in.
  destruct (fuzzyScan_inv term it) as [(H1 & H2 & H3)|(H1 & H2 & H3 & H4 & H5)];
    unfold minSimilarity in *.
  - split; [done|]. split; [done|].
    intros (c & Hc & Hs). specialize (H3 _ Hc). lra.
  - split; [|split].
    + intros _. rewrite <- H3. split; [done|]. split; [lra|].
      intros c Hc. specialize (H5 _ Hc). lra.
    + intros Hall. specialize (Hall _ H2). rewrite <- H3 in Hall. lra.
    + done.
Qed.

Lemma findBestFuzzyMatch_best_witness :
  (findBestFuzzyMatch_in [("data scientist x", "data scientist x"); ("nurse", "nurse")]
     "data scientist y" ≠ "" →
     (findBestFuzzyMatch_in [("data scientist x", "data scientist x"); ("nurse", "nurse")]
        "data scientist y",
      findBestFuzzyMatch_in [("data scientist x", "data scientist x"); ("nurse", "nurse")]
        "data scientist y")
       ∈ [("data scientist x", "data scientist x"); ("nurse", "nurse")] ∧
     (79 # 100 <= calculateSimilarity "data scientist y"
        (findBestFuzzyMatch_in [("data scientist x", "data scientist x"); ("nurse", "nurse")]
           "data scientist y"))%Q ∧
     ∀ c, (c, c) ∈ [("data scientist x", "data scientist x"); ("nurse", "nurse")] →
       (calculateSimilarity "data scientist y" c
          <= calculateSimilarity "data scientist y"
               (findBestFuzzyMatch_in
                  [("data scientist x", "data scientist x"); ("nurse", "nurse")]
                  "data scientist y") + (1 # 100))%Q) ∧
  ((∀ c, (c, c) ∈ [("data scientist x", "data scientist x"); ("nurse", "nurse")] →
         (calculateSimilarity "data scientist y" c < 79 # 100)%Q) →
     findBestFuzzyMatch_in [("data scientist x", "data scientist x"); ("nurse", "nurse")]
       "data scientist y" = "") ∧
  ((∃ c, (c, c) ∈ [("data scientist x", "data scientist x"); ("nurse", "nurse")] ∧
         (81 # 100 <= calculateSimilarity "data scientist y" c)%Q) →
     findBestFuzzyMatch_in [("data scientist x", "data scientist x"); ("nurse", "nurse")]
       "data scientist y" ≠ "").
Proof.
  apply (findBestFuzzyMatch_best
           [("data scientist x", "data scientist x"); ("nurse", "nurse")] "data scientist y").
  - reflexivity.
  - repeat constructor.
Defined.

(** X23. [isSimilarByPrefix]: a term of fewer than five bytes is
    accepted only if it equals the canonical term; a longer term is
    accepted exactly when the common prefix of the two covers at least
    four fifths of the shorter of them, so whenever one of the two is a
    prefix of the other. *)
Theorem isSimilarByPrefix_four_fifths (term canonical : string) :
  (len term < 5 → (isSimilarByPrefix term canonical = true ↔ term = canonical)) ∧
  (5 ≤ len term →
     (isSimilarByPrefix term canonical = true ↔
        4 * Z.min (len term) (len canonical)
          ≤ 5 * len (longestCommonPrefix term canonical)) ∧
     ((∃ r, term = (canonical ++ r)%string) ∨ (∃ r, canonical = (term ++ r)%string) →
        isSimilarByPrefix term canonical = true)).
Proof.
  unfold isSimilarByPrefix. split.
  - intros Hlt. destruct (Z.ltb_spec (len term) 5) as [_|]; [|lia].
    apply bool_decide_eq_true.
  - intros Hge. destruct (Z.ltb_spec (len term) 5) as [|_]; [lia|].
    assert ((if len canonical <? len term then len canonical else len term)
            = Z.min (len term) (len canonical)) as ->
      by (destruct (Z.ltb_spec (len canonical) (len term)); lia).
    assert (∀ m k : Z, Qle_bool (inject_Z m * (8 # 10)) (inject_Z k) = true ↔ 4 * m ≤ 5 * k)
      as Hiff.
    { intros m k. rewrite Qle_bool_iff. unfold Qle, Qmult, inject_Z. simpl. lia. }
    split; [apply Hiff|].
    intros Hpre. apply Hiff. rewrite len_longestCommonPrefix.
    assert (bytes canonical `prefix_of` bytes term ∨ bytes term `prefix_of` bytes canonical)
      as Hpre' by (destruct Hpre as [H|H]; [left|right]; by apply string_prefix_bytes).
    unfold len.
    destruct Hpre' as [H|H].
    + pose proof (commonPrefix_greatest _ _ _ H (reflexivity _)) as Hp.
      apply prefix_length in Hp, H. lia.
    + pose proof (commonPrefix_greatest _ _ _ (reflexivity _) H) as Hp.
      apply prefix_length in Hp, H. lia.
Qed.

End SimilarityProperties.


(** ** The data cleaner *)

Module CleanerProofs.
Import DataCleaner CleanerSpec GoStringProofs.

Ltac by_byte c :=
  destruct c as [[] [] [] [] [] [] [] []]; vm_compute; try done; try (intuition congruence).

Lemma wordByte_toUpperByte c :
  wordByte c = true → wordByte (toUpperByte c) = true ∧ toUpperByte (toUpperByte c) = toUpperByte c.
Proof. by_byte c. Qed.

Lemma wordByte_toLowerByte c :
  wordByte c = true → wordByte (toLowerByte c) = true.
Proof. by_byte c. Qed.

Lemma wordByte_kept c : wordByte c = true → keep (byte_val c) = true.
Proof. unfold wordByte. by intros [H _]%andb_prop. Qed.

Lemma wordByte_not_space c : wordByte c = true → isSpace c = false ∧ isReSpace c = false.
Proof. by_byte c. Qed.

Lemma kept_ascii c :
  keep (byte_val c) = true → (byte_val c <? 128) = true ∧ runeByte (byte_val c) = c.
Proof. by_byte c. Qed.

Lemma keep_runeByte ch : keep ch = true → keep (byte_val (runeByte ch)) = true.
Proof.
  intros H. assert (0 ≤ ch < 128) as Hr by (unfold keep in H; lia).
  unfold runeByte, byte_val. rewrite N_ascii_embedding by lia. by rewrite Z2N.id by lia.
Qed.

(** Each step of [CleanText] leaves only kept bytes. *)

Lemma keepRunes_kept text : Forall (λ c, keep (byte_val c) = true) (bytes (keepRunes text)).
Proof.
  unfold keepRunes. rewrite bytes_ofBytes. apply Forall_fmap, Forall_forall.
  intros ch Hch. apply list_elem_of_In, filter_In in Hch as [_ Hk]. by apply keep_runeByte.
Qed.

Lemma replaceRuns_Forall (P : ascii → Prop) r b :
  P " "%char → Forall P b → Forall P (replaceRuns r b).
Proof.
  intros Hsp Hb. revert r. induction Hb as [|c b Hc _ IH]; intros r; simpl; [done|].
  destruct (isReSpace c); [destruct r|]; auto.
Qed.

(** The words of [Fields]. *)

Lemma fieldsFrom_words (P : ascii → Prop) cur b :
  Forall (λ c, P c ∧ isSpace c = false) cur → Forall P b →
  Forall (λ w, bytes w ≠ [] ∧ Forall (λ c, P c ∧ isSpace c = false) (bytes w))
         (fieldsFrom cur b).
Proof.
  intros Hcur Hb. revert cur Hcur. induction Hb as [|c b Hc _ IH]; intros cur Hcur; simpl.
  - destruct cur as [|d cur]; [constructor|]. constructor; [|constructor].
    rewrite bytes_ofBytes. split.
    + simpl. intros H. by apply app_eq_nil in H as [_ ?].
    + by apply Forall_rev.
  - destruct (isSpace c) eqn:Hsp.
    + destruct cur as [|d cur]; [by apply IH|]. constructor; [|by apply IH].
      rewrite bytes_ofBytes. split.
      * simpl. intros H. by apply app_eq_nil in H as [_ ?].
      * by apply Forall_rev.
    + apply IH. by constructor.
Qed.

Lemma bytes_titleWord c rest w :
  bytes w = c :: rest → bytes (titleWord w) = toUpperByte c :: (toLowerByte <$> rest).
Proof.
  intros H. unfold titleWord, ToUpper, ToLower. rewrite H.
  by rewrite bytes_app, !bytes_ofBytes.
Qed.

Lemma titleWord_shaped w :
  bytes w ≠ [] → Forall (λ c, wordByte c = true) (bytes w) → titleShaped (titleWord w).
Proof.
  intros Hne Hw. destruct (bytes w) as [|c rest] eqn:Hb; [done|].
  apply Forall_cons in Hw as [Hc Hrest].
  exists (toUpperByte c), (toLowerByte <$> rest).
  split; [by apply bytes_titleWord|].
  destruct (wordByte_toUpperByte _ Hc) as [H1 H2]. split; [done|]. split; [done|].
  apply Forall_fmap. eapply Forall_impl; [exact Hrest|]. intros d Hd. simpl.
  split; [by apply wordByte_toLowerByte | apply toLowerByte_idemp].
Qed.

Lemma titleShaped_fixed w : titleShaped w → titleWord w = w.
Proof.
  intros (c & rest & Hb & _ & Hc & Hrest). apply bytes_inj.
  rewrite (bytes_titleWord _ _ _ Hb), Hb, Hc. f_equal. clear Hb.
  induction Hrest as [|d rest [_ Hd] _ IH]; [done|]. cbn [fmap list_fmap]. by rewrite Hd, IH.
Qed.

Lemma titleShaped_word w :
  titleShaped w → bytes w ≠ [] ∧ Forall (λ c, wordByte c = true) (bytes w).
Proof.
  intros (c & rest & -> & Hc & _ & Hrest). split; [done|].
  constructor; [done|]. eapply Forall_impl; [exact Hrest|]. by intros d [Hd _].
Qed.

(** The bytes of words joined by blanks. *)

Lemma bytes_Join_cons w w' ws :
  bytes (Join (w :: w' :: ws) " ") = bytes w ++ " "%char :: bytes (Join (w' :: ws) " ").
Proof. cbn [Join]. by rewrite !bytes_app. Qed.

Lemma Join_kept ws :
  Forall titleShaped ws → Forall (λ c, keep (byte_val c) = true) (bytes (Join ws " ")).
Proof.
  induction 1 as [|w ws Hw Hws IH]; [constructor|].
  apply titleShaped_word in Hw as [_ Hw].
  assert (Forall (λ c, keep (byte_val c) = true) (bytes w)) as Hk
    by (eapply Forall_impl; [exact Hw | apply wordByte_kept]).
  destruct ws as [|w' ws]; [done|].
  rewrite bytes_Join_cons. apply Forall_app. split; [done|]. by constructor.
Qed.

Lemma Join_ends ws :
  Forall titleShaped ws → ws ≠ [] →
  (∃ c r, bytes (Join ws " ") = c :: r ∧ isSpace c = false) ∧
  (∃ l c, bytes (Join ws " ") = l ++ [c] ∧ isSpace c = false).
Proof.
  induction 1 as [|w ws Hw Hws IH]; [done|]. intros _.
  apply titleShaped_word in Hw as [Hne Hw].
  assert (∃ l c, bytes w = l ++ [c] ∧ isSpace c = false) as Hlast.
  { destruct (bytes w) as [|c0 r0 _] using rev_ind; [done|].
    exists r0, c0. split; [done|]. apply Forall_app in Hw as [_ Hr0].
    apply Forall_inv in Hr0. by apply wordByte_not_space in Hr0 as [? _]. }
  assert (∃ c r, bytes w = c :: r ∧ isSpace c = false) as Hfirst.
  { destruct (bytes w) as [|c r]; [done|]. exists c, r. split; [done|].
    apply Forall_cons in Hw as [Hc _]. by apply wordByte_not_space in Hc as [? _]. }
  destruct ws as [|w' ws]; [done|].
  destruct IH as [_ (l & c & Hl & Hc)]; [done|].
  rewrite bytes_Join_cons. split.
  - destruct Hfirst as (c0 & r0 & -> & Hc0). by exists c0, (r0 ++ " "%char :: bytes (Join (w' :: ws) " ")).
  - exists (bytes w ++ " "%char :: l), c. split; [|done].
    rewrite Hl. by rewrite <- app_assoc.
Qed.

Lemma trimRight_snoc l c : isSpace c = false → trimRight (l ++ [c]) = l ++ [c].
Proof.
  intros Hc. unfold trimRight. rewrite rev_app_distr. simpl. rewrite Hc.
  simpl. by rewrite rev_involutive.
Qed.

Lemma TrimSpace_Join ws : Forall titleShaped ws → TrimSpace (Join ws " ") = Join ws " ".
Proof.
  intros Hws. destruct ws as [|w ws]; [done|].
  destruct (Join_ends _ Hws) as [(c & r & Hc & Hsp) (l & d & Hl & Hd)]; [done|].
  unfold TrimSpace. apply bytes_inj. rewrite bytes_ofBytes.
  rewrite Hc. simpl. rewrite Hsp. rewrite <- Hc, Hl. by apply trimRight_snoc.
Qed.

Lemma keepRunes_kept_fixed s :
  Forall (λ c, keep (byte_val c) = true) (bytes s) → keepRunes s = s.
Proof.
  intros Hk. unfold keepRunes, runes. apply bytes_inj. rewrite bytes_ofBytes.
  rewrite EditDistance.decodeRunes_ascii.
  - induction Hk as [|c b Hc _ IH]; [done|]. rewrite fmap_cons. simpl. rewrite Hc.
    rewrite fmap_cons. f_equal; [by apply kept_ascii | done].
  - apply forallb_forall. intros c Hc. apply list_elem_of_In in Hc.
    rewrite Forall_forall in Hk. by apply kept_ascii, Hk.
Qed.

Lemma replaceRuns_word r wb rest :
  wb ≠ [] → Forall (λ c, wordByte c = true) wb →
  replaceRuns r (wb ++ rest) = wb ++ replaceRuns false rest.
Proof.
  intros Hne Hw. revert r. induction Hw as [|c wb Hc Hw IH]; [done|]. intros r. simpl.
  apply wordByte_not_space in Hc as [_ ->]. f_equal.
  destruct wb as [|c' wb]; [done|]. by apply IH.
Qed.

Lemma replaceRuns_Join ws r :
  Forall titleShaped ws → ws ≠ [] →
  replaceRuns r (bytes (Join ws " ")) = bytes (Join ws " ").
Proof.
  intros Hws. revert r. induction Hws as [|w ws Hw Hws IH]; [done|]. intros r _.
  apply titleShaped_word in Hw as [Hne Hw].
  destruct ws as [|w' ws].
  - cbn [Join]. rewrite <- (app_nil_r (bytes w)). rewrite replaceRuns_word by done. done.
  - rewrite bytes_Join_cons, replaceRuns_word by done. f_equal. simpl. f_equal. by apply IH.
Qed.

Lemma fieldsFrom_word cur wb rest :
  Forall (λ c, wordByte c = true) wb →
  fieldsFrom cur (wb ++ rest) = fieldsFrom (rev wb ++ cur) rest.
Proof.
  intros Hw. revert cur. induction Hw as [|c wb Hc Hw IH]; [done|]. intros cur. simpl.
  apply wordByte_not_space in Hc as [-> _]. rewrite IH. by rewrite <- app_assoc.
Qed.

Lemma fieldsFrom_blank cur b :
  cur ≠ [] → fieldsFrom cur (" "%char :: b) = ofBytes (rev cur) :: fieldsFrom [] b.
Proof. by destruct cur. Qed.

Lemma fieldsFrom_end cur : cur ≠ [] → fieldsFrom cur [] = [ofBytes (rev cur)].
Proof. by destruct cur. Qed.

Lemma Fields_Join ws : Forall titleShaped ws → Fields (Join ws " ") = ws.
Proof.
  unfold Fields. induction 1 as [|w ws Hw Hws IH]; [done|].
  apply titleShaped_word in Hw as [Hne Hw].
  assert (rev (bytes w) ≠ []) as Hrev.
  { intros H. apply (f_equal (@rev _)) in H. by rewrite rev_involutive in H. }
  destruct ws as [|w' ws].
  - cbn [Join]. rewrite <- (app_nil_r (bytes w)), fieldsFrom_word by done.
    rewrite app_nil_r, fieldsFrom_end by done.
    by rewrite rev_involutive, ofBytes_bytes.
  - rewrite bytes_Join_cons, fieldsFrom_word by done.
    rewrite app_nil_r, fieldsFrom_blank by done.
    by rewrite rev_involutive, ofBytes_bytes, IH.
Qed.

(** What [CleanText] returns is a list of title-case words. *)
Lemma CleanText_words text :
  ∃ ws, CleanText text = Join ws " " ∧ Forall titleShaped ws.
Proof.
  unfold CleanText, toTitleCase.
  set (t := TrimSpace (ReplaceAllSpaces (keepRunes (TrimSpace text)))).
  exists (titleWord <$> Fields t). split; [done|].
  assert (Forall (λ c, keep (byte_val c) = true) (bytes t)) as Ht.
  { apply TrimSpace_Forall. unfold ReplaceAllSpaces. rewrite bytes_ofBytes.
    apply replaceRuns_Forall; [done | apply keepRunes_kept]. }
  apply Forall_fmap. unfold Fields.
  eapply Forall_impl; [apply (fieldsFrom_words _ [] _ (Forall_nil_2 _) Ht)|].
  intros w [Hne Hw]. simpl. apply titleWord_shaped; [done|].
  eapply Forall_impl; [exact Hw|]. intros c [Hk Hsp]. cbv beta in Hk, Hsp.
  unfold wordByte. by rewrite Hk, Hsp.
Qed.

(** What [CleanText] returns is ASCII text. *)
Lemma CleanText_ascii text : isASCII (CleanText text) = true.
Proof.
  destruct (CleanText_words text) as (ws & -> & Hws).
  apply isASCII_Forall. eapply Forall_impl; [by apply Join_kept|].
  intros c Hc. by apply kept_ascii.
Qed.

Lemma CleanText_Join ws : Forall titleShaped ws → CleanText (Join ws " ") = Join ws " ".
Proof.
  intros Hws. unfold CleanText, toTitleCase.
  rewrite TrimSpace_Join, keepRunes_kept_fixed by (done || by apply Join_kept).
  assert (ReplaceAllSpaces (Join ws " ") = Join ws " ") as ->.
  { unfold ReplaceAllSpaces. destruct ws as [|w ws]; [done|].
    rewrite replaceRuns_Join by done. apply ofBytes_bytes. }
  rewrite TrimSpace_Join, Fields_Join by done. f_equal.
  induction Hws as [|w ws Hw _ IH]; [done|].
  rewrite fmap_cons. by rewrite titleShaped_fixed, IH.
Qed.

End CleanerProofs.

Module CleanerTheorems.
Import DataCleaner CleanerSpec CleanerProofs GoStringProofs.

(** X24. [CleanText] returns words joined by single blanks, with no
    blank at either end; every word is in title case over the kept
    alphabet: it is not empty, its bytes are letters, digits, hyphens,
    apostrophes, periods or ampersands, the first is not a lowercase
    letter and the others are not uppercase letters. *)
Theorem CleanText_title_case_words (text : string) :
  ∃ words, CleanText text = Join words " " ∧ Forall titleShaped words ∧
           TrimSpace (CleanText text) = CleanText text ∧
           Fields (CleanText text) = words.
Proof.
  destruct (CleanText_words text) as (ws & -> & Hws). exists ws.
  split; [done|]. split; [done|]. split; [by apply TrimSpace_Join | by apply Fields_Join].
Qed.

(** X25. [CleanText] is idempotent: cleaning cleaned text changes
    nothing. *)
Theorem CleanText_idempotent (text : string) :
  CleanText (CleanText text) = CleanText text.
Proof.
  destruct (CleanText_words text) as (ws & -> & Hws). by apply CleanText_Join.
Qed.

End CleanerTheorems.


(** ** Groups of records and the category column *)

Module ProcessorProperties.
Import CSVProcessor ColumnSpec GoStringProofs.

(** X26. [buildGroups] files every record with a category under that
    category, in the order of the records: the group of a category is
    the list of the IDs of its records; the empty category has no group,
    and no group is empty. *)
Theorem buildGroups_lists_ids (records : list Record) (c : string) :
  buildGroups records !! c =
    if decide (c = "" ∨
               ID <$> List.filter (λ r, bool_decide (GroupedCategory r = c)) records = [])
    then None
    else Some (ID <$> List.filter (λ r, bool_decide (GroupedCategory r = c)) records).
Proof.
  unfold buildGroups. induction records as [|r records IH] using rev_ind.
  { simpl. rewrite lookup_empty. by rewrite decide_True by (by right). }
  rewrite foldl_app, List.filter_app, fmap_app. cbn [foldl List.filter].
  set (g := foldl _ ∅ records) in *.
  set (ids := ID <$> List.filter _ records) in *.
  destruct (isEmpty (GroupedCategory r)) eqn:He; cbn [negb].
  - apply isEmpty_true in He. rewrite IH.
    case_bool_decide as Hc; cbn [fmap list_fmap]; [|by rewrite app_nil_r].
    rewrite !decide_True; [done | left; congruence | left; congruence].
  - apply isEmpty_false in He.
    case_bool_decide as Hc; cbn [fmap list_fmap].
    + subst c. rewrite lookup_insert_eq, IH.
      rewrite (decide_False (P := _ ∨ ids ++ [ID r] = [])).
      2:{ intros [H|H]; [done|]. by apply app_eq_nil in H as [_ ?]. }
      case_decide as Hd; [|done]. destruct Hd as [Hd|Hd]; [done|]. by rewrite Hd.
    + rewrite lookup_insert_ne by done. rewrite IH. by rewrite app_nil_r.
Qed.

Lemma find_split {A : Type} (f : A → bool) (l : list A) x :
  List.find f l = Some x →
  ∃ l1 l2, l = l1 ++ x :: l2 ∧ f x = true ∧ ∀ y, y ∈ l1 → f y = false.
Proof.
  induction l as [|a l IH]; [done|]. simpl. destruct (f a) eqn:Ha.
  - intros [= ->]. exists [], l. split; [done|]. split; [done|].
    intros y Hy. by apply elem_of_nil in Hy.
  - intros H. destruct (IH H) as (l1 & l2 & -> & Hx & Hl1).
    exists (a :: l1), l2. split; [done|]. split; [done|].
    intros y Hy. apply elem_of_cons in Hy as [->|Hy]; auto.
Qed.

Lemma find_none_elem {A : Type} (f : A → bool) (l : list A) :
  List.find f l = None → ∀ y, y ∈ l → f y = false.
Proof. intros H y Hy. apply (find_none f l H). by apply list_elem_of_In. Qed.

Lemma exact_pass header :
  existsb (λ keyword, bool_decide (ToLower header = keyword)) categoryFields = true
  ↔ isKeyword header.
Proof.
  rewrite existsb_exists. unfold isKeyword. split.
  - intros (k & Hk & He). apply bool_decide_eq_true in He. subst k. by apply list_elem_of_In.
  - intros H. exists (ToLower header). split; [by apply list_elem_of_In|].
    by apply bool_decide_eq_true.
Qed.

Lemma contains_pass header :
  existsb (λ keyword, Contains (ToLower header) keyword) categoryFields = true
  ↔ hasKeyword header.
Proof.
  rewrite existsb_exists. unfold hasKeyword. split.
  - intros (k & Hk & He). exists k. split; [by apply list_elem_of_In | done].
  - intros (k & Hk & He). exists k. split; [by apply list_elem_of_In | done].
Qed.

Lemma isKeyword_hasKeyword header : isKeyword header → hasKeyword header.
Proof.
  intros H. exists (ToLower header). split; [done|].
  unfold Contains. apply containsBytes_spec. exists [], []. by rewrite app_nil_r.
Qed.

Lemma exact_fail header :
  existsb (λ keyword, bool_decide (ToLower header = keyword)) categoryFields = false
  → ¬ isKeyword header.
Proof. intros Hf Hk. apply exact_pass in Hk. congruence. Qed.

Lemma contains_fail header :
  existsb (λ keyword, Contains (ToLower header) keyword) categoryFields = false
  → ¬ hasKeyword header.
Proof. intros Hf Hk. apply contains_pass in Hk. congruence. Qed.

(** X27. On ASCII headers, as [ProcessCSV] passes them ([CleanText]
    returns ASCII text), [detectCategoryColumn] returns the empty string
    exactly when no header contains a keyword.  Otherwise it returns a
    header that contains a keyword: if some header is a keyword up to
    case, the first such header; if none is, the first header that
    contains a keyword.  The order of the headers decides, not the order
    of the keywords. *)
Theorem detectCategoryColumn_first_match (headers : list string) :
  Forall (λ h, isASCII h = true) headers →
  (detectCategoryColumn headers = "" ↔ ∀ h, h ∈ headers → ¬ hasKeyword h) ∧
  (detectCategoryColumn headers ≠ "" →
     ∃ before after,
       headers = before ++ detectCategoryColumn headers :: after ∧
       hasKeyword (detectCategoryColumn headers) ∧
       ((∃ h, h ∈ headers ∧ isKeyword h) →
          isKeyword (detectCategoryColumn headers) ∧ ∀ h, h ∈ before → ¬ isKeyword h) ∧
       ((∀ h, h ∈ headers → ¬ isKeyword h) → ∀ h, h ∈ before → ¬ hasKeyword h)).
Proof.
  intros _. unfold detectCategoryColumn.
  assert (¬ hasKeyword "") as Hempty.
  { intros H. apply contains_pass in H. vm_compute in H. discriminate. }
  destruct (find _ headers) as [h1|] eqn:H1.
  - destruct (find_split _ _ _ H1) as (l1 & l2 & Hsplit & Hh1 & Hl1).
    apply exact_pass in Hh1.
    assert (h1 ≠ "") as Hne by (intros ->; by apply Hempty, isKeyword_hasKeyword).
    split.
    + split; [done|]. intros Hnone. exfalso. apply (Hnone h1).
      * rewrite Hsplit. apply elem_of_app. right. apply list_elem_of_here.
      * by apply isKeyword_hasKeyword.
    + intros _. exists l1, l2. split; [done|]. split; [by apply isKeyword_hasKeyword|].
      split.
      * intros _. split; [done|]. intros h Hh. by apply exact_fail, Hl1.
      * intros Hnone. exfalso. apply (Hnone h1); [|done].
        rewrite Hsplit. apply elem_of_app. right. apply list_elem_of_here.
  - pose proof (find_none_elem _ _ H1) as Hno1. clear H1.
    destruct (find _ headers) as [h2|] eqn:H2.
    + destruct (find_split _ _ _ H2) as (l1 & l2 & Hsplit & Hh2 & Hl1).
      apply contains_pass in Hh2.
      assert (h2 ≠ "") as Hne by (by intros ->).
      split.
      * split; [done|]. intros Hnone. exfalso. apply (Hnone h2); [|done].
        rewrite Hsplit. apply elem_of_app. right. apply list_elem_of_here.
      * intros _. exists l1, l2. split; [done|]. split; [done|]. split.
        -- intros (h & Hh & Hk). exfalso. by apply (exact_fail h (Hno1 _ Hh)).
        -- intros _ h Hh. by apply contains_fail, Hl1.
    + pose proof (find_none_elem _ _ H2) as Hno2. split; [|done].
      split; [|done]. intros _ h Hh. by apply contains_fail, Hno2.
Qed.

Lemma detectCategoryColumn_first_match_witness :
  (detectCategoryColumn ["Name"; "Job Title"; "Type"] = "" ↔
     ∀ h, h ∈ ["Name"; "Job Title"; "Type"] → ¬ hasKeyword h) ∧
  (detectCategoryColumn ["Name"; "Job Title"; "Type"] ≠ "" →
     ∃ before after,
       ["Name"; "Job Title"; "Type"]
         = before ++ detectCategoryColumn ["Name"; "Job Title"; "Type"] :: after ∧
       hasKeyword (detectCategoryColumn ["Name"; "Job Title"; "Type"]) ∧
       ((∃ h, h ∈ ["Name"; "Job Title"; "Type"] ∧ isKeyword h) →
          isKeyword (detectCategoryColumn ["Name"; "Job Title"; "Type"]) ∧
          ∀ h, h ∈ before → ¬ isKeyword h) ∧
       ((∀ h, h ∈ ["Name"; "Job Title"; "Type"] → ¬ isKeyword h) →
          ∀ h, h ∈ before → ¬ hasKeyword h)).
Proof.
  apply (detectCategoryColumn_first_match ["Name"; "Job Title"; "Type"]).
  repeat constructor.
Defined.

End ProcessorProperties.
